(** * Village photo uploader: resolution, provisioning and upload core

    A shallow embedding of the schema-introspection, field-selection,
    folder-provisioning and upload functions of [App.tsx], with the
    properties of the specification stated and proved over it.

    Strings.  A JavaScript string is a sequence of UTF-16 code units.  The
    embedding uses Rocq's [string], reading every [ascii] as one code unit
    in the range 0..255 (the Latin-1 part of the code space).  All builtins
    below ([trim], [toLowerCase], regular-expression replaces, [encodeURI],
    [JSON.stringify]) are written out for that range.

    Objects used as dictionaries ([Record<string, _>]) are plain objects:
    a finite map ([gmap string _]) holds their own properties, and a read
    [obj[key]] that finds no own property yields the member inherited
    from [Object.prototype] ([Proto.member]).  The alias index is read
    that way ([readProp]).  The metadata table is read as
    [metaByName[hit] || { readOnly: false, hidden: false }] and the type
    table as [typeByName[fieldName] === "hyperlinkOrPicture"]: an
    inherited member has no [readOnly] or [hidden] of its own and is not
    that string, so there a missing own property and an inherited member
    behave alike, and the own properties decide.  A column whose internal
    name is [__proto__] is outside the model: an assignment under that
    key sets the prototype of the object instead of a property. *)

From Stdlib Require Import ZArith NArith Ascii String List Lia DecimalString.
From Stdlib Require DecimalPos DecimalN DecimalZ.
From stdpp Require Import base option list gmap strings.

Local Open Scope N_scope.

(** ** JavaScript string builtins *)

Module JS.

Definition code (c : ascii) : N := N_of_ascii c.

Definition between (lo hi : N) (c : ascii) : bool :=
  (lo <=? code c) && (code c <=? hi).

Definition isDigit (c : ascii) : bool := between 48 57 c.
Definition isUpper (c : ascii) : bool := between 65 90 c.
Definition isLower (c : ascii) : bool := between 97 122 c.

(** The class [[a-zA-Z0-9]] (and [[a-z0-9]] under the [i] flag). *)
Definition isAlnum (c : ascii) : bool := isDigit c || isUpper c || isLower c.

(** [WhiteSpace] and [LineTerminator] code units below 256: what
    [String.prototype.trim] strips and what [\s] matches. *)
Definition isSpace (c : ascii) : bool :=
  between 9 13 c || (code c =? 32) || (code c =? 160).

Definition isChar (x : ascii) (c : ascii) : bool := code c =? code x.

(** [toLowerCase] on one code unit: A-Z, and the Latin-1 capitals
    U+00C0..U+00DE except the multiplication sign U+00D7. *)
Definition lowerChar (c : ascii) : ascii :=
  if isUpper c || (between 192 222 c && negb (code c =? 215))
  then ascii_of_N (code c + 32) else c.

Fixpoint dropWhile (p : ascii -> bool) (l : list ascii) : list ascii :=
  match l with
  | [] => []
  | c :: l' => if p c then dropWhile p l' else l
  end.

Definition dropWhileEnd (p : ascii -> bool) (l : list ascii) : list ascii :=
  rev (dropWhile p (rev l)).

(** [s.replace(/^X+|X+$/g, "")] for a character class [X]. *)
Definition stripEnds (p : ascii -> bool) (l : list ascii) : list ascii :=
  dropWhileEnd p (dropWhile p l).

(** [s.replace(/X+/g, r)]: every maximal run of class [X] becomes one [r];
    [inRun] tells that the previous code unit was in the class. *)
Fixpoint collapseGo (p : ascii -> bool) (r : ascii) (inRun : bool)
    (l : list ascii) : list ascii :=
  match l with
  | [] => []
  | c :: l' =>
      if p c then
        if inRun then collapseGo p r true l' else r :: collapseGo p r true l'
      else c :: collapseGo p r false l'
  end.

Definition collapseRuns (p : ascii -> bool) (r : ascii) : list ascii -> list ascii :=
  collapseGo p r false.

(** [s.split(sep)] for a one-character separator; the accumulator holds
    the current piece, reversed. *)
Fixpoint splitGo (sep : ascii) (cur : list ascii) (l : list ascii)
  : list (list ascii) :=
  match l with
  | [] => [rev cur]
  | c :: l' => if isChar sep c then rev cur :: splitGo sep [] l'
               else splitGo sep (c :: cur) l'
  end.

(** [l.lastIndexOf(x)], [None] for -1. *)
Fixpoint lastIndexOfGo (x : ascii) (i : nat) (found : option nat)
    (l : list ascii) : option nat :=
  match l with
  | [] => found
  | c :: l' => lastIndexOfGo x (S i) (if isChar x c then Some i else found) l'
  end.

Definition chars : string -> list ascii := list_ascii_of_string.
Definition str : list ascii -> string := string_of_list_ascii.

Definition onChars (f : list ascii -> list ascii) (s : string) : string :=
  str (f (chars s)).

Definition trim : string -> string := onChars (stripEnds isSpace).
Definition toLowerCase : string -> string := onChars (map lowerChar).
Definition split (sep : ascii) (s : string) : list string :=
  map str (splitGo sep [] (chars s)).
Definition lastIndexOf (x : ascii) (s : string) : option nat :=
  lastIndexOfGo x 0 None (chars s).
(** [s.slice(a)] and [s.slice(0, b)] for non-negative indices. *)
Definition sliceFrom (a : nat) : string -> string := onChars (drop a).
Definition sliceTo (b : nat) : string -> string := onChars (take b).

(** [String(n)] for an integer. *)
Definition ofN (n : N) : string := NilZero.string_of_uint (N.to_uint n).
Definition ofZ (z : Z) : string := NilZero.string_of_int (Z.to_int z).

(** [s.padStart(2, "0")]. *)
Definition padStart2 (s : string) : string :=
  match String.length s with
  | 0%nat => "00" +:+ s
  | 1%nat => "0" +:+ s
  | _ => s
  end.

(** Truthiness of a string value: [Boolean(s)]. *)
Definition truthy (s : string) : bool :=
  match s with EmptyString => false | _ => true end.

(** [a || b] on strings, and [toStr(v, fallback)] of the source on a
    possibly missing ([null]/[undefined]) string. *)
Definition orElse (a b : string) : string := if truthy a then a else b.

Definition hexDigit (n : N) : ascii :=
  ascii_of_N (if n <? 10 then 48 + n else 55 + n).

Definition percent (b : N) : list ascii :=
  ["%"%char; hexDigit (b / 16); hexDigit (b mod 16)].

(** Code units [encodeURI] leaves alone: letters, digits and
    [; / ? : @ & = + $ , - _ . ! ~ * ' ( ) #]. *)
Definition uriKeep (c : ascii) : bool :=
  isAlnum c ||
  existsb (fun x => isChar x c) (chars ";/?:@&=+$,-_.!~*'()#").

(** [encodeURI]: other code units are written as the percent-escaped
    bytes of their UTF-8 encoding (one byte below 128, two up to 255). *)
Definition encodeChar (c : ascii) : list ascii :=
  if uriKeep c then [c]
  else if code c <? 128 then percent (code c)
  else percent (192 + code c / 64) ++ percent (128 + code c mod 64).

Definition encodeURI : string -> string := onChars (flat_map encodeChar).

End JS.

(** [toStr(v, fallback)]: [None] stands for [null] and [undefined]; a
    string is returned as it is. *)
Definition toStr (v : option string) (fallback : string) : string :=
  match v with Some s => s | None => fallback end.

(** [trimSlashes]: the slashes at both ends are removed. *)
Definition trimSlashes : string -> string :=
  JS.onChars (JS.stripEnds (JS.isChar "/")).

(** [s.replace(/\/$/, "")]: one slash at the end is removed. *)
Definition dropLastSlash : string -> string :=
  JS.onChars (fun l =>
    match rev l with
    | c :: before => if JS.isChar "/" c then rev before else l
    | [] => l
    end).

(** ** Schema introspector: [getColumns] *)

(** A column descriptor as the metadata API returns it.  A type facet
    ([text], [number], ...) is an object that is present or absent;
    [choice]/[multiChoice] carry their configured [choices]. *)
Module Col.
Record t := {
  name : option string;
  displayName : option string;
  readOnly : bool;
  hidden : bool;
  hyperlinkOrPicture : bool;
  text : bool;
  number : bool;
  dateTime : bool;
  boolean : bool;
  choice : option (list string);
  multiChoice : option (list string);
  lookup : bool }.
End Col.

Record Meta := { readOnly : bool; hidden : bool }.

Record Columns := {
  byLower : gmap string string;
  typeByName : gmap string string;
  choicesByName : gmap string (list string);
  metaByName : gmap string Meta }.

(** The members a plain object inherits from [Object.prototype], by
    property name.  The program uses what it reads from the index as a
    condition and as a property key only, so a member (a builtin
    function, or for [__proto__] the prototype itself) is held as the
    text it converts to as a key, in the form V8 prints it; every such
    text is non-empty, as every member is truthy. *)
Module Proto.

Definition functions : list string :=
  ["__defineGetter__"; "__defineSetter__"; "hasOwnProperty"; "__lookupGetter__";
   "__lookupSetter__"; "isPrototypeOf"; "propertyIsEnumerable"; "toString";
   "valueOf"; "toLocaleString"].

Definition member (key : string) : option string :=
  if bool_decide (key = "constructor") then Some "function Object() { [native code] }"
  else if bool_decide (key = "__proto__") then Some "[object Object]"
  else if bool_decide (key ∈ functions)
  then Some ("function " +:+ key +:+ "() { [native code] }")
  else None.

End Proto.

(** [obj[key]] on a plain object with the own properties [m]. *)
Definition readProp (m : gmap string string) (key : string) : option string :=
  match m !! key with
  | Some v => Some v
  | None => Proto.member key
  end.

(** [byLower[key]] read in a condition: missing and empty are both falsy. *)
Definition hasEntry (m : gmap string string) (key : string) : bool :=
  match readProp m key with Some v => JS.truthy v | None => false end.

(** The closure [register] of [getColumns], on the index it updates. *)
Definition register (key internal : string) (byLower : gmap string string)
  : gmap string string :=
  let normalized := JS.toLowerCase (JS.trim key) in
  if negb (JS.truthy normalized) then byLower
  else if hasEntry byLower normalized then byLower
  else <[normalized := internal]> byLower.

(** [Array.from(new Set(xs))]: first occurrences, in order. *)
Fixpoint dedupGo (seen : list string) (xs : list string) : list string :=
  match xs with
  | [] => []
  | x :: xs' => if bool_decide (x ∈ seen) then dedupGo seen xs'
                else x :: dedupGo (x :: seen) xs'
  end.

Definition choiceValues (choices : list string) : list string :=
  dedupGo [] (filter (fun s => JS.truthy s = true) (map JS.trim choices)).

(** The three rewrites applied to names before registration:
    [replace(/_/g, " ")], [replace(/[^a-z0-9]/gi, "")] (both names) and
    [replace(/\s+/g, "")] (display name only). *)
Definition underscoresToSpaces : string -> string :=
  JS.onChars (map (fun c => if JS.isChar "_" c then " "%char else c)).
Definition alnumOnly : string -> string := JS.onChars (filter (fun c => JS.isAlnum c = true)).
Definition noSpaces : string -> string := JS.onChars (filter (fun c => JS.isSpace c = false)).

Definition emptyColumns : Columns :=
  {| byLower := ∅; typeByName := ∅; choicesByName := ∅; metaByName := ∅ |}.

(** One iteration of the loop over the column listing. *)
Definition columnStep (acc : Columns) (c : Col.t) : Columns :=
  let internalName := toStr (Col.name c) "" in
  if negb (JS.truthy internalName) then acc else
  let metaByName' :=
    <[internalName := {| readOnly := Col.readOnly c; hidden := Col.hidden c |}]>
      (metaByName acc) in
  let b1 := register internalName internalName (byLower acc) in
  let b2 := register (underscoresToSpaces internalName) internalName b1 in
  let b3 := register (alnumOnly internalName) internalName b2 in
  let displayName := toStr (Col.displayName c) "" in
  let b6 :=
    if JS.truthy displayName then
      register (alnumOnly displayName) internalName
        (register (noSpaces displayName) internalName
           (register displayName internalName b3))
    else b3 in
  let ty (t : string) := <[internalName := t]> (typeByName acc) in
  let '(typeByName', choicesByName') :=
    if Col.hyperlinkOrPicture c then (ty "hyperlinkOrPicture", choicesByName acc)
    else if Col.text c then (ty "text", choicesByName acc)
    else if Col.number c then (ty "number", choicesByName acc)
    else if Col.dateTime c then (ty "dateTime", choicesByName acc)
    else if Col.boolean c then (ty "boolean", choicesByName acc)
    else match Col.choice c with
    | Some choices =>
        (ty "choice", <[internalName := choiceValues choices]> (choicesByName acc))
    | None =>
    match Col.multiChoice c with
    | Some choices =>
        (ty "multiChoice", <[internalName := choiceValues choices]> (choicesByName acc))
    | None =>
        if Col.lookup c then (ty "lookup", choicesByName acc)
        else (ty "unknown", choicesByName acc)
    end end in
  {| byLower := b6; typeByName := typeByName';
     choicesByName := choicesByName'; metaByName := metaByName' |}.

(** [getColumns] on the listing [cols?.value || []] the remote returned. *)
Definition getColumns (cols : list Col.t) : Columns :=
  fold_left columnStep cols emptyColumns.

(** ** Field selector: [chooseField] *)

Definition defaultMeta : Meta := {| readOnly := false; hidden := false |}.

(** The index read of [chooseField]: [byLower[toStr(cand).toLowerCase()]]. *)
Definition lookupAlias (byLower : gmap string string) (cand : string)
  : option string :=
  readProp byLower (JS.toLowerCase cand).

Fixpoint chooseField (byLower : gmap string string) (metaByName : gmap string Meta)
    (candidates : list string) (requireWritable : bool) : option string :=
  match candidates with
  | [] => None
  | cand :: rest =>
      match lookupAlias byLower cand with
      | None => chooseField byLower metaByName rest requireWritable
      | Some hit =>
          if negb (JS.truthy hit) then
            chooseField byLower metaByName rest requireWritable
          else
            let meta := default defaultMeta (metaByName !! hit) in
            if requireWritable && readOnly meta then
              chooseField byLower metaByName rest requireWritable
            else if hidden meta then
              chooseField byLower metaByName rest requireWritable
            else Some hit
      end
  end.

(** ** [JSON.stringify] and [JSON.parse] on arrays of strings *)

Module JSON.

(** The double-quote code unit, U+0022. *)
Definition dquote : ascii := Eval cbv in ascii_of_N 34.

Definition hexLower (n : N) : ascii :=
  ascii_of_N (if n <? 10 then 48 + n else 87 + n).

(** [QuoteJSONString], one code unit: the two-character escapes, the
    [\u00xx] form for the other control characters, and the code unit
    itself otherwise. *)
Definition escapeChar (c : ascii) : list ascii :=
  let n := JS.code c in
  if n =? 8 then ["\"; "b"]%char
  else if n =? 9 then ["\"; "t"]%char
  else if n =? 10 then ["\"; "n"]%char
  else if n =? 12 then ["\"; "f"]%char
  else if n =? 13 then ["\"; "r"]%char
  else if n =? 34 then ["\"%char; dquote]
  else if n =? 92 then ["\"; "\"]%char
  else if n <? 32 then
    ["\"; "u"; "0"; "0"; hexLower (n / 16); hexLower (n mod 16)]%char
  else [c].

Definition quote (s : string) : list ascii :=
  dquote :: flat_map escapeChar (JS.chars s) ++ [dquote].

(** The elements joined by commas. *)
Definition items (xs : list string) : list ascii :=
  match xs with
  | [] => []
  | x :: xs' => quote x ++ flat_map (fun y => ","%char :: quote y) xs'
  end.

(** [JSON.stringify(xs)] for an array of strings. *)
Definition stringify (xs : list string) : string :=
  JS.str ("["%char :: items xs ++ ["]"%char]).

Inductive state :=
| Start
| First
| Next
| InString (acc : list ascii)
| Escape (acc : list ascii)
| Unicode (acc : list ascii) (k : nat) (v : N)
| AfterItem
| Done.

Definition isWs (c : ascii) : bool :=
  let n := JS.code c in (n =? 32) || (n =? 9) || (n =? 10) || (n =? 13).

Definition hexValue (c : ascii) : option N :=
  let n := JS.code c in
  if JS.isDigit c then Some (n - 48)
  else if JS.between 97 102 c then Some (n - 87)
  else if JS.between 65 70 c then Some (n - 55)
  else None.

Definition unescape (c : ascii) : option ascii :=
  let n := JS.code c in
  if n =? 34 then Some dquote
  else if n =? 92 then Some "\"%char
  else if n =? 47 then Some "/"%char
  else if n =? 98 then Some (ascii_of_N 8)
  else if n =? 102 then Some (ascii_of_N 12)
  else if n =? 110 then Some (ascii_of_N 10)
  else if n =? 114 then Some (ascii_of_N 13)
  else if n =? 116 then Some (ascii_of_N 9)
  else None.

(** [JSON.parse] restricted to arrays of strings over the modelled code
    units: [None] stands for a syntax error, for a value of another
    shape, and for a [\u] escape above U+00FF.  [out] holds the strings
    read so far, last first. *)
Fixpoint parseGo (st : state) (out : list string) (l : list ascii)
  : option (list string) :=
  match l with
  | [] => match st with Done => Some (rev out) | _ => None end
  | c :: l' =>
      match st with
      | Start =>
          if isWs c then parseGo Start out l'
          else if JS.isChar "[" c then parseGo First out l' else None
      | First =>
          if isWs c then parseGo First out l'
          else if JS.isChar dquote c then parseGo (InString []) out l'
          else if JS.isChar "]" c then parseGo Done out l' else None
      | Next =>
          if isWs c then parseGo Next out l'
          else if JS.isChar dquote c then parseGo (InString []) out l' else None
      | InString acc =>
          if JS.isChar dquote c then parseGo AfterItem (JS.str (rev acc) :: out) l'
          else if JS.isChar "\" c then parseGo (Escape acc) out l'
          else if JS.code c <? 32 then None
          else parseGo (InString (c :: acc)) out l'
      | Escape acc =>
          if JS.isChar "u" c then parseGo (Unicode acc 0 0) out l'
          else match unescape c with
               | Some x => parseGo (InString (x :: acc)) out l'
               | None => None
               end
      | Unicode acc k v =>
          match hexValue c with
          | None => None
          | Some d =>
              let v' := v * 16 + d in
              match k with
              | 3%nat => if v' <? 256
                         then parseGo (InString (ascii_of_N v' :: acc)) out l'
                         else None
              | _ => parseGo (Unicode acc (S k) v') out l'
              end
          end
      | AfterItem =>
          if isWs c then parseGo AfterItem out l'
          else if JS.isChar "," c then parseGo Next out l'
          else if JS.isChar "]" c then parseGo Done out l' else None
      | Done => if isWs c then parseGo Done out l' else None
      end
  end.

Definition parse (s : string) : option (list string) :=
  parseGo Start [] (JS.chars s).

End JSON.

(** ** [formatPhotoValue] *)

Definition formatPhotoValue (typeByName : gmap string string)
    (fieldName : string) (urls : list string) : string :=
  let t := typeByName !! fieldName in
  if bool_decide (t = Some "hyperlinkOrPicture")
  then JS.orElse (nth 0 urls "") ""
  else JSON.stringify urls.

(** ** Upload engine: target file name *)

(** The calendar fields of a [Date], as its local-time getters return
    them ([getMonth] counts from 0).  Invalid dates are not modelled. *)
Record Date := {
  getFullYear : Z;
  getMonth : N;
  getDate : N;
  getHours : N;
  getMinutes : N;
  getSeconds : N }.

Module File.
Record t := { name : option string; size : N }.
End File.

Definition isHyphen : ascii -> bool := JS.isChar "-".

(** The closure [sanitize] of [buildTargetFileName]. *)
Definition sanitize (segment : string) : string :=
  JS.sliceTo 60
    (JS.onChars (JS.stripEnds isHyphen)
       (JS.onChars (JS.collapseRuns isHyphen "-")
          (JS.onChars (JS.collapseRuns (fun c => negb (JS.isAlnum c)) "-")
             (JS.trim segment)))).

Definition compactTimestamp (stamp : Date) : string :=
  JS.ofZ (getFullYear stamp) +:+
  JS.padStart2 (JS.ofN (getMonth stamp + 1)) +:+
  JS.padStart2 (JS.ofN (getDate stamp)) +:+
  JS.padStart2 (JS.ofN (getHours stamp)) +:+
  JS.padStart2 (JS.ofN (getMinutes stamp)) +:+
  JS.padStart2 (JS.ofN (getSeconds stamp)).

(** [base] and [ext] of [buildTargetFileName]: the name before and after
    its last dot. *)
Definition fileBase (originalName : string) : string :=
  match JS.lastIndexOf "." originalName with
  | Some dot => JS.sliceTo dot originalName
  | None => originalName
  end.

Definition fileExt (originalName : string) : string :=
  match JS.lastIndexOf "." originalName with
  | Some dot => JS.sliceFrom (dot + 1) originalName
  | None => ""
  end.

Definition buildTargetFileName (file : File.t) (villageValue : string)
    (stamp : Date) : string :=
  let originalName := toStr (File.name file) "photo" in
  let base := fileBase originalName in
  let ext := fileExt originalName in
  let timestamp := compactTimestamp stamp in
  let parts := filter (fun p => JS.truthy p = true)
                 (map sanitize [villageValue; base]) in
  let safeBase := match parts with
                  | [] => "upload"
                  | _ => String.concat "_" parts
                  end in
  let safeExt := if JS.truthy ext then "." +:+ JS.toLowerCase ext else "" in
  timestamp +:+ "_" +:+ safeBase +:+ safeExt.

(** ** The remote drive and the Graph client

    The remote file store is not part of the program; the functions below
    run against this model of it.  The drive is the set of addresses
    [/drives/<id>/root:/<path>] of the items that exist.  A read succeeds
    exactly when the address is in the set; creating a child folder,
    writing content and completing an upload session add an address; no
    write call to the drive fails.  The answers that do not depend on
    the set (the clock, the column listing, the replies to chunk
    transfers, the failure of a request to the list) are taken from a
    record of oracles. *)

Record Error := { message : string }.

Inductive Result (A : Type) :=
| Ok (a : A)
| Throw (e : Error)
| OutOfFuel.
Arguments Ok {A} a.
Arguments Throw {A} e.
Arguments OutOfFuel {A}.

Record DriveItem := { webUrl : option string }.

Record Response := { status : N; statusText : string; text : option string }.

(** [Response.ok] of the Fetch standard: a status in the range 200-299. *)
Definition ok (res : Response) : bool := (200 <=? status res) && (status res <=? 299).

Inductive FetchResult :=
| Responded (res : Response)
| Rejected (e : Error).

Inductive Body :=
| FolderBody (name : string) (conflictBehavior : string)
| FieldsBody (fields : gmap string string).

Inductive Call :=
| GET (path : string)
| POST (path : string) (body : Body)
| PUT_CONTENT (path : string) (file : File.t)
| CREATE_UPLOAD_SESSION (path : string) (conflictBehavior : string)
| FETCH_PUT (url : string) (contentLength contentRange : string)
            (sliceStart sliceEnd : N)
| FETCH_GET (url : string) (mode : string).

Record World := {
  items : gset string;
  session : option string;
  calls : list Call }.

Record Remote := {
  now : nat -> Date;
  columnsOf : string -> list Col.t;
  listError : string -> option Error;
  webUrlOf : string -> option string;
  uploadUrlOf : string -> string;
  chunkReply : N -> FetchResult;
  notFound : string -> Error;
  badRequest : string -> Error }.

Definition M (A : Type) : Type := World -> Result A * World.

Definition ret {A} (a : A) : M A := fun w => (Ok a, w).
Definition throw {A} (e : Error) : M A := fun w => (Throw e, w).
Definition bind {A B} (c : M A) (k : A -> M B) : M B := fun w =>
  match c w with
  | (Ok a, w') => k a w'
  | (Throw e, w') => (Throw e, w')
  | (OutOfFuel, w') => (OutOfFuel, w')
  end.
(** [try { c } catch { h }]. *)
Definition tryCatch {A} (c : M A) (h : Error -> M A) : M A := fun w =>
  match c w with
  | (Throw e, w') => h e w'
  | r => r
  end.

Notation "'let!' x ':=' c 'in' k" := (bind c (fun x => k))
  (at level 10, x pattern, c at level 100, k at level 200).

Definition record (c : Call) (w : World) : World :=
  {| items := items w; session := session w; calls := calls w ++ [c] |}.

Definition addItem (a : string) (w : World) : World :=
  {| items := {[ a ]} ∪ items w; session := session w; calls := calls w |}.

Definition stripSuffixL (suf l : list ascii) : option (list ascii) :=
  let n := (length l - length suf)%nat in
  if bool_decide (drop n l = suf) then Some (take n l) else None.

Definition stripSuffix (suf s : string) : option string :=
  JS.str <$> stripSuffixL (JS.chars suf) (JS.chars s).

(** The address of the child [name] created through a children
    collection: [<parent>:/children] or, at the root, [<drive>/root/children]. *)
Definition childAddress (endpoint name : string) : option string :=
  match stripSuffix ":/children" endpoint with
  | Some parent => Some (parent +:+ "/" +:+ JS.encodeURI name)
  | None =>
      match stripSuffix "/root/children" endpoint with
      | Some drive => Some (drive +:+ "/root:/" +:+ JS.encodeURI name)
      | None => None
      end
  end.

(** The form state [submit] reads. *)
Record Form := {
  title : string;
  village : string;
  notes : string;
  capturedOn : string;
  files : list File.t }.

Definition NZ_TIME_ZONE : string := "Pacific/Auckland".

(** [CONFIG.libraryFolderPath]. *)
Definition libraryFolderPath : string := "VillageReconPhotos".

(** The message of the error raised when no photo column resolves.  Its
    arrow, U+2192, lies outside the code units of the model and is held
    as the three bytes of its UTF-8 form; the message is only passed on. *)
Definition missingPhotoColumn : string :=
  "Could not find a 'PhotoUrl'/'PhotoUrL' column on the list. Check the internal name in List Settings → Columns.".

(** [v || d] and [v || null] on a string that may be [null]. *)
Definition orDefault (v : option string) (d : string) : string :=
  match v with Some s => JS.orElse s d | None => d end.

Definition orNull (v : option string) : option string :=
  match v with Some s => if JS.truthy s then Some s else None | None => None end.

Section Core.

(** [rewrapNetworkError] and [formatDateTimeForSharePoint] depend on the
    browser ([window.location], [Intl]); they are taken as given. *)
Variable rewrapNetworkError : Error -> string -> Error.
Variable formatDateTimeForSharePoint : string -> string -> string.
Variable rm : Remote.

(** *** [useSafeGraph]: the client calls, answered by the model *)

Definition sgraph_get (path : string) : M DriveItem := fun w =>
  let w' := record (GET path) w in
  if bool_decide (path ∈ items w)
  then (Ok {| webUrl := webUrlOf rm path |}, w')
  else (Throw (rewrapNetworkError (notFound rm path) path), w').

Definition sgraph_post (path : string) (body : Body) : M DriveItem := fun w =>
  let w' := record (POST path body) w in
  match body with
  | FolderBody name _ =>
      match childAddress path name with
      | Some a => (Ok {| webUrl := webUrlOf rm a |}, addItem a w')
      | None => (Throw (rewrapNetworkError (badRequest rm path) path), w')
      end
  | FieldsBody _ =>
      match listError rm path with
      | Some e => (Throw (rewrapNetworkError e path), w')
      | None => (Ok {| webUrl := None |}, w')
      end
  end.

Definition sgraph_putContent (path : string) (blob : File.t) : M DriveItem :=
  fun w =>
  let w' := record (PUT_CONTENT path blob) w in
  match stripSuffix ":/content" path with
  | Some a => (Ok {| webUrl := webUrlOf rm a |}, addItem a w')
  | None => (Throw (rewrapNetworkError (badRequest rm path) path), w')
  end.

(** Returns the session's [uploadUrl]. *)
Definition sgraph_createUploadSession (path : string) (conflictBehavior : string)
  : M string := fun w =>
  let w' := record (CREATE_UPLOAD_SESSION path conflictBehavior) w in
  match stripSuffix ":/createUploadSession" path with
  | Some a =>
      (Ok (uploadUrlOf rm a),
       {| items := items w'; session := Some a; calls := calls w' |})
  | None => (Throw (rewrapNetworkError (badRequest rm path) path), w')
  end.

(** [fetch(url, { method: "PUT", ... })] of one chunk.  The service
    answers 200 or 201 when the last byte range has arrived, and the
    item then exists. *)
Definition fetchPut (url contentLength contentRange : string)
    (sliceStart sliceEnd : N) : World -> FetchResult * World := fun w =>
  let w' := record (FETCH_PUT url contentLength contentRange sliceStart sliceEnd) w in
  let reply := chunkReply rm sliceStart in
  match reply, session w with
  | Responded res, Some a =>
      if (status res =? 200) || (status res =? 201)
      then (reply, addItem a w') else (reply, w')
  | _, _ => (reply, w')
  end.

(** [new Date()]: the clock is read off the number of calls made so far. *)
Definition newDate : M Date := fun w => (Ok (now rm (length (calls w))), w).

(** *** Path helper *)

Definition childrenEndpoint (driveId parentPath : string) : string :=
  let clean := trimSlashes parentPath in
  if JS.truthy clean
  then "/drives/" +:+ driveId +:+ "/root:/" +:+ JS.encodeURI clean +:+ ":/children"
  else "/drives/" +:+ driveId +:+ "/root/children".

(** *** Folder provisioner: [ensureFolder] *)

(** [s.replace(/\/{2,}/g, "/")]: a run of slashes becomes one slash (a
    run of length one is left as it is, which is the same). *)
Definition collapseSlashes : string -> string :=
  JS.onChars (JS.collapseRuns (JS.isChar "/") "/").

(** The body of the loop over the segments; returns the new [parentPath]. *)
Definition ensureSegment (driveId parentPath raw : string) : M string :=
  let segment := JS.trim raw in
  if negb (JS.truthy segment) then ret parentPath else
  let currentPath :=
    if JS.truthy parentPath then parentPath +:+ "/" +:+ segment else segment in
  let! _ :=
    tryCatch
      (sgraph_get ("/drives/" +:+ driveId +:+ "/root:/" +:+ JS.encodeURI currentPath))
      (fun _ =>
         let endpoint := childrenEndpoint driveId parentPath in
         sgraph_post endpoint (FolderBody segment "replace")) in
  ret currentPath.

Fixpoint ensureSegments (driveId parentPath : string) (raws : list string)
  : M string :=
  match raws with
  | [] => ret parentPath
  | raw :: raws' =>
      let! parentPath' := ensureSegment driveId parentPath raw in
      ensureSegments driveId parentPath' raws'
  end.

Definition ensureFolder (driveId baseFolderPath : string) (stamp : Date)
  : M string :=
  let year := JS.ofZ (getFullYear stamp) in
  let month := JS.padStart2 (JS.ofN (getMonth stamp + 1)) in
  let combined :=
    collapseSlashes (trimSlashes (baseFolderPath +:+ "/" +:+ year +:+ "/" +:+ month)) in
  let! _ := ensureSegments driveId "" (JS.split "/" combined) in
  ret (year +:+ "/" +:+ month).

(** *** Upload engine: [uploadOne] *)

Definition chunkSize : N := 5 * 1024 * 1024.

Definition contentRange (start end_ total : N) : string :=
  "bytes " +:+ JS.ofN start +:+ "-" +:+ JS.ofN (end_ - 1) +:+ "/" +:+ JS.ofN total.

(** The acceptance test on a chunk response:
    [!res.ok && ![200,201,202].includes(res.status)] rejects. *)
Definition accepted (res : Response) : bool :=
  negb (negb (ok res) &&
        negb (bool_decide (status res ∈ [200; 201; 202]))).

Definition chunkFailed (res : Response) : Error :=
  {| message := "Upload chunk failed: HTTP " +:+ JS.ofN (status res) +:+ " " +:+
                statusText res +:+ " " +:+ toStr (text res) "" |}.

(** The [while (start < file.size)] loop; [fuel] bounds the number of
    iterations. *)
Fixpoint uploadChunks (fuel : nat) (uploadUrl : string) (size start : N)
  : M unit :=
  if start <? size then
    match fuel with
    | O => fun w => (OutOfFuel, w)
    | S fuel' =>
        let end_ := N.min (start + chunkSize) size in
        fun w =>
        match fetchPut uploadUrl (JS.ofN (end_ - start))
                (contentRange start end_ size) start end_ w with
        | (Rejected e, w') =>
            (Throw (rewrapNetworkError e "UploadSession PUT chunk"), w')
        | (Responded res, w') =>
            if negb (accepted res) then (Throw (chunkFailed res), w')
            else uploadChunks fuel' uploadUrl size end_ w'
        end
    end
  else ret tt.

(** [s.replace(/^\/+/, "")]. *)
Definition stripLeadingSlashes : string -> string :=
  JS.onChars (JS.dropWhile (JS.isChar "/")).

Definition uploadOne (driveId baseFolderPath : string) (file : File.t)
    (villageValue : string) : M DriveItem :=
  let! stamp := newDate in
  let! pathSub := ensureFolder driveId baseFolderPath stamp in
  let fileName := buildTargetFileName file villageValue stamp in
  let target :=
    stripLeadingSlashes
      (trimSlashes baseFolderPath +:+ "/" +:+ pathSub +:+ "/" +:+ fileName) in
  if File.size file <=? 3999999 then
    sgraph_putContent
      ("/drives/" +:+ driveId +:+ "/root:/" +:+ JS.encodeURI target +:+ ":/content")
      file
  else
    let! uploadUrl :=
      sgraph_createUploadSession
        ("/drives/" +:+ driveId +:+ "/root:/" +:+ JS.encodeURI target +:+
         ":/createUploadSession") "rename" in
    let! _ := uploadChunks (S (N.to_nat (File.size file / chunkSize)))
                uploadUrl (File.size file) 0 in
    sgraph_get ("/drives/" +:+ driveId +:+ "/root:/" +:+ JS.encodeURI target).

(** *** Submission orchestrator: [submit]

    [submit] below is the part of the handler from the column read to
    the record creation, with the three identifiers as arguments; it
    runs once the guards of the handler have passed (signed in, at least
    one file selected, authentication ready, configuration accepted) and
    the identifiers are resolved.  The whole handler, with the guards,
    the resolution and the [catch], is [submitHandler] further down.
    The notes are written as entered; the earlier revision of the file
    appends the additional photo URLs to them and formats the date
    differently, with the same keys. *)

Definition sgraph_getColumns (path : string) : M (list Col.t) := fun w =>
  let w' := record (GET path) w in
  match listError rm path with
  | Some e => (Throw (rewrapNetworkError e path), w')
  | None => (Ok (columnsOf rm path), w')
  end.

Definition createListItem (siteId listId : string)
    (fields : gmap string string) : M DriveItem :=
  sgraph_post ("/sites/" +:+ siteId +:+ "/lists/" +:+ listId +:+ "/items")
    (FieldsBody fields).

(** [for (const f of files) uploadedItems.push(await uploadOne(...))]. *)
Fixpoint uploadAll (driveId : string) (files : list File.t) (village : string)
  : M (list DriveItem) :=
  match files with
  | [] => ret []
  | f :: files' =>
      let! driveItem :=
        uploadOne driveId libraryFolderPath f (JS.orElse village "") in
      let! rest := uploadAll driveId files' village in
      ret (driveItem :: rest)
  end.

Definition submit (form : Form) (siteId listId driveId : string) : M unit :=
  let! cols :=
    sgraph_getColumns ("/sites/" +:+ siteId +:+ "/lists/" +:+ listId +:+ "/columns") in
  let c := getColumns cols in
  let choose candidates := chooseField (byLower c) (metaByName c) candidates true in
  let titleName := orDefault (choose ["Title"]) "Title" in
  let villageName := orNull (choose ["Village"]) in
  let notesName := orNull (choose ["Notes"; "Note"; "Description"]) in
  let capturedOnName :=
    orNull (choose ["CapturedOn"; "Captured On"; "Captured_On"]) in
  let photoFieldName :=
    orNull (choose ["PhotoUrl"; "PhotoUrL"; "Photo URL"; "Photo_Url"]) in
  match photoFieldName with
  | None => throw {| message := missingPhotoColumn |}
  | Some photoFieldName =>
      let! uploadedItems := uploadAll driveId (files form) (village form) in
      let photoUrls :=
        filter (fun u => JS.truthy u = true)
          (map (fun i => toStr (webUrl i) "") uploadedItems) in
      let primaryUrl := JS.orElse (nth 0 photoUrls "") "" in
      let extraUrls := drop 1 photoUrls in
      let augmentedNotes := JS.orElse (notes form) "" in
      let isoDate := formatDateTimeForSharePoint (capturedOn form) NZ_TIME_ZONE in
      let fields0 : gmap string string :=
        <[titleName :=
            JS.orElse (title form)
              (orDefault (head (files form) ≫= File.name) "Photo Report")]> ∅ in
      let fields1 :=
        match villageName with
        | Some n => <[n := JS.orElse (village form) ""]> fields0
        | None => fields0
        end in
      let fields2 :=
        match notesName with
        | Some n => <[n := augmentedNotes]> fields1
        | None => fields1
        end in
      let fields3 :=
        match capturedOnName with
        | Some n => <[n := isoDate]> fields2
        | None => fields2
        end in
      let fields :=
        <[photoFieldName :=
            formatPhotoValue (typeByName c) photoFieldName
              (primaryUrl :: extraUrls)]> fields3 in
      let! _ := createListItem siteId listId fields in
      ret tt
  end.

End Core.

(** * Further functions of the file *)

(** ** Utilities: [normalizeRedirectUri], [isGuid] *)

(** [/\/$/.test(s)]. *)
Definition endsWithSlash (s : string) : bool :=
  match last (JS.chars s) with
  | Some c => JS.isChar "/" c
  | None => false
  end.

Definition normalizeRedirectUri (v : option string) : string :=
  let s := toStr v "" in
  if negb (JS.truthy s) then ""
  else if endsWithSlash s then s else s +:+ "/".

(** The class [[0-9a-fA-F]]. *)
Definition isHex (c : ascii) : bool :=
  JS.isDigit c || JS.between 97 102 c || JS.between 65 70 c.

(** [x?]: one optional literal.  In the pattern of [isGuid] every optional
    literal is followed by a hexadecimal digit or by the end, so taking
    the literal when it is there is the only way to match. *)
Definition optChar (x : ascii) (l : list ascii) : list ascii :=
  match l with
  | c :: l' => if JS.isChar x c then l' else l
  | [] => []
  end.

(** [[0-9a-fA-F]{n}]; the rest of the input on success. *)
Fixpoint hexRun (n : nat) (l : list ascii) : option (list ascii) :=
  match n with
  | O => Some l
  | S n' =>
      match l with
      | c :: l' => if isHex c then hexRun n' l' else None
      | [] => None
      end
  end.

(** [/^{?[0-9a-fA-F]{8}(-?[0-9a-fA-F]{4}){3}-?[0-9a-fA-F]{12}}?$/.test(s)]. *)
Definition isGuid (s : string) : bool :=
  match hexRun 8 (optChar "{" (JS.chars s)) with
  | None => false
  | Some l1 =>
  match hexRun 4 (optChar "-" l1) with
  | None => false
  | Some l2 =>
  match hexRun 4 (optChar "-" l2) with
  | None => false
  | Some l3 =>
  match hexRun 4 (optChar "-" l3) with
  | None => false
  | Some l4 =>
  match hexRun 12 (optChar "-" l4) with
  | None => false
  | Some l5 =>
      match optChar "}" l5 with
      | [] => true
      | _ => false
      end
  end end end end end.

(** ** Substring search and [encodeURIComponent] *)

Fixpoint isPrefixL (p l : list ascii) : bool :=
  match p, l with
  | [], _ => true
  | x :: p', c :: l' => bool_decide (x = c) && isPrefixL p' l'
  | _ :: _, [] => false
  end.

Fixpoint includesL (p l : list ascii) : bool :=
  isPrefixL p l ||
  match l with
  | [] => false
  | _ :: l' => includesL p l'
  end.

(** [s.includes(p)]. *)
Definition strIncludes (s p : string) : bool := includesL (JS.chars p) (JS.chars s).

(** [encodeURIComponent]: only letters, digits and [- _ . ! ~ * ' ( )]
    are left alone. *)
Definition componentKeep (c : ascii) : bool :=
  JS.isAlnum c || existsb (fun x => JS.isChar x c) (JS.chars "-_.!~*'()").

Definition encodeComponentChar (c : ascii) : list ascii :=
  if componentKeep c then [c]
  else if JS.code c <? 128 then JS.percent (JS.code c)
  else JS.percent (192 + JS.code c / 64) ++ JS.percent (128 + JS.code c mod 64).

Definition encodeURIComponent : string -> string :=
  JS.onChars (flat_map encodeComponentChar).

(** ** [rewrapNetworkError] *)

Module Net.

(** The alternatives of [/Failed to fetch|NetworkError|TypeError|Load failed|ERR_NETWORK/i]. *)
Definition markers : list string :=
  ["Failed to fetch"; "NetworkError"; "TypeError"; "Load failed"; "ERR_NETWORK"].

Definition isNetwork (msg : string) : bool :=
  existsb (fun m => strIncludes (JS.toLowerCase msg) (JS.toLowerCase m)) markers.

(** What the Graph client or [fetch] throws: an [Error], with its [name]
    ("Error", "TypeError", ...) and its [message]. *)
Record Thrown := { name : string; message : string }.

(** [String(err)], that is [Error.prototype.toString]: the name and the
    message joined by a colon, or the one of them that is not empty. *)
Definition toString (err : Thrown) : string :=
  if negb (JS.truthy (name err)) then message err
  else if negb (JS.truthy (message err)) then name err
  else name err +:+ ": " +:+ message err.

(** [String(err?.message || err)]. *)
Definition text (err : Thrown) : string :=
  if JS.truthy (message err) then message err else toString err.

Section Rewrap.

(** [CONFIG.spSiteHostname], [CONFIG.spSitePath] and
    [window.location.origin] as the hints quote them, and the separator
    of the hint list (a backslash, [n] and a bullet; the bullet is
    outside the code units modelled). *)
Variable host path : string.
Variable origin : option string.
Variable separator : string.

Definition rewrapNetworkError (err : Thrown) (contextPath : string) : Thrown :=
  let msg := text err in
  if negb (isNetwork msg) then err else
  let hints :=
    String.concat separator
      ["Endpoint: " +:+ contextPath;
       "Check CONFIG.spSiteHostname ('" +:+ host +:+ "') and spSitePath ('" +:+
         path +:+ "')";
       "If running on HTTP, ensure corporate policies/firewalls allow cross-origin calls to graph.microsoft.com and *.sharepoint.com";
       "Confirm your Entra app's SPA Redirect URI matches this origin: " +:+
         toStr origin "" +:+ "/"] in
  {| name := "Error";
     message := "Network/CORS issue when calling Graph. Original: " +:+ msg +:+
                separator +:+ hints |}.

End Rewrap.

End Net.

(** ** Resource resolver: [getSiteId], [resolveListId], [resolveDriveId] *)

Record Config := {
  spSiteHostname : string;
  spSitePath : string;
  spListIdOrName : string;
  spLibraryDriveIdOrName : string;
  graphBaseUrl : string;
  graphVersion : string }.

(** The values of [CONFIG]. *)
Definition CONFIG : Config :=
  {| spSiteHostname := "metlifecare.sharepoint.com";
     spSitePath := "/sites/windows11upgrade";
     spListIdOrName := "W11VillageReconList";
     spLibraryDriveIdOrName := "Documents";
     graphBaseUrl := "https://graph.microsoft.com";
     graphVersion := "v1.0" |}.

Module Site.
Record t := { id : string; webUrl : option string; hostname : option string }.
End Site.

Module SpList.
Record t := { id : string; displayName : option string }.
End SpList.

Module Drive.
Record t := { id : string; name : option string; driveType : option string }.
End Drive.

(** The answers of the metadata API, by request path: [siteReply] to the
    direct site lookup, the others the [value] array of a collection
    ([[]] when it is missing). *)
Record Directory := {
  siteReply : string -> Result Site.t;
  searchReply : string -> Result (list Site.t);
  listsReply : string -> Result (list SpList.t);
  drivesReply : string -> Result (list Drive.t) }.

(** [lastSegment]: the last non-empty piece of the site path. *)
Definition lastSegment (cfg : Config) : string :=
  JS.orElse
    (default "" (last (filter (fun s => JS.truthy s = true)
                         (JS.split "/" (spSitePath cfg))))) "".

(** [name.replace(/'/g, "''")]. *)
Definition doubleQuotes : string -> string :=
  JS.onChars (flat_map (fun c => if JS.isChar "'" c then [c; c] else [c])).

Section Resolver.

Variable rewrapNetworkError : Error -> string -> Error.
(** [decodeURIComponent] is taken as given; it throws on a malformed
    escape sequence. *)
Variable decodeURIComponent : string -> Result string.
Variable dir : Directory.

(** [sgraph.get(path)] on the metadata API. *)
Definition sgraph_read {A} (reply : string -> Result A) (path : string) : M A :=
  fun w =>
  let w' := record (GET path) w in
  match reply path with
  | Ok a => (Ok a, w')
  | Throw e => (Throw (rewrapNetworkError e path), w')
  | OutOfFuel => (OutOfFuel, w')
  end.

Definition siteMatchesPath (pathLower : string) (s : Site.t) : bool :=
  strIncludes (JS.toLowerCase (toStr (Site.webUrl s) "")) pathLower.

Definition siteMatchesBoth (pathLower hostLower : string) (s : Site.t) : bool :=
  siteMatchesPath pathLower s &&
  strIncludes (JS.toLowerCase (toStr (Site.hostname s) "")) hostLower.

Definition getSiteId (cfg : Config) : M string :=
  let host := spSiteHostname cfg in
  let path := spSitePath cfg in
  let directPath := "/sites/" +:+ host +:+ ":" +:+ path in
  tryCatch
    (if negb (JS.truthy host) || negb (JS.truthy path)
     then throw {| message := "Missing spSiteHostname or spSitePath" |}
     else
       let! site := sgraph_read (siteReply dir) directPath in
       ret (Site.id site))
    (fun _ =>
       let searchTerm := JS.orElse (JS.orElse (lastSegment cfg) path) host in
       let! candidates :=
         sgraph_read (searchReply dir)
           ("/sites?search=" +:+ encodeURIComponent searchTerm) in
       match candidates with
       | [] =>
           throw {| message :=
             "Could not discover site. Verify spSiteHostname ('" +:+ host +:+
             "') and spSitePath ('" +:+ path +:+ "')." |}
       | first :: _ =>
           let pathLower := JS.toLowerCase path in
           let hostLower := JS.toLowerCase host in
           let chosen :=
             match find (siteMatchesBoth pathLower hostLower) candidates with
             | Some s => s
             | None =>
                 match find (siteMatchesPath pathLower) candidates with
                 | Some s => s
                 | None => first
                 end
             end in
           ret (Site.id chosen)
       end).

Definition resolveListId (siteId idOrName : string) : M string :=
  if isGuid idOrName then ret idOrName else
  let name := doubleQuotes idOrName in
  let! lists :=
    sgraph_read (listsReply dir)
      ("/sites/" +:+ siteId +:+ "/lists?$filter=displayName eq '" +:+ name +:+ "'") in
  match lists with
  | [] => throw {| message := "List '" +:+ idOrName +:+ "' not found in site." |}
  | found :: _ => ret (SpList.id found)
  end.

Definition driveNamed (targetName : string) (d : Drive.t) : bool :=
  bool_decide (JS.toLowerCase (toStr (Drive.name d) "") = targetName).

Definition isDocumentLibrary (d : Drive.t) : bool :=
  bool_decide (JS.toLowerCase (toStr (Drive.driveType d) "") = "documentlibrary").

Definition resolveDriveId (siteId idOrName : string) : M string :=
  let! drives := sgraph_read (drivesReply dir) ("/sites/" +:+ siteId +:+ "/drives") in
  if isGuid idOrName then ret idOrName else
  match decodeURIComponent idOrName with
  | Throw e => throw e
  | OutOfFuel => fun w => (OutOfFuel, w)
  | Ok decoded =>
      let targetName := JS.toLowerCase decoded in
      match find (driveNamed targetName) drives with
      | Some found => ret (Drive.id found)
      | None =>
          match find isDocumentLibrary drives with
          | Some found => ret (Drive.id found)
          | None =>
              let names :=
                String.concat ", " (map (fun d => toStr (Drive.name d) "") drives) in
              throw {| message :=
                "Drive '" +:+ idOrName +:+ "' not found. Available: " +:+ names |}
          end
      end
  end.

End Resolver.

(** ** File picker: [fileKey], [onFilesChanged] *)

(** The three attributes of a [File] that [fileKey] reads. *)
Module Picked.
Record t := { name : string; size : N; lastModified : Z }.
End Picked.

Definition fileKey (file : Picked.t) : string :=
  Picked.name file +:+ "::" +:+ JS.ofN (Picked.size file) +:+ "::" +:+
  JS.ofZ (Picked.lastModified file).

Section FilePicker.

(** The [File] objects of the picker and the attributes of each; two
    files may agree in name, size and stamp and still be different files. *)
Variable FileObject : Type.
Variable attributes : FileObject -> Picked.t.

(** The loop over the picked files, with the set of keys seen so far. *)
Fixpoint appendNew (existingKeys : gset string) (picked : list FileObject)
  : list FileObject :=
  match picked with
  | [] => []
  | file :: rest =>
      let key := fileKey (attributes file) in
      if bool_decide (key ∈ existingKeys) then appendNew existingKeys rest
      else file :: appendNew ({[ key ]} ∪ existingKeys) rest
  end.

(** The new value of [files] after [onFilesChanged]. *)
Definition onFilesChanged (prev picked : list FileObject) : list FileObject :=
  match picked with
  | [] => prev
  | _ =>
      prev ++
      appendNew (list_to_set (map (fun file => fileKey (attributes file)) prev)) picked
  end.

End FilePicker.

Arguments appendNew {FileObject} attributes existingKeys picked.
Arguments onFilesChanged {FileObject} attributes prev picked.

(** ** The handler [submit]: guards, resolution, [catch]

    [submitHandler] is the whole of the handler [submit]: the four
    guards, the resolution of the identifiers that are not yet known,
    the part modelled as [submit] above, and the [catch] that turns any
    error into a message.  The two reachability probes before the
    resolution each catch their own errors and only feed the activity
    log; their requests are part of the trace.  Both probes are started
    before either is answered ([Promise.all]); the trace holds the
    requests in the order they are issued.  The activity log and the
    resets of the form are left out. *)

(** The identifiers kept from an earlier run ([resolved]). *)
Module Resolved.
Record t := { siteId : option string; listId : option string; driveId : option string }.
End Resolved.

(** The state the guards read: whether an account is signed in, whether
    authentication is ready, and whether [validateConfig] found nothing
    or the user confirmed to go on. *)
Record Page := {
  account : bool;
  msalReady : bool;
  configAccepted : bool;
  resolved : Resolved.t }.

(** What the handler leaves the user with: one of the guard alerts, a
    silent return after a declined confirmation, the success alert, or
    the alert of a caught error. *)
Inductive Outcome :=
| Alert (text : string)
| Declined
| Submitted
| Failed (e : Error).

Section Handler.

Variable rewrapNetworkError : Error -> string -> Error.
Variable formatDateTimeForSharePoint : string -> string -> string.
Variable decodeURIComponent : string -> Result string.
Variable rm : Remote.
Variable dir : Directory.
Variable cfg : Config.

(** How the network answers a probe: [None] when the [fetch] resolves,
    the error when it rejects. *)
Variable probeError : string -> option Error.

(** [fetch(url, { mode })] of a probe. *)
Definition probeFetch (url mode : string) : M unit := fun w =>
  let w' := record (FETCH_GET url mode) w in
  match probeError url with
  | Some e => (Throw e, w')
  | None => (Ok tt, w')
  end.

(** The [ok] of the probe's answer. *)
Definition probeGraphReachable : M bool :=
  let base :=
    dropLastSlash (toStr (Some (graphBaseUrl cfg)) "https://graph.microsoft.com") in
  let ver := trimSlashes (toStr (Some (graphVersion cfg)) "v1.0") in
  let metaUrl := base +:+ "/" +:+ ver +:+ "/$metadata" in
  tryCatch (let! _ := probeFetch metaUrl "cors" in ret true)
           (fun _ => ret false).

Definition probeSharePointHost (hostname : string) : M bool :=
  let host := toStr (Some hostname) "" in
  if negb (JS.truthy host) then ret false
  else
    tryCatch
      (let! _ := probeFetch ("https://" +:+ host +:+ "/_api/v2.1/drive/root")
                   "no-cors" in
       ret true)
      (fun _ => ret false).

(** [known || (await resolve())]. *)
Definition orResolve (known : option string) (resolve : M string) : M string :=
  match known with
  | Some id => if JS.truthy id then ret id else resolve
  | None => resolve
  end.

(** The [try] block of the handler past the probes: the resolution of
    the identifiers that are not yet known, then the part [submit] above. *)
Definition resolveAndSubmit (page : Page) (form : Form) : M Outcome :=
  let! siteId :=
    orResolve (Resolved.siteId (resolved page))
      (getSiteId rewrapNetworkError dir cfg) in
  let! listId :=
    orResolve (Resolved.listId (resolved page))
      (resolveListId rewrapNetworkError dir siteId (spListIdOrName cfg)) in
  let! driveId :=
    orResolve (Resolved.driveId (resolved page))
      (resolveDriveId rewrapNetworkError decodeURIComponent dir siteId
         (spLibraryDriveIdOrName cfg)) in
  let! _ :=
    submit rewrapNetworkError formatDateTimeForSharePoint rm form
      siteId listId driveId in
  ret Submitted.

Definition submitHandler (page : Page) (form : Form) : M Outcome :=
  if negb (account page) then ret (Alert "Please sign in first.")
  else if bool_decide (files form = []) then ret (Alert "Select at least one photo.")
  else if negb (msalReady page)
  then ret (Alert "Auth is still initializing. Try again in a moment.")
  else if negb (configAccepted page) then ret Declined
  else
    tryCatch
      (let! gProbe := probeGraphReachable in
       let! spProbe := probeSharePointHost (spSiteHostname cfg) in
       resolveAndSubmit page form)
      (fun e => ret (Failed e)).

End Handler.


(** * Vocabulary of the statements *)

(** Every entry of an index is a non-empty string. *)
Definition allTruthy (m : gmap string string) : Prop :=
  ∀ k v, m !! k = Some v → JS.truthy v = true.

(** The key [register] files an alias under. *)
Definition normalize (key : string) : string := JS.toLowerCase (JS.trim key).

(** The keys under which a plain object inherits a member. *)
Definition inherits (key : string) : bool :=
  match Proto.member key with Some _ => true | None => false end.

(** The arguments of the [register] calls made for one column, in order. *)
Definition aliasForms (c : Col.t) : list string :=
  let internalName := toStr (Col.name c) "" in
  let displayName := toStr (Col.displayName c) "" in
  [internalName; underscoresToSpaces internalName; alnumOnly internalName] ++
  (if JS.truthy displayName
   then [displayName; noSpaces displayName; alnumOnly displayName] else []).

(** Column [c] registers the key [k] for its internal name [n]: the
    name is not empty, and [k] is the non-empty normal form (trimmed,
    lower case) of one of the six alias forms. *)
Definition registers (c : Col.t) (k n : string) : Prop :=
  Col.name c = Some n ∧ JS.truthy n = true ∧ JS.truthy k = true ∧
  ∃ form, form ∈ aliasForms c ∧ k = normalize form.

(** The [register] calls of one column, in a row. *)
Definition registerAll (keys : list string) (internal : string)
    (m : gmap string string) : gmap string string :=
  fold_left (fun m key => register key internal m) keys m.

(** A plain text column, for examples. *)
Definition textColumn (internal display : string) (ro hid : bool) : Col.t :=
  {| Col.name := Some internal; Col.displayName := Some display;
     Col.readOnly := ro; Col.hidden := hid;
     Col.hyperlinkOrPicture := false; Col.text := true; Col.number := false;
     Col.dateTime := false; Col.boolean := false; Col.choice := None;
     Col.multiChoice := None; Col.lookup := false |}.


(** A candidate is usable when its index entry is non-empty and the
    column it names is neither hidden nor (when required) read-only. *)
Definition usable (byLower : gmap string string) (metaByName : gmap string Meta)
    (requireWritable : bool) (cand : string) : option string :=
  chooseField byLower metaByName [cand] requireWritable.

(** A listing with a read-only, a hidden and a writable notes-like column. *)
Definition selectorColumns : Columns :=
  getColumns [textColumn "Notes_RO" "Notes" true false;
              textColumn "Note" "Hidden note" false true;
              textColumn "Description" "Description" false false].

(** What [sanitize] guarantees of a segment: letters, digits and
    hyphens only, at most 60 code units, and no hyphen in front. *)
Definition cleanSegment (s : string) : Prop :=
  Forall (fun c => JS.isAlnum c = true ∨ c = "-"%char) (JS.chars s) ∧
  (String.length s ≤ 60)%nat ∧
  (∀ c rest, JS.chars s = c :: rest → c ≠ "-"%char).

(** A string of exactly [n] decimal digits. *)
Definition digitsN (n : nat) (s : string) : bool :=
  Nat.eqb (String.length s) n && forallb JS.isDigit (JS.chars s).

(** The ranges of the calendar fields of a [Date] whose year has four
    digits. *)
Definition fourDigitYear (stamp : Date) : Prop :=
  (1000 ≤ getFullYear stamp ≤ 9999)%Z ∧
  getMonth stamp ≤ 11 ∧ getDate stamp ≤ 31 ∧ getHours stamp ≤ 23 ∧
  getMinutes stamp ≤ 59 ∧ getSeconds stamp ≤ 59.

(** A path with no slash at either end. *)
Definition noEdgeSlash (s : string) : Prop :=
  head (JS.chars s) ≠ Some "/"%char ∧ last (JS.chars s) ≠ Some "/"%char.

(** The address [ensureFolder] reads for a folder path. *)
Definition folderAddress (driveId path : string) : string :=
  "/drives/" +:+ driveId +:+ "/root:/" +:+ JS.encodeURI path.

(** The folder paths the segment loop visits, in order. *)
Fixpoint folderPaths (parentPath : string) (raws : list string) : list string :=
  match raws with
  | [] => []
  | raw :: raws' =>
      let segment := JS.trim raw in
      if negb (JS.truthy segment) then folderPaths parentPath raws'
      else
        let currentPath :=
          if JS.truthy parentPath then parentPath +:+ "/" +:+ segment else segment in
        currentPath :: folderPaths currentPath raws'
  end.

(** The segments of [basePath/YYYY/MM] as [ensureFolder] splits them. *)
Definition folderSegments (baseFolderPath : string) (stamp : Date) : list string :=
  JS.split "/"
    (collapseSlashes
       (trimSlashes
          (baseFolderPath +:+ "/" +:+ JS.ofZ (getFullYear stamp) +:+ "/" +:+
           JS.padStart2 (JS.ofN (getMonth stamp + 1))))).

(** The addresses [ensureFolder] reads, in order. *)
Definition folderAddresses (driveId baseFolderPath : string) (stamp : Date)
  : list string :=
  map (folderAddress driveId) (folderPaths "" (folderSegments baseFolderPath stamp)).

(** The reads and the folder-create calls of a trace. *)
Definition reads (t : list Call) : list string :=
  omap (fun c => match c with GET p => Some p | _ => None end) t.

(** The folder-create calls as pairs of children collection and name. *)
Definition createCalls (t : list Call) : list (string * string) :=
  omap (fun c => match c with
                 | POST e (FolderBody n _) => Some (e, n)
                 | _ => None
                 end) t.

(** The address of the folder a create call makes. *)
Definition createdAddress (c : string * string) : option string :=
  childAddress (fst c) (snd c).

(** [currentPath] of the segment loop. *)
Definition joinPath (parentPath segment : string) : string :=
  if JS.truthy parentPath then parentPath +:+ "/" +:+ segment else segment.

(** A trace of reads and folder-create calls only. *)
Definition onlyFolderCalls (t : list Call) : Prop :=
  Forall (fun c => match c with
                   | GET _ | POST _ (FolderBody _ _) => True
                   | _ => False
                   end) t.

(** A remote and a starting state for the examples: an empty drive, a
    fixed clock, and a service that takes every chunk and answers 201 to
    the one that completes the file. *)
Definition demoStamp : Date :=
  {| getFullYear := 2024; getMonth := 0; getDate := 5;
     getHours := 13; getMinutes := 7; getSeconds := 59 |}.

Definition demoRemote (cols : list Col.t) (total : N) : Remote :=
  {| now := fun _ => demoStamp;
     columnsOf := fun _ => cols;
     listError := fun _ => None;
     webUrlOf := fun a => Some ("https://contoso.sharepoint.com" +:+ a);
     uploadUrlOf := fun a => "https://upload.example" +:+ a;
     chunkReply := fun start =>
       Responded {| status := if start + chunkSize <? total then 202 else 201;
                    statusText := ""; text := None |};
     notFound := fun _ => {| message := "itemNotFound" |};
     badRequest := fun _ => {| message := "invalidRequest" |} |}.

Definition emptyWorld : World := {| items := ∅; session := None; calls := [] |}.

(** [rewrapNetworkError] on an error that is not network-shaped. *)
Definition keepError (e : Error) (_ : string) : Error := e.

(** The byte range of chunk [i]: from [i * chunkSize] up to
    [min ((i + 1) * chunkSize) size]. *)
Definition chunkStart (i : nat) : N := N.of_nat i * chunkSize.

Definition chunkEnd (size : N) (i : nat) : N :=
  N.min (chunkStart i + chunkSize) size.

(** The [i]-th chunk transfer of a file of [size] bytes. *)
Definition chunkCall (uploadUrl : string) (size : N) (i : nat) : Call :=
  FETCH_PUT uploadUrl
    (JS.ofN (chunkEnd size i - chunkStart i))
    (contentRange (chunkStart i) (chunkEnd size i) size)
    (chunkStart i) (chunkEnd size i).

(** [ceil(size / chunkSize)]. *)
Definition chunkCount (size : N) : nat :=
  N.to_nat ((size + chunkSize - 1) / chunkSize).

(** Call kinds. *)
Definition isPut (c : Call) : bool :=
  match c with FETCH_PUT _ _ _ _ _ => true | _ => false end.

(** The chunk transfers of a trace. *)
Definition puts (t : list Call) : list Call :=
  filter (fun c => isPut c = true) t.

(** A reply that lets the chunk loop go on. *)
Definition acceptedReply (fr : FetchResult) : bool :=
  match fr with
  | Responded res => accepted res
  | Rejected _ => false
  end.

(** The error a refused chunk raises. *)
Definition chunkError (rewrapNetworkError : Error -> string -> Error)
    (fr : FetchResult) : Error :=
  match fr with
  | Responded res => chunkFailed res
  | Rejected e => rewrapNetworkError e "UploadSession PUT chunk"
  end.

(** The service's reply to chunk [i]. *)
Definition replyTo (rm : Remote) (i : nat) : FetchResult :=
  chunkReply rm (chunkStart i).

(** The remote path [uploadOne] writes a file to. *)
Definition uploadTarget (baseFolderPath : string) (stamp : Date) (file : File.t)
    (villageValue : string) : string :=
  stripLeadingSlashes
    (trimSlashes baseFolderPath +:+ "/" +:+
     (JS.ofZ (getFullYear stamp) +:+ "/" +:+
      JS.padStart2 (JS.ofN (getMonth stamp + 1))) +:+ "/" +:+
     buildTargetFileName file villageValue stamp).

Definition isPutContent (c : Call) : bool :=
  match c with PUT_CONTENT _ _ => true | _ => false end.

(** A service that answers every chunk with the given status. *)
Definition fixedStatusRemote (code : N) : Remote :=
  {| now := fun _ => demoStamp;
     columnsOf := fun _ => [];
     listError := fun _ => None;
     webUrlOf := fun a => Some ("https://contoso.sharepoint.com" +:+ a);
     uploadUrlOf := fun a => "https://upload.example" +:+ a;
     chunkReply := fun _ =>
       Responded {| status := code; statusText := ""; text := Some "body" |};
     notFound := fun _ => {| message := "itemNotFound" |};
     badRequest := fun _ => {| message := "invalidRequest" |} |}.

(** The key a resolved column contributes to the payload. *)
Definition optKey (v : option string) : gset string :=
  match v with Some n => {[ n ]} | None => ∅ end.

(** A listing and a filled-in form for the examples. *)
Definition demoColumns : list Col.t :=
  [textColumn "Title" "Title" false false;
   textColumn "Village" "Village" false false;
   textColumn "Author" "Notes" true false;
   textColumn "PhotoUrl" "Photo URL" false false].

Definition demoForm : Form :=
  {| title := "Roof leak"; village := "Hillsborough"; notes := "North wing";
     capturedOn := "2024-01-05T13:07";
     files := [{| File.name := Some "hall.jpg"; File.size := 1024 |}] |}.

(** A run of the code unit [x]. *)
Definition allChar (x : ascii) (l : list ascii) : Prop := Forall (fun c => c = x) l.

(** Nothing, or the one code unit [x]. *)
Definition optionalChar (x : ascii) (l : list ascii) : Prop := l = [] ∨ l = [x].

(** Exactly [n] hexadecimal digits. *)
Definition hexGroup (n : nat) (l : list ascii) : Prop :=
  length l = n ∧ Forall (fun c => isHex c = true) l.

(** The strings the pattern of [isGuid] describes: 8, 4, 4, 4 and 12
    hexadecimal digits, each hyphen and each brace optional on its own. *)
Definition guidShape (s : string) : Prop :=
  ∃ b1 h1 d1 h2 d2 h3 d3 h4 d4 h5 b2,
    JS.chars s = b1 ++ h1 ++ d1 ++ h2 ++ d2 ++ h3 ++ d3 ++ h4 ++ d4 ++ h5 ++ b2 ∧
    optionalChar "{" b1 ∧ hexGroup 8 h1 ∧
    optionalChar "-" d1 ∧ hexGroup 4 h2 ∧
    optionalChar "-" d2 ∧ hexGroup 4 h3 ∧
    optionalChar "-" d3 ∧ hexGroup 4 h4 ∧
    optionalChar "-" d4 ∧ hexGroup 12 h5 ∧
    optionalChar "}" b2.

(** [d] is the first element of [l] that passes the test [f]. *)
Definition firstWith {A} (f : A -> bool) (l : list A) (d : A) : Prop :=
  ∃ pre post, l = pre ++ d :: post ∧ Forall (fun x => f x = false) pre ∧ f d = true.

(** Single quotes come in pairs: the escaped form of a name inside an
    OData string literal. *)
Inductive quotesPaired : list ascii -> Prop :=
| paired_nil : quotesPaired []
| paired_other c l : c ≠ "'"%char -> quotesPaired l -> quotesPaired (c :: l)
| paired_quote l : quotesPaired l -> quotesPaired ("'"%char :: "'"%char :: l).

(** The request [resolveListId] makes for a display name. *)
Definition listsPath (siteId idOrName : string) : string :=
  "/sites/" +:+ siteId +:+ "/lists?$filter=displayName eq '" +:+
  doubleQuotes idOrName +:+ "'".

(** The request [resolveDriveId] makes. *)
Definition drivesPath (siteId : string) : string := "/sites/" +:+ siteId +:+ "/drives".

(** The requests [getSiteId] makes. *)
Definition directSitePath (cfg : Config) : string :=
  "/sites/" +:+ spSiteHostname cfg +:+ ":" +:+ spSitePath cfg.

Definition searchSitePath (cfg : Config) : string :=
  "/sites?search=" +:+
  encodeURIComponent
    (JS.orElse (JS.orElse (lastSegment cfg) (spSitePath cfg)) (spSiteHostname cfg)).

(** A directory for the examples: the direct site lookup fails, the
    search finds three sites, the site has one list and two drives. *)
Definition demoSites : list Site.t :=
  [{| Site.id := "site-1"; Site.webUrl := Some "https://other.example/sites/archive";
      Site.hostname := Some "other.example" |};
   {| Site.id := "site-2"; Site.webUrl := Some "https://other.example/sites/Windows11Upgrade";
      Site.hostname := Some "other.example" |};
   {| Site.id := "site-3";
      Site.webUrl := Some "https://metlifecare.sharepoint.com/sites/windows11upgrade";
      Site.hostname := Some "MetLifeCare.sharepoint.com" |}].

Definition demoDrives : list Drive.t :=
  [{| Drive.id := "drive-1"; Drive.name := Some "Site Assets";
      Drive.driveType := Some "documentLibrary" |};
   {| Drive.id := "drive-2"; Drive.name := Some "Documents";
      Drive.driveType := Some "documentLibrary" |}].

Definition demoDirectory : Directory :=
  {| siteReply := fun _ => Throw {| message := "itemNotFound" |};
     searchReply := fun _ => Ok demoSites;
     listsReply := fun _ => Ok [{| SpList.id := "list-1";
                                   SpList.displayName := Some "W11VillageReconList" |}];
     drivesReply := fun _ => Ok demoDrives |}.

(** A decoder for names without escape sequences. *)
Definition plainDecode (s : string) : Result string := Ok s.


(** What [getSiteId] returns once it has fallen back to the search: the
    error of a failed search, an error when nothing is found, and
    otherwise the first candidate whose address contains the configured
    path and whose host contains the configured host, else the first
    whose address contains the path, else the first candidate. *)
Definition siteDiscovered (rewrapNetworkError : Error -> string -> Error)
    (dir : Directory) (cfg : Config) (r : Result string) : Prop :=
  let both := siteMatchesBoth (JS.toLowerCase (spSitePath cfg))
                              (JS.toLowerCase (spSiteHostname cfg)) in
  let onPath := siteMatchesPath (JS.toLowerCase (spSitePath cfg)) in
  (∀ e, searchReply dir (searchSitePath cfg) = Throw e →
        r = Throw (rewrapNetworkError e (searchSitePath cfg))) ∧
  (searchReply dir (searchSitePath cfg) = Ok [] → ∃ e, r = Throw e) ∧
  (∀ first rest, searchReply dir (searchSitePath cfg) = Ok (first :: rest) →
     ∃ chosen, r = Ok (Site.id chosen) ∧ chosen ∈ first :: rest ∧
       (∀ s, firstWith both (first :: rest) s → chosen = s) ∧
       (Forall (fun s => both s = false) (first :: rest) →
        (∀ s, firstWith onPath (first :: rest) s → chosen = s) ∧
        (Forall (fun s => onPath s = false) (first :: rest) → chosen = first))).



(** The internal names of a listing: the non-empty [name]s. *)
Definition columnNames (cols : list Col.t) : gset string :=
  list_to_set (filter (fun n => JS.truthy n = true)
                 (map (fun c => toStr (Col.name c) "") cols)).


(** The record-creation calls of a trace: address and payload. *)
Definition recordCalls (t : list Call) : list (string * gmap string string) :=
  omap (fun c => match c with
                 | POST p (FieldsBody fields) => Some (p, fields)
                 | _ => None
                 end) t.

(** The two addresses [submit] uses on the list. *)
Definition columnsPath (siteId listId : string) : string :=
  "/sites/" +:+ siteId +:+ "/lists/" +:+ listId +:+ "/columns".

Definition itemsPath (siteId listId : string) : string :=
  "/sites/" +:+ siteId +:+ "/lists/" +:+ listId +:+ "/items".

(** The photo column [submit] resolves on a listing. *)
Definition photoColumn (cols : list Col.t) : option string :=
  chooseField (byLower (getColumns cols)) (metaByName (getColumns cols))
    ["PhotoUrl"; "PhotoUrL"; "Photo URL"; "Photo_Url"] true.



(** No two neighbours of a text are both in the class [p]. *)
Fixpoint noRun (p : ascii -> bool) (l : list ascii) : bool :=
  match l with
  | c :: (d :: _) as l' => negb (p c && p d) && noRun p l'
  | _ => true
  end.


(** A folder name: not empty, without a slash, and without white space
    at its ends. *)
Definition cleanName (seg : string) : Prop :=
  JS.truthy seg = true ∧ ("/"%char ∉ JS.chars seg) ∧ JS.trim seg = seg.

(** The path of a list of folder names. *)
Definition pathOf (segs : list string) : string := String.concat "/" segs.

(** The year and the month folder of a time stamp. *)
Definition yearName (stamp : Date) : string := JS.ofZ (getFullYear stamp).
Definition monthName (stamp : Date) : string :=
  JS.padStart2 (JS.ofN (getMonth stamp + 1)).

(** Neither a slash nor white space. *)
Definition plainChar (c : ascii) : bool :=
  negb (JS.isChar "/" c) && negb (JS.isSpace c).

(** A step that makes no record call. *)
Definition quiet {A} (c : M A) : Prop :=
  ∀ w, ∃ r w' t, c w = (r, w') ∧ calls w' = calls w ++ t ∧ recordCalls t = [].


(** The requests of the two probes of [submit], in the order issued. *)
Definition graphMetaUrl (cfg : Config) : string :=
  dropLastSlash (graphBaseUrl cfg) +:+ "/" +:+ trimSlashes (graphVersion cfg) +:+
  "/$metadata".

Definition probeCalls (cfg : Config) : list Call :=
  FETCH_GET (graphMetaUrl cfg) "cors" ::
  (if JS.truthy (spSiteHostname cfg)
   then [FETCH_GET ("https://" +:+ spSiteHostname cfg +:+ "/_api/v2.1/drive/root")
           "no-cors"]
   else []).


(** * The embedding at work *)

Example builtins_example :
  JS.trim "  Captured On " = "Captured On" ∧
  JS.toLowerCase "Photo_URL" = "photo_url" ∧
  JS.split "/" "a//b/" = ["a"; ""; "b"; ""] ∧
  JS.encodeURI "Village Recon/2024#1" = "Village%20Recon/2024#1" ∧
  trimSlashes "//Photos/2024//" = "Photos/2024" ∧
  JS.padStart2 (JS.ofN 7) = "07".
Proof. repeat split. Qed.

Example getColumns_example :
  let idx := byLower (getColumns [textColumn "Captured_On" "Captured On" false false]) in
  idx !! "captured_on" = Some "Captured_On" ∧
  idx !! "captured on" = Some "Captured_On" ∧
  idx !! "capturedon" = Some "Captured_On" ∧
  idx !! "captured-on" = None.
Proof. vm_compute. repeat split. Qed.

Example buildTargetFileName_example :
  buildTargetFileName {| File.name := Some "IMG 0001 (copy).JPG"; File.size := 1 |}
    " St. John's " demoStamp = "20240105130759_St-John-s_IMG-0001-copy.jpg" ∧
  buildTargetFileName {| File.name := Some ".gitignore"; File.size := 1 |}
    "---" demoStamp = "20240105130759_upload.gitignore".
Proof. vm_compute. split; reflexivity. Qed.

Example photoValue_example :
  JSON.parse (JSON.stringify ["https://contoso/a b.jpg"; "https://contoso/c.jpg"]) =
    Some ["https://contoso/a b.jpg"; "https://contoso/c.jpg"] ∧
  JSON.stringify [] = "[]".
Proof. vm_compute. split; reflexivity. Qed.

Example ensureFolder_example :
  calls (snd (ensureFolder keepError (demoRemote [] 0) "b!drive" "/Photos/"
                demoStamp emptyWorld)) =
    [GET "/drives/b!drive/root:/Photos";
     POST "/drives/b!drive/root/children" (FolderBody "Photos" "replace");
     GET "/drives/b!drive/root:/Photos/2024";
     POST "/drives/b!drive/root:/Photos:/children" (FolderBody "2024" "replace");
     GET "/drives/b!drive/root:/Photos/2024/01";
     POST "/drives/b!drive/root:/Photos/2024:/children" (FolderBody "01" "replace")].
Proof. vm_compute. reflexivity. Qed.

Example uploadOne_example :
  let w :=
    {| items := {[ "/drives/b!drive/root:/Photos";
                   "/drives/b!drive/root:/Photos/2024";
                   "/drives/b!drive/root:/Photos/2024/01" ]};
       session := None; calls := [] |} in
  let target :=
    "/drives/b!drive/root:/Photos/2024/01/20240105130759_Hillsborough_hall.jpg" in
  calls (snd (uploadOne keepError (demoRemote [] 6000000) "b!drive" "Photos"
                {| File.name := Some "hall.JPG"; File.size := 6000000 |}
                "Hillsborough" w)) =
    [GET "/drives/b!drive/root:/Photos";
     GET "/drives/b!drive/root:/Photos/2024";
     GET "/drives/b!drive/root:/Photos/2024/01";
     CREATE_UPLOAD_SESSION (target +:+ ":/createUploadSession") "rename";
     FETCH_PUT ("https://upload.example" +:+ target)
       "5242880" "bytes 0-5242879/6000000" 0 5242880;
     FETCH_PUT ("https://upload.example" +:+ target)
       "757120" "bytes 5242880-5999999/6000000" 5242880 6000000;
     GET target].
Proof. vm_compute. reflexivity. Qed.

Example resolver_example :
  fst (getSiteId keepError demoDirectory CONFIG emptyWorld) = Ok "site-3" ∧
  calls (snd (getSiteId keepError demoDirectory CONFIG emptyWorld)) =
    [GET "/sites/metlifecare.sharepoint.com:/sites/windows11upgrade";
     GET "/sites?search=windows11upgrade"] ∧
  calls (snd (resolveListId keepError demoDirectory "site-3" "Tom's list" emptyWorld)) =
    [GET "/sites/site-3/lists?$filter=displayName eq 'Tom''s list'"] ∧
  resolveListId keepError demoDirectory "site-3"
    "{0F8FAD5B-d9cb-469f-a165-70867728950e}" emptyWorld =
    (Ok "{0F8FAD5B-d9cb-469f-a165-70867728950e}", emptyWorld) ∧
  fst (resolveDriveId keepError plainDecode demoDirectory "site-3" "documents"
         emptyWorld) = Ok "drive-2" ∧
  fst (resolveDriveId keepError plainDecode demoDirectory "site-3" "Photos"
         emptyWorld) = Ok "drive-1".
Proof. vm_compute. repeat split. Qed.

Example utilities_example :
  normalizeRedirectUri (Some "http://localhost:5173") = "http://localhost:5173/" ∧
  normalizeRedirectUri None = "" ∧
  isGuid "0f8fad5bd9cb469fa16570867728950e" = true ∧
  isGuid "W11VillageReconList" = false ∧
  encodeURIComponent "Sites & Teams/1" = "Sites%20%26%20Teams%2F1" ∧
  Net.isNetwork "TypeError: failed to fetch" = true ∧
  Net.isNetwork "itemNotFound" = false ∧
  Net.isNetwork (Net.text {| Net.name := "TypeError"; Net.message := "" |}) = true ∧
  fileKey {| Picked.name := "hall.jpg"; Picked.size := 1024;
             Picked.lastModified := 1704413279000 |} =
    "hall.jpg::1024::1704413279000".
Proof. vm_compute. repeat split. Qed.

Example picker_example :
  let first := {| Picked.name := "hall.jpg"; Picked.size := 1024;
                  Picked.lastModified := 1704413279000 |} in
  let second := {| Picked.name := "gate.jpg"; Picked.size := 2048;
                   Picked.lastModified := 1704413279000 |} in
  (* files as numbered objects; 0 and 1 are two files with the same attributes *)
  let attributes (file : nat) := if (file <=? 1)%nat then first else second in
  onFilesChanged attributes [0%nat] [1%nat; 2%nat; 2%nat] = [0%nat; 2%nat] ∧
  onFilesChanged attributes [] [1%nat; 0%nat] = [1%nat] ∧
  onFilesChanged attributes [0%nat; 2%nat] [] = [0%nat; 2%nat].
Proof. vm_compute. repeat split. Qed.

Example submitHandler_example :
  let run page form :=
    submitHandler keepError (fun v _ => v) plainDecode (demoRemote demoColumns 0)
      demoDirectory CONFIG (fun _ => None) page form emptyWorld in
  let known :=
    {| Resolved.siteId := Some "site"; Resolved.listId := Some "list";
       Resolved.driveId := Some "b!drive" |} in
  let fresh :=
    {| Resolved.siteId := None; Resolved.listId := None; Resolved.driveId := None |} in
  let noFiles :=
    {| title := title demoForm; village := village demoForm; notes := notes demoForm;
       capturedOn := capturedOn demoForm; files := [] |} in
  run {| account := false; msalReady := false; configAccepted := false;
         resolved := fresh |} noFiles =
    (Ok (Alert "Please sign in first."), emptyWorld) ∧
  run {| account := true; msalReady := false; configAccepted := false;
         resolved := fresh |} noFiles =
    (Ok (Alert "Select at least one photo."), emptyWorld) ∧
  run {| account := true; msalReady := false; configAccepted := false;
         resolved := fresh |} demoForm =
    (Ok (Alert "Auth is still initializing. Try again in a moment."), emptyWorld) ∧
  run {| account := true; msalReady := true; configAccepted := false;
         resolved := fresh |} demoForm = (Ok Declined, emptyWorld) ∧
  fst (run {| account := true; msalReady := true; configAccepted := true;
              resolved := known |} demoForm) = Ok Submitted ∧
  take 3 (calls (snd (run {| account := true; msalReady := true;
                             configAccepted := true; resolved := known |} demoForm))) =
    [FETCH_GET "https://graph.microsoft.com/v1.0/$metadata" "cors";
     FETCH_GET "https://metlifecare.sharepoint.com/_api/v2.1/drive/root" "no-cors";
     GET "/sites/site/lists/list/columns"] ∧
  take 4 (calls (snd (run {| account := true; msalReady := true;
                             configAccepted := true; resolved := fresh |} demoForm))) =
    [FETCH_GET "https://graph.microsoft.com/v1.0/$metadata" "cors";
     FETCH_GET "https://metlifecare.sharepoint.com/_api/v2.1/drive/root" "no-cors";
     GET "/sites/metlifecare.sharepoint.com:/sites/windows11upgrade";
     GET "/sites?search=windows11upgrade"] ∧
  dropLastSlash "https://graph.microsoft.com//" = "https://graph.microsoft.com/".
Proof. vm_compute. repeat split. Qed.

(** * Properties of the introspector and the selector *)

Section AliasIndex.

Lemma allTruthy_empty : allTruthy ∅.
Proof. intros k v H. by rewrite lookup_empty in H. Qed.

(** Every inherited member is truthy. *)
Lemma member_truthy k v : Proto.member k = Some v → JS.truthy v = true.
Proof.
  unfold Proto.member. repeat case_bool_decide; intros [= <-]; done.
Qed.

Lemma hasEntry_spec m k :
  allTruthy m → hasEntry m k = true ↔ is_Some (m !! k) ∨ is_Some (Proto.member k).
Proof.
  intros Hm. unfold hasEntry, readProp. destruct (m !! k) as [v|] eqn:E.
  - split; [eauto | intros _; eauto].
  - destruct (Proto.member k) as [v|] eqn:Ev.
    + split; [eauto | intros _; by eapply member_truthy].
    + split; [done | by intros [[? ?]|[? ?]]].
Qed.

(** On an empty index [register] stores the normal form of the key,
    unless it is empty or the name of an inherited member. *)
Lemma register_empty key n :
  register key n ∅ =
    if JS.truthy (normalize key) && negb (inherits (normalize key))
    then {[ normalize key := n ]} else ∅.
Proof.
  unfold register, hasEntry, readProp, inherits. fold (normalize key).
  destruct (JS.truthy (normalize key)); simpl; [|done].
  rewrite lookup_empty.
  destruct (Proto.member (normalize key)) as [v|] eqn:Ev; simpl.
  - by rewrite (member_truthy _ _ Ev).
  - done.
Qed.

Lemma register_union key n m :
  allTruthy m → register key n m = m ∪ register key n ∅.
Proof.
  intros Hm. rewrite register_empty. unfold register. fold (normalize key).
  destruct (JS.truthy (normalize key)); simpl.
  - destruct (hasEntry m (normalize key)) eqn:E.
    + apply hasEntry_spec in E as [[v Hv]|Hv]; [| |done].
      * destruct (inherits (normalize key)); simpl;
          [by rewrite (right_id_L ∅ (∪))|].
        apply map_eq. intros i. rewrite lookup_union.
        destruct (decide (i = normalize key)) as [->|Hne].
        -- rewrite Hv. by rewrite lookup_singleton_eq.
        -- rewrite lookup_singleton_ne by done. by destruct (m !! i).
      * unfold inherits. destruct (Proto.member (normalize key)); [|by destruct Hv].
        simpl. by rewrite (right_id_L ∅ (∪)).
    + assert (¬ (is_Some (m !! normalize key) ∨ is_Some (Proto.member (normalize key))))
        as Hno.
      { intros H. apply hasEntry_spec in H; [|done]. congruence. }
      assert (inherits (normalize key) = false) as ->.
      { unfold inherits. destruct (Proto.member (normalize key)); [|done].
        exfalso. apply Hno. right. eauto. }
      simpl. apply insert_union_singleton_r.
      destruct (m !! normalize key) as [v|] eqn:Hv; [|done].
      exfalso. apply Hno. left. eauto.
  - by rewrite (right_id_L ∅ (∪)).
Qed.

Lemma register_truthy key n m :
  JS.truthy n = true → allTruthy m → allTruthy (register key n m).
Proof.
  intros Hn Hm. unfold register.
  destruct (JS.truthy (JS.toLowerCase (JS.trim key))); simpl; [|done].
  destruct (hasEntry _ _); [done|].
  intros k v. rewrite lookup_insert. case_decide; [naive_solver | apply Hm].
Qed.

Lemma registerAll_truthy keys n m :
  JS.truthy n = true → allTruthy m → allTruthy (registerAll keys n m).
Proof.
  intros Hn. revert m. induction keys as [|k ks IH]; intros m Hm; [done|].
  apply IH. by apply register_truthy.
Qed.

Lemma registerAll_union keys n m :
  JS.truthy n = true → allTruthy m →
  registerAll keys n m = m ∪ registerAll keys n ∅.
Proof.
  intros Hn. revert m. induction keys as [|k ks IH]; intros m Hm; simpl.
  - by rewrite (right_id_L ∅ (∪)).
  - rewrite IH by (by apply register_truthy).
    rewrite (IH (register k n ∅))
      by (apply register_truthy; [done | apply allTruthy_empty]).
    rewrite (register_union k n m) by done.
    by rewrite (assoc_L (∪)).
Qed.

Lemma columnStep_byLower acc c :
  byLower (columnStep acc c) =
    if JS.truthy (toStr (Col.name c) "")
    then registerAll (aliasForms c) (toStr (Col.name c) "") (byLower acc)
    else byLower acc.
Proof.
  unfold columnStep, aliasForms.
  destruct (JS.truthy (toStr (Col.name c) "")); simpl; [|done].
  destruct (JS.truthy (toStr (Col.displayName c) ""));
    destruct (Col.hyperlinkOrPicture c), (Col.text c), (Col.number c),
      (Col.dateTime c), (Col.boolean c), (Col.choice c), (Col.multiChoice c),
      (Col.lookup c); reflexivity.
Qed.

Lemma columnStep_truthy acc c :
  allTruthy (byLower acc) → allTruthy (byLower (columnStep acc c)).
Proof.
  intros Hm. rewrite columnStep_byLower.
  destruct (JS.truthy _) eqn:E; [|done]. by apply registerAll_truthy.
Qed.

Lemma columnStep_union acc c :
  allTruthy (byLower acc) →
  byLower (columnStep acc c) = byLower acc ∪ byLower (columnStep emptyColumns c).
Proof.
  intros Hm. rewrite !columnStep_byLower.
  change (byLower emptyColumns) with (∅ : gmap string string).
  destruct (JS.truthy _) eqn:E.
  - by apply registerAll_union.
  - by rewrite (right_id_L ∅ (∪)).
Qed.

Lemma fold_columns_truthy cols acc :
  allTruthy (byLower acc) → allTruthy (byLower (fold_left columnStep cols acc)).
Proof.
  revert acc. induction cols as [|c cols IH]; intros acc Hm; [done|].
  apply IH. by apply columnStep_truthy.
Qed.

Lemma fold_columns_union cols acc :
  allTruthy (byLower acc) →
  byLower (fold_left columnStep cols acc) = byLower acc ∪ byLower (getColumns cols).
Proof.
  unfold getColumns. revert acc.
  induction cols as [|c cols IH]; intros acc Hm; simpl.
  - by rewrite (right_id_L ∅ (∪)).
  - rewrite IH by (by apply columnStep_truthy).
    rewrite (IH (columnStep emptyColumns c))
      by (apply columnStep_truthy, allTruthy_empty).
    rewrite (columnStep_union acc c) by done.
    by rewrite (assoc_L (∪)).
Qed.

Lemma getColumns_truthy cols : allTruthy (byLower (getColumns cols)).
Proof. apply fold_columns_truthy, allTruthy_empty. Qed.

(** The index of a listing is the left-biased union of the indexes of
    its parts: earlier columns take precedence. *)
Lemma getColumns_app cols1 cols2 :
  byLower (getColumns (cols1 ++ cols2)) =
    byLower (getColumns cols1) ∪ byLower (getColumns cols2).
Proof.
  unfold getColumns at 1. rewrite fold_left_app.
  apply fold_columns_union, getColumns_truthy.
Qed.

Lemma getColumns_cons c cols :
  byLower (getColumns (c :: cols)) =
    byLower (getColumns [c]) ∪ byLower (getColumns cols).
Proof. apply (getColumns_app [c] cols). Qed.

Lemma getColumns_none cols k :
  (∀ c, c ∈ cols → byLower (getColumns [c]) !! k = None) →
  byLower (getColumns cols) !! k = None.
Proof.
  induction cols as [|c cols IH]; intros H.
  - apply lookup_empty.
  - rewrite getColumns_cons, lookup_union_None. split.
    + apply H. left.
    + apply IH. intros c' Hc'. apply H. by right.
Qed.

Lemma registerAll_values keys n m k v :
  registerAll keys n m !! k = Some v → m !! k = Some v ∨ v = n.
Proof.
  revert m. induction keys as [|key ks IH]; intros m H; simpl in H; [by left|].
  apply IH in H as [H| ->]; [|by right].
  unfold register in H.
  destruct (JS.truthy _); simpl in H; [|by left].
  destruct (hasEntry _ _); [by left|].
  rewrite lookup_insert in H. case_decide; [right; congruence | by left].
Qed.

(** Whatever a single column registers maps to its own internal name. *)
Lemma single_column_value c k v :
  byLower (getColumns [c]) !! k = Some v →
  Col.name c = Some v ∧ JS.truthy v = true.
Proof.
  unfold getColumns. cbn [fold_left]. rewrite columnStep_byLower.
  change (byLower emptyColumns) with (∅ : gmap string string).
  destruct (JS.truthy (toStr (Col.name c) "")) eqn:E.
  - intros H. apply registerAll_values in H as [H| ->].
    + by rewrite lookup_empty in H.
    + split; [|done]. destruct (Col.name c); [done | discriminate].
  - by rewrite lookup_empty.
Qed.

End AliasIndex.

Section AliasResolution.

Lemma register_keeps_entry key n m k :
  allTruthy m → is_Some (m !! k) → register key n m !! k = m !! k.
Proof.
  intros Hm [v Hv]. rewrite register_union, lookup_union, Hv by done.
  by destruct (register key n ∅ !! k).
Qed.

Lemma registerAll_keeps_entry keys n m k :
  JS.truthy n = true → allTruthy m → is_Some (m !! k) →
  registerAll keys n m !! k = m !! k.
Proof.
  intros Hn Hm [v Hv]. rewrite registerAll_union, lookup_union, Hv by done.
  by destruct (registerAll keys n ∅ !! k).
Qed.

Lemma registerAll_has keys n m key :
  JS.truthy n = true → allTruthy m →
  key ∈ keys → JS.truthy (normalize key) = true →
  inherits (normalize key) = false →
  is_Some (registerAll keys n m !! normalize key).
Proof.
  intros Hn. revert m.
  induction keys as [|k ks IH]; intros m Hm Hin Hk Hown;
    [by apply elem_of_nil in Hin|].
  apply elem_of_cons in Hin as [->|Hin].
  - cbn [registerAll fold_left]. fold (registerAll ks n (register k n m)).
    assert (is_Some (register k n m !! normalize k)) as Hs.
    { rewrite register_union, register_empty, Hk, Hown, lookup_union by done.
      cbn [andb negb].
      rewrite lookup_singleton_eq. destruct (m !! normalize k); eauto. }
    rewrite registerAll_keeps_entry; auto using register_truthy.
  - apply (IH (register k n m)); auto using register_truthy.
Qed.

(** Each form a column registers is found under its normalized key, when
    that key is not the name of an inherited member. *)
Lemma single_column_has c n form :
  Col.name c = Some n → JS.truthy n = true →
  form ∈ aliasForms c → JS.truthy (normalize form) = true →
  inherits (normalize form) = false →
  byLower (getColumns [c]) !! normalize form = Some n.
Proof.
  intros Hc Hn Hin Hk Hown.
  assert (is_Some (byLower (getColumns [c]) !! normalize form)) as [v Hv].
  { unfold getColumns. cbn [fold_left]. rewrite columnStep_byLower.
    change (byLower emptyColumns) with (∅ : gmap string string).
    rewrite Hc. cbn [toStr]. rewrite Hn.
    apply registerAll_has; auto using allTruthy_empty. }
  rewrite Hv. apply single_column_value in Hv as [Hv _]. congruence.
Qed.

Lemma first_owner pre c post k n :
  (∀ c', c' ∈ pre → byLower (getColumns [c']) !! k = None) →
  byLower (getColumns [c]) !! k = Some n →
  byLower (getColumns (pre ++ c :: post)) !! k = Some n.
Proof.
  intros Hpre Hc.
  rewrite getColumns_app, getColumns_cons, !lookup_union.
  rewrite (getColumns_none pre k Hpre), Hc.
  by destruct (byLower (getColumns post) !! k).
Qed.

Lemma hasEntry_false m k :
  allTruthy m → hasEntry m k = false → m !! k = None ∧ inherits k = false.
Proof.
  intros Hm H. apply not_true_iff_false in H.
  rewrite hasEntry_spec in H by done. unfold inherits. split.
  - destruct (m !! k) eqn:E; [|done]. exfalso. apply H. left. eauto.
  - destruct (Proto.member k) eqn:E; [|done]. exfalso. apply H. right. eauto.
Qed.

(** Whatever [register] calls store was stored under the normal form of
    one of the keys, non-empty and not the name of an inherited member. *)
Lemma registerAll_origin keys n m k v :
  JS.truthy n = true → allTruthy m →
  registerAll keys n m !! k = Some v →
  m !! k = Some v ∨
  (v = n ∧ JS.truthy k = true ∧ inherits k = false ∧
   ∃ key, key ∈ keys ∧ k = normalize key).
Proof.
  intros Hn. revert m.
  induction keys as [|key ks IH]; intros m Hm H; simpl in H; [by left|].
  pose proof (register_truthy key n m Hn Hm) as Hm'.
  destruct (IH _ Hm' H) as [H'|(-> & Hk & Hown & key' & Hin & Hkey)];
    clear H; [rename H' into H|].
  - unfold register in H. fold (normalize key) in H.
    destruct (JS.truthy (normalize key)) eqn:Ht; simpl in H; [|by left].
    destruct (hasEntry m (normalize key)) eqn:He; [by left|].
    apply hasEntry_false in He as [_ He]; [|done].
    rewrite lookup_insert in H. case_decide as Hk; [|by left].
    injection H as <-. right. subst k. split; [done|]. split; [done|].
    split; [done|]. exists key. split; [left | done].
  - right. split; [done|]. split; [done|]. split; [done|].
    exists key'. split; [by right | done].
Qed.

Lemma single_column_origin c k v :
  byLower (getColumns [c]) !! k = Some v →
  JS.truthy k = true ∧ inherits k = false ∧
  ∃ form, form ∈ aliasForms c ∧ k = normalize form.
Proof.
  unfold getColumns. cbn [fold_left]. rewrite columnStep_byLower.
  change (byLower emptyColumns) with (∅ : gmap string string).
  destruct (JS.truthy (toStr (Col.name c) "")) eqn:E.
  - intros H.
    destruct (registerAll_origin _ _ _ _ _ E allTruthy_empty H)
      as [H'|(_ & Hk & Hown & Hform)].
    + by rewrite lookup_empty in H'.
    + done.
  - by rewrite lookup_empty.
Qed.

(** One column alone: its index holds [n] under [k] exactly when the
    column registers [k] for [n] and [k] names no inherited member. *)
Lemma single_column_iff c k n :
  byLower (getColumns [c]) !! k = Some n ↔ registers c k n ∧ inherits k = false.
Proof.
  split.
  - intros H. destruct (single_column_value _ _ _ H) as [Hn Ht].
    destruct (single_column_origin _ _ _ H) as (Hk & Hown & Hform).
    by repeat split.
  - intros [(Hn & Ht & Hk & form & Hin & ->) Hown].
    by apply single_column_has.
Qed.

Lemma single_column_none c k :
  inherits k = false →
  byLower (getColumns [c]) !! k = None ↔ ∀ n, ¬ registers c k n.
Proof.
  intros Hown. split.
  - intros H n Hr. assert (byLower (getColumns [c]) !! k = Some n) as H'
      by by apply single_column_iff.
    congruence.
  - intros H. destruct (byLower (getColumns [c]) !! k) as [n|] eqn:E; [|done].
    apply single_column_iff in E as [Hr _]. by apply H in Hr.
Qed.

(** The index of a listing holds, under a key, what the first column
    that registers the key registers. *)
Lemma index_iff cols k n :
  byLower (getColumns cols) !! k = Some n ↔
  ∃ pre c post,
    cols = pre ++ c :: post ∧
    byLower (getColumns [c]) !! k = Some n ∧
    ∀ c', c' ∈ pre → byLower (getColumns [c']) !! k = None.
Proof.
  split.
  - induction cols as [|c cols IH].
    { change (byLower (getColumns [])) with (∅ : gmap string string).
      by rewrite lookup_empty. }
    rewrite getColumns_cons, lookup_union_Some_raw.
    intros [H|[Hnone H]].
    + exists [], c, cols. split; [done|]. split; [done|].
      by intros c' ?%elem_of_nil.
    + destruct (IH H) as (pre & c0 & post & -> & Hc0 & Hpre).
      exists (c :: pre), c0, post. split; [done|]. split; [done|].
      intros c' [->|Hin]%elem_of_cons; [done | by apply Hpre].
  - intros (pre & c & post & -> & Hc & Hpre). by apply first_owner.
Qed.

Lemma index_origin cols k v :
  byLower (getColumns cols) !! k = Some v →
  ∃ c form, c ∈ cols ∧ Col.name c = Some v ∧ JS.truthy v = true ∧
            form ∈ aliasForms c ∧ k = normalize form ∧ JS.truthy k = true ∧
            inherits k = false.
Proof.
  intros (pre & c & post & -> & Hc & _)%index_iff.
  destruct (single_column_value _ _ _ Hc) as [Hn Ht].
  destruct (single_column_origin _ _ _ Hc) as (Hk & Hown & form & Hf & Hkf).
  exists c, form. split; [apply elem_of_app; right; left|]. done.
Qed.

(** The read of the index at a key that names no inherited member is the
    own property. *)
Lemma readProp_own m k : inherits k = false → readProp m k = m !! k.
Proof.
  unfold inherits, readProp. destruct (m !! k); [done|].
  by destruct (Proto.member k).
Qed.

End AliasResolution.




(** C4 fails for a key that names a member inherited from
    [Object.prototype]: of two columns with the display names
    "Constructor" and "constructor" neither is registered under
    "constructor", because the test [byLower[normalized]] of [register]
    finds the inherited member; the lookup of that key yields the
    member, not the internal name of the first column.  Their other keys
    are registered as usual. *)
Lemma inherited_key_blocks_registration :
  let first := textColumn "Builder" "Constructor" false false in
  let second := textColumn "Maker" "constructor" true false in
  let idx := byLower (getColumns [first; second]) in
  registers first "constructor" "Builder" ∧
  registers second "constructor" "Maker" ∧
  hasEntry ∅ "constructor" = true ∧
  idx !! "constructor" = None ∧
  lookupAlias idx "constructor" = Some "function Object() { [native code] }" ∧
  idx !! "builder" = Some "Builder" ∧
  idx !! "maker" = Some "Maker".
Proof.
  cbv zeta. split; [|split].
  - split; [done|]. split; [done|]. split; [done|].
    exists "Constructor". split; [|done]. apply list_elem_of_In. vm_compute. tauto.
  - split; [done|]. split; [done|]. split; [done|].
    exists "constructor". split; [|done]. apply list_elem_of_In. vm_compute. tauto.
  - split; [done|]. repeat split; vm_compute; reflexivity.
Qed.

(** ** Field selector *)

Lemma chooseField_cons byLower metaByName cand rest rw :
  chooseField byLower metaByName (cand :: rest) rw =
    match usable byLower metaByName rw cand with
    | Some hit => Some hit
    | None => chooseField byLower metaByName rest rw
    end.
Proof.
  unfold usable. cbn [chooseField].
  destruct (lookupAlias byLower cand) as [hit|]; [|done].
  destruct (negb (JS.truthy hit)); [done|].
  destruct (rw && readOnly _); [done|].
  by destruct (hidden _).
Qed.

Lemma usable_spec byLower metaByName rw cand hit :
  usable byLower metaByName rw cand = Some hit →
  lookupAlias byLower cand = Some hit ∧ JS.truthy hit = true ∧
  (∀ m, metaByName !! hit = Some m →
        hidden m = false ∧ (rw = true → readOnly m = false)).
Proof.
  unfold usable. cbn [chooseField].
  destruct (lookupAlias byLower cand) as [h|]; [|done].
  destruct (JS.truthy h) eqn:Ht; cbn [negb]; [|done].
  destruct (rw && readOnly _) eqn:Hrw; [done|].
  destruct (hidden _) eqn:Hh; [done|].
  intros [= ->]. split; [done|]. split; [done|].
  intros m Hm. rewrite Hm in Hrw, Hh. cbn [default] in Hrw, Hh.
  split; [done|]. by intros ->.
Qed.


(** * The photo value round trip *)

Section PhotoValue.

Lemma chars_str l : JS.chars (JS.str l) = l.
Proof. apply list_ascii_of_string_of_list_ascii. Qed.

Lemma str_chars s : JS.str (JS.chars s) = s.
Proof. apply string_of_list_ascii_of_string. Qed.

(** Reading back what [escapeChar] wrote yields the code unit. *)
Lemma parse_escapeChar c acc out tail :
  JSON.parseGo (JSON.InString acc) out (JSON.escapeChar c ++ tail) =
  JSON.parseGo (JSON.InString (c :: acc)) out tail.
Proof. destruct c as [[] [] [] [] [] [] [] []]; reflexivity. Qed.

Lemma parse_body s acc out tail :
  JSON.parseGo (JSON.InString acc) out
    (flat_map JSON.escapeChar s ++ JSON.dquote :: tail) =
  JSON.parseGo JSON.AfterItem (JS.str (rev acc ++ s) :: out) tail.
Proof.
  revert acc. induction s as [|c s IH]; intros acc.
  - rewrite app_nil_r. reflexivity.
  - cbn [flat_map]. rewrite <- app_assoc, parse_escapeChar, IH.
    cbn [rev]. by rewrite <- app_assoc.
Qed.

Lemma parse_quote st x out tail :
  st = JSON.First ∨ st = JSON.Next →
  JSON.parseGo st out (JSON.quote x ++ tail) =
  JSON.parseGo JSON.AfterItem (x :: out) tail.
Proof.
  intros Hst. unfold JSON.quote.
  assert (JSON.parseGo st out
            ((JSON.dquote :: flat_map JSON.escapeChar (JS.chars x) ++ [JSON.dquote]) ++ tail) =
          JSON.parseGo (JSON.InString []) out
            (flat_map JSON.escapeChar (JS.chars x) ++ JSON.dquote :: tail)) as ->.
  { rewrite <- app_comm_cons, <- app_assoc. by destruct Hst as [-> | ->]. }
  rewrite parse_body. cbn [rev app]. by rewrite str_chars.
Qed.

Lemma parse_rest xs out :
  JSON.parseGo JSON.AfterItem out
    (flat_map (fun y => ","%char :: JSON.quote y) xs ++ ["]"%char]) =
  Some (rev out ++ xs).
Proof.
  revert out. induction xs as [|x xs IH]; intros out.
  - cbn. by rewrite app_nil_r.
  - cbn [flat_map]. rewrite <- app_assoc, <- app_comm_cons.
    change (JSON.parseGo JSON.AfterItem out
              (","%char :: JSON.quote x ++ ?t))
      with (JSON.parseGo JSON.Next out (JSON.quote x ++ t)).
    rewrite parse_quote by auto. rewrite IH. cbn [rev].
    by rewrite <- app_assoc.
Qed.

Lemma parse_stringify xs : JSON.parse (JSON.stringify xs) = Some xs.
Proof.
  unfold JSON.parse, JSON.stringify. rewrite chars_str.
  change (JSON.parseGo JSON.Start [] ("["%char :: ?t))
    with (JSON.parseGo JSON.First [] t).
  destruct xs as [|x xs]; [reflexivity|].
  unfold JSON.items. rewrite <- app_assoc, parse_quote by auto.
  apply parse_rest.
Qed.

End PhotoValue.

(** C9: for a column of kind [hyperlinkOrPicture] the photo value is the
    first URL (the empty string when there is none); for every other kind
    it is a JSON text that parses back to the same list of URLs, in the
    same order. *)
Theorem formatPhotoValue_roundtrip (typeByName : gmap string string)
    (fieldName : string) (urls : list string) :
  (typeByName !! fieldName = Some "hyperlinkOrPicture" →
   formatPhotoValue typeByName fieldName urls = hd "" urls) ∧
  (typeByName !! fieldName ≠ Some "hyperlinkOrPicture" →
   formatPhotoValue typeByName fieldName urls = JSON.stringify urls ∧
   JSON.parse (formatPhotoValue typeByName fieldName urls) = Some urls).
Proof.
  unfold formatPhotoValue. split; intros H.
  - rewrite bool_decide_eq_true_2 by done.
    destruct urls as [|u urls]; [reflexivity|].
    cbn [nth hd]. unfold JS.orElse. by destruct u.
  - rewrite bool_decide_eq_false_2 by done.
    split; [reflexivity | apply parse_stringify].
Qed.

Lemma formatPhotoValue_roundtrip_witness :
  formatPhotoValue {[ "PhotoUrl" := "hyperlinkOrPicture" ]} "PhotoUrl"
    ["https://contoso/img-a.jpg"; "https://contoso/img-b.jpg"] =
    "https://contoso/img-a.jpg" ∧
  JSON.parse (formatPhotoValue {[ "PhotoUrl" := "text" ]} "PhotoUrl"
    ["https://contoso/img-a.jpg"; "https://contoso/img-b.jpg"]) =
    Some ["https://contoso/img-a.jpg"; "https://contoso/img-b.jpg"].
Proof.
  split.
  - apply (proj1 (formatPhotoValue_roundtrip
                    {[ "PhotoUrl" := "hyperlinkOrPicture" ]} "PhotoUrl"
                    ["https://contoso/img-a.jpg"; "https://contoso/img-b.jpg"])).
    vm_compute. reflexivity.
  - apply (proj2 (formatPhotoValue_roundtrip
                    {[ "PhotoUrl" := "text" ]} "PhotoUrl"
                    ["https://contoso/img-a.jpg"; "https://contoso/img-b.jpg"])).
    vm_compute. discriminate.
Defined.

(** * The target file name *)

Section FileName.

Lemma chars_app a b : JS.chars (a +:+ b) = JS.chars a ++ JS.chars b.
Proof. induction a as [|c a IH]; [done|]. cbn. by rewrite <- IH. Qed.

Lemma chars_onChars f s : JS.chars (JS.onChars f s) = f (JS.chars s).
Proof. apply chars_str. Qed.

Lemma length_chars s : length (JS.chars s) = String.length s.
Proof. induction s as [|c s IH]; [done|]. cbn. by rewrite IH. Qed.

Lemma isChar_eq x c : JS.isChar x c = true ↔ c = x.
Proof.
  unfold JS.isChar, JS.code. rewrite N.eqb_eq. split; [|by intros ->].
  intros H. by rewrite <- (ascii_N_embedding c), H, ascii_N_embedding.
Qed.

Lemma collapseGo_Forall (P : ascii → Prop) p r b l :
  P r → Forall P (filter (fun c => p c = false) l) →
  Forall P (JS.collapseGo p r b l).
Proof.
  intros Hr. revert b. induction l as [|c l IH]; intros b Hl; [constructor|].
  cbn [JS.collapseGo]. rewrite filter_cons in Hl.
  destruct (p c) eqn:Hc.
  - rewrite decide_False in Hl by done.
    destruct b; [by apply IH | constructor; [done | by apply IH]].
  - rewrite decide_True in Hl by done.
    apply Forall_cons in Hl as [? ?]. constructor; [done | by apply IH].
Qed.

Lemma dropWhile_suffix p l : JS.dropWhile p l `suffix_of` l.
Proof.
  induction l as [|c l IH]; [done|]. cbn.
  destruct (p c); [by apply suffix_cons_r | done].
Qed.

Lemma dropWhile_head p l c l' : JS.dropWhile p l = c :: l' → p c = false.
Proof.
  induction l as [|x l IH]; [done|]. cbn.
  destruct (p x) eqn:Hx; [done|]. by intros [= <- _].
Qed.

Lemma dropWhile_keep_last p l c :
  p c = false → ∃ l2, JS.dropWhile p (l ++ [c]) = l2 ++ [c].
Proof.
  intros Hc. induction l as [|x l [l2 IH]]; cbn.
  - rewrite Hc. by exists [].
  - destruct (p x); [by exists l2 | by exists (x :: l)].
Qed.

Lemma dropWhileEnd_prefix p l : JS.dropWhileEnd p l `prefix_of` l.
Proof.
  unfold JS.dropWhileEnd.
  destruct (dropWhile_suffix p (rev l)) as [k Hk].
  exists (rev k). apply (f_equal (@rev ascii)) in Hk.
  by rewrite rev_involutive, rev_app_distr in Hk.
Qed.

Lemma dropWhileEnd_head p c l :
  p c = false → ∃ l2, JS.dropWhileEnd p (c :: l) = c :: l2.
Proof.
  intros Hc. unfold JS.dropWhileEnd. cbn [rev].
  destruct (dropWhile_keep_last p (rev l) c Hc) as [l2 ->].
  exists (rev l2). by rewrite rev_app_distr.
Qed.

Lemma stripEnds_elem p l c : c ∈ JS.stripEnds p l → c ∈ l.
Proof.
  unfold JS.stripEnds. intros Hc.
  destruct (dropWhileEnd_prefix p (JS.dropWhile p l)) as [k1 H1].
  destruct (dropWhile_suffix p l) as [k2 H2].
  rewrite H2, H1, !elem_of_app. auto.
Qed.

Lemma stripEnds_head p l c l' : JS.stripEnds p l = c :: l' → p c = false.
Proof.
  unfold JS.stripEnds.
  destruct (JS.dropWhile p l) as [|x k] eqn:Hd; [done|].
  pose proof (dropWhile_head _ _ _ _ Hd) as Hx.
  destruct (dropWhileEnd_head p x k Hx) as [l2 ->]. by intros [= <- _].
Qed.

Lemma sanitize_chars segment :
  JS.chars (sanitize segment) =
    take 60 (JS.stripEnds isHyphen
      (JS.collapseRuns isHyphen "-"
         (JS.collapseRuns (fun c => negb (JS.isAlnum c)) "-"
            (JS.chars (JS.trim segment))))).
Proof. unfold sanitize, JS.sliceTo. by rewrite !chars_onChars. Qed.

Lemma sanitize_clean segment : cleanSegment (sanitize segment).
Proof.
  unfold cleanSegment. rewrite <- length_chars, sanitize_chars.
  set (l0 := JS.chars (JS.trim segment)).
  set (P := fun c => JS.isAlnum c = true ∨ c = "-"%char).
  assert (Forall P (JS.collapseRuns (fun c => negb (JS.isAlnum c)) "-" l0)) as H1.
  { apply collapseGo_Forall; [by right|].
    apply Forall_forall. intros c [Hc _]%list_elem_of_filter.
    left. by apply negb_false_iff. }
  assert (Forall P (JS.collapseRuns isHyphen "-"
            (JS.collapseRuns (fun c => negb (JS.isAlnum c)) "-" l0))) as H2.
  { apply collapseGo_Forall; [by right|].
    apply Forall_forall. intros c [_ Hc]%list_elem_of_filter.
    by eapply Forall_forall in H1. }
  set (l3 := JS.stripEnds isHyphen _) in *.
  assert (Forall P l3) as H3.
  { apply Forall_forall. intros c Hc%stripEnds_elem.
    by eapply Forall_forall in H2. }
  split; [|split].
  - by apply Forall_take.
  - rewrite length_take. lia.
  - intros c rest Ht.
    destruct l3 as [|x l3'] eqn:E3; [done|].
    cbn in Ht. injection Ht as <- _.
    apply stripEnds_head in E3. intros ->. by vm_compute in E3.
Qed.

End FileName.

Section Timestamp.

Lemma digitsN_app a b s1 s2 :
  digitsN a s1 = true → digitsN b s2 = true →
  digitsN (a + b) (s1 +:+ s2) = true.
Proof.
  unfold digitsN. rewrite !andb_true_iff, !Nat.eqb_eq.
  intros [Ha Hd1] [Hb Hd2].
  rewrite <- length_chars, chars_app, forallb_app, length_app, !length_chars.
  rewrite Hd1, Hd2. split; [lia | done].
Qed.

Lemma year_digits y : (1000 ≤ y ≤ 9999)%Z → digitsN 4 (JS.ofZ y) = true.
Proof.
  intros Hy.
  assert (forallb (fun k => digitsN 4 (JS.ofZ (1000 + Z.of_nat k)))
            (seq 0 (Z.to_nat 9000)) = true) as H by (vm_compute; reflexivity).
  rewrite forallb_forall in H. specialize (H (Z.to_nat (y - 1000))).
  replace (1000 + Z.of_nat (Z.to_nat (y - 1000)))%Z with y in H by lia.
  apply H, in_seq. lia.
Qed.

Lemma pad2_digits n : n ≤ 99 → digitsN 2 (JS.padStart2 (JS.ofN n)) = true.
Proof.
  intros Hn.
  assert (forallb (fun k => digitsN 2 (JS.padStart2 (JS.ofN (N.of_nat k))))
            (seq 0 100) = true) as H by (vm_compute; reflexivity).
  rewrite forallb_forall in H. specialize (H (N.to_nat n)).
  rewrite N2Nat.id in H. apply H, in_seq. lia.
Qed.

Lemma compactTimestamp_digits stamp :
  fourDigitYear stamp → digitsN 14 (compactTimestamp stamp) = true.
Proof.
  intros (Hy & Hmo & Hd & Hh & Hmi & Hs). unfold compactTimestamp.
  apply (digitsN_app 4 10); [by apply year_digits|].
  apply (digitsN_app 2 8); [apply pad2_digits; lia|].
  apply (digitsN_app 2 6); [apply pad2_digits; lia|].
  apply (digitsN_app 2 4); [apply pad2_digits; lia|].
  apply (digitsN_app 2 2); apply pad2_digits; lia.
Qed.

Lemma filter_truthy_pair a b :
  filter (fun p => JS.truthy p = true) [a; b] =
    match JS.truthy a, JS.truthy b with
    | true, true => [a; b]
    | true, false => [a]
    | false, true => [b]
    | false, false => []
    end.
Proof.
  rewrite !filter_cons, filter_nil.
  destruct (JS.truthy a), (JS.truthy b); repeat case_decide; done.
Qed.

Lemma lowerChar_not_upper c : JS.isUpper (JS.lowerChar c) = false.
Proof. destruct c as [[] [] [] [] [] [] [] []]; reflexivity. Qed.

End Timestamp.

(** C10, as stated, fails on two counts.  The year is written without
    padding, so a [Date] in the year 999 gives a 13-digit stamp; and the
    cut at 60 code units comes after the hyphens at the ends were removed,
    so a segment can end in a hyphen. *)
Lemma buildTargetFileName_counterexample :
  let file := {| File.name :=
      Some "Village hall roof damage photographed after the great storm survey.jpg";
      File.size := 1 |} in
  let stamp := {| getFullYear := 999; getMonth := 0; getDate := 1;
                  getHours := 0; getMinutes := 0; getSeconds := 0 |} in
  buildTargetFileName file "" stamp =
    "9990101000000_Village-hall-roof-damage-photographed-after-the-great-storm-.jpg" ∧
  sanitize "Village hall roof damage photographed after the great storm survey" =
    "Village-hall-roof-damage-photographed-after-the-great-storm-" ∧
  digitsN 14 (JS.sliceTo 14 (buildTargetFileName file "" stamp)) = false.
Proof. vm_compute. repeat split. Qed.

(** C10, amended: the name is never empty and has the form
    [stamp_base.ext]: the stamp is the year followed by two digits each for
    month, day, hour, minute and second, which makes 14 digits when the
    year has four; the base is the sanitized village tag and the sanitized
    original base name, those of the two that are not empty, joined by an
    underscore, and the literal "upload" when both are empty; a sanitized
    segment has only letters, digits and hyphens, at most 60 code units
    and no hyphen in front; the extension follows a dot and has no
    capital letter A-Z. *)
Theorem buildTargetFileName_shape (file : File.t) (villageValue : string)
    (stamp : Date) :
  let originalName := toStr (File.name file) "photo" in
  let result := buildTargetFileName file villageValue stamp in
  let tag := sanitize villageValue in
  let base := sanitize (fileBase originalName) in
  let ext := fileExt originalName in
  result ≠ "" ∧
  result =
    compactTimestamp stamp +:+ "_" +:+
    (match JS.truthy tag, JS.truthy base with
     | true, true => tag +:+ "_" +:+ base
     | true, false => tag
     | false, true => base
     | false, false => "upload"
     end) +:+
    (if JS.truthy ext then "." +:+ JS.toLowerCase ext else "") ∧
  (fourDigitYear stamp → digitsN 14 (compactTimestamp stamp) = true) ∧
  cleanSegment tag ∧ cleanSegment base ∧
  Forall (fun c => JS.isUpper c = false) (JS.chars (JS.toLowerCase ext)).
Proof.
  intros originalName result tag base ext.
  assert (result =
    compactTimestamp stamp +:+ "_" +:+
    (match JS.truthy tag, JS.truthy base with
     | true, true => tag +:+ "_" +:+ base
     | true, false => tag
     | false, true => base
     | false, false => "upload"
     end) +:+
    (if JS.truthy ext then "." +:+ JS.toLowerCase ext else "")) as Hres.
  { subst result. unfold buildTargetFileName.
    fold originalName. fold ext. fold base. fold tag.
    cbn [map]. rewrite filter_truthy_pair. fold base. fold tag.
    destruct (JS.truthy tag), (JS.truthy base); reflexivity. }
  split; [|split; [exact Hres|split; [|split; [|split]]]].
  - rewrite Hres. intros H. apply (f_equal JS.chars) in H.
    rewrite !chars_app in H. by apply app_eq_nil in H as [_ H].
  - apply compactTimestamp_digits.
  - apply sanitize_clean.
  - apply sanitize_clean.
  - unfold JS.toLowerCase. rewrite chars_onChars.
    apply Forall_forall. intros c Hc.
    apply list_elem_of_fmap in Hc as (x & -> & _). apply lowerChar_not_upper.
Qed.

Lemma buildTargetFileName_shape_witness :
  digitsN 14 (compactTimestamp
    {| getFullYear := 2024; getMonth := 0; getDate := 5;
       getHours := 13; getMinutes := 7; getSeconds := 59 |}) = true.
Proof.
  apply (buildTargetFileName_shape
           {| File.name := Some "IMG 0001 (copy).JPG"; File.size := 1 |}
           "St. John's"
           {| getFullYear := 2024; getMonth := 0; getDate := 5;
              getHours := 13; getMinutes := 7; getSeconds := 59 |}).
  unfold fourDigitYear. cbn. lia.
Defined.

(** * Folder provisioning *)

Section Strings.

Lemma chars_inj a b : JS.chars a = JS.chars b → a = b.
Proof. intros H. by rewrite <- (str_chars a), H, str_chars. Qed.

Lemma append_assoc (a b c : string) : (a +:+ b) +:+ c = a +:+ b +:+ c.
Proof. apply chars_inj. by rewrite !chars_app, app_assoc. Qed.

Lemma append_nil_r (a : string) : a +:+ "" = a.
Proof. apply chars_inj. by rewrite chars_app, app_nil_r. Qed.

Lemma truthy_chars s : JS.truthy s = true ↔ JS.chars s ≠ [].
Proof. by destruct s. Qed.

Lemma falsy_empty s : JS.truthy s = false → s = "".
Proof. by destruct s. Qed.

Lemma stripSuffixL_app suf l : stripSuffixL suf (l ++ suf) = Some l.
Proof.
  unfold stripSuffixL. rewrite length_app.
  replace (length l + length suf - length suf)%nat with (length l) by lia.
  rewrite drop_app_length, bool_decide_eq_true_2 by done.
  by rewrite take_app_length.
Qed.

Lemma stripSuffix_app suf s : stripSuffix suf (s +:+ suf) = Some s.
Proof.
  unfold stripSuffix. rewrite chars_app, stripSuffixL_app. cbn.
  by rewrite str_chars.
Qed.

(** The root collection [.../root/children] is not of the form
    [<parent>:/children]. *)
Lemma stripSuffix_root s : stripSuffix ":/children" (s +:+ "/root/children") = None.
Proof.
  unfold stripSuffix, stripSuffixL. rewrite chars_app, length_app.
  change (JS.chars "/root/children") with (JS.chars "/roo" ++ JS.chars "t/children").
  change (length (JS.chars "/roo" ++ JS.chars "t/children")) with 14%nat.
  change (length (JS.chars ":/children")) with 10%nat.
  replace (length (JS.chars s) + 14 - 10)%nat
    with (length (JS.chars s ++ JS.chars "/roo")) by (rewrite length_app; cbn; lia).
  rewrite app_assoc, drop_app_length. reflexivity.
Qed.

Lemma encodeURI_app a b :
  JS.encodeURI (a +:+ b) = JS.encodeURI a +:+ JS.encodeURI b.
Proof.
  apply chars_inj. unfold JS.encodeURI.
  by rewrite chars_app, !chars_onChars, chars_app, flat_map_app.
Qed.

Lemma encodeChar_nonempty c : JS.encodeChar c ≠ [].
Proof.
  unfold JS.encodeChar, JS.percent.
  destruct (JS.uriKeep c); [done|]. by destruct (JS.code c <? 128).
Qed.

Lemma encodeURI_truthy s : JS.truthy s = true → JS.truthy (JS.encodeURI s) = true.
Proof.
  rewrite !truthy_chars. unfold JS.encodeURI. rewrite chars_onChars.
  destruct (JS.chars s) as [|c l]; [done|]. intros _. cbn [flat_map].
  pose proof (encodeChar_nonempty c). by destruct (JS.encodeChar c).
Qed.

Lemma dropWhile_id p c l : p c = false → JS.dropWhile p (c :: l) = c :: l.
Proof. intros H. cbn. by rewrite H. Qed.

Lemma stripEnds_id x l :
  head l ≠ Some x → last l ≠ Some x → JS.stripEnds (JS.isChar x) l = l.
Proof.
  intros Hh Hl. unfold JS.stripEnds, JS.dropWhileEnd.
  assert (∀ k, head k ≠ Some x → JS.dropWhile (JS.isChar x) k = k) as Hd.
  { intros [|c k] Hk; [done|]. apply dropWhile_id.
    apply not_true_iff_false. intros ->%isChar_eq. by apply Hk. }
  rewrite (Hd l Hh), Hd; [apply rev_involutive|].
  destruct l as [|c l] using rev_ind; [done|].
  rewrite rev_app_distr. cbn. rewrite last_snoc in Hl. congruence.
Qed.

Lemma trimSlashes_id s : noEdgeSlash s → trimSlashes s = s.
Proof.
  intros [Hh Hl]. unfold trimSlashes, JS.onChars.
  by rewrite stripEnds_id, str_chars.
Qed.

Lemma noEdgeSlash_join parent segment :
  JS.truthy parent = true → JS.truthy segment = true →
  noEdgeSlash parent → noEdgeSlash segment →
  noEdgeSlash (parent +:+ "/" +:+ segment).
Proof.
  rewrite !truthy_chars. intros Hp Hs [Hh _] [_ Hl].
  unfold noEdgeSlash. rewrite !chars_app. split.
  - destruct (JS.chars parent); [done|]. exact Hh.
  - rewrite app_assoc. destruct (JS.chars segment) as [|c l] using rev_ind; [done|].
    rewrite app_assoc, last_snoc. by rewrite last_snoc in Hl.
Qed.

Lemma splitGo_free sep cur l :
  Forall (fun c => c ≠ sep) cur →
  Forall (Forall (fun c => c ≠ sep)) (JS.splitGo sep cur l).
Proof.
  revert cur. induction l as [|c l IH]; intros cur Hcur; cbn.
  - constructor; [|constructor]. apply Forall_forall. intros x Hx.
    apply list_elem_of_In, in_rev, list_elem_of_In in Hx.
    by eapply Forall_forall in Hcur.
  - destruct (JS.isChar sep c) eqn:Hc.
    + constructor; [|by apply IH].
      apply Forall_forall. intros x Hx.
      apply list_elem_of_In, in_rev, list_elem_of_In in Hx.
      by eapply Forall_forall in Hcur.
    + apply IH. constructor; [|done]. intros ->.
      assert (JS.isChar sep sep = true) by by apply isChar_eq. congruence.
Qed.

(** No piece of [s.split("/")] contains a slash, and neither does the
    piece once trimmed. *)
Lemma split_segment_noEdgeSlash s raw :
  raw ∈ JS.split "/" s → noEdgeSlash (JS.trim raw).
Proof.
  unfold JS.split. intros (l & -> & Hl)%list_elem_of_fmap.
  pose proof (splitGo_free "/" [] (JS.chars s) (Forall_nil_2 _)) as Hfree.
  rewrite Forall_forall in Hfree. specialize (Hfree l Hl).
  assert (∀ c, c ∈ JS.chars (JS.trim (JS.str l)) → c ≠ "/"%char) as Hno.
  { intros c Hc. unfold JS.trim in Hc.
    rewrite chars_onChars, chars_str in Hc. apply stripEnds_elem in Hc.
    rewrite Forall_forall in Hfree. by apply Hfree. }
  split.
  - destruct (JS.chars (JS.trim (JS.str l))) as [|c k]; [done|].
    cbn. intros [= ->]. by apply (Hno "/"%char); [left|].
  - intros Hlast. apply last_Some_elem_of in Hlast. by apply (Hno "/"%char).
Qed.

End Strings.

Section Provisioning.

Variable rewrapNetworkError : Error -> string -> Error.
Variable rm : Remote.

Abbreviation ensureSegment := (ensureSegment rewrapNetworkError rm).
Abbreviation ensureSegments := (ensureSegments rewrapNetworkError rm).
Abbreviation ensureFolder := (ensureFolder rewrapNetworkError rm).

Lemma noEdgeSlash_empty : noEdgeSlash "".
Proof. by split. Qed.

Lemma joinPath_noEdgeSlash parent segment :
  JS.truthy segment = true → noEdgeSlash parent → noEdgeSlash segment →
  noEdgeSlash (joinPath parent segment).
Proof.
  intros Hs Hp Hseg. unfold joinPath.
  destruct (JS.truthy parent) eqn:E; [by apply noEdgeSlash_join | done].
Qed.

Lemma joinPath_truthy parent segment :
  JS.truthy segment = true → JS.truthy (joinPath parent segment) = true.
Proof.
  intros Hs. unfold joinPath. destruct (JS.truthy parent) eqn:E; [|done].
  apply truthy_chars. rewrite chars_app. apply truthy_chars in E.
  by destruct (JS.chars parent).
Qed.

(** The create call made for a missing segment creates the folder
    whose address was read. *)
Lemma childAddress_endpoint driveId parent segment :
  noEdgeSlash parent →
  childAddress (childrenEndpoint driveId parent) segment =
    Some (folderAddress driveId (joinPath parent segment)).
Proof.
  intros Hp. unfold childrenEndpoint, childAddress, joinPath, folderAddress.
  rewrite trimSlashes_id by done.
  destruct (JS.truthy parent) eqn:E.
  - replace ("/drives/" +:+ driveId +:+ "/root:/" +:+ JS.encodeURI parent +:+ ":/children")
      with (("/drives/" +:+ driveId +:+ "/root:/" +:+ JS.encodeURI parent) +:+ ":/children")
      by (by rewrite !append_assoc).
    rewrite stripSuffix_app. f_equal.
    rewrite !encodeURI_app, !append_assoc. reflexivity.
  - replace ("/drives/" +:+ driveId +:+ "/root/children")
      with (("/drives/" +:+ driveId) +:+ "/root/children")
      by (by rewrite !append_assoc).
    by rewrite stripSuffix_root, stripSuffix_app.
Qed.

Lemma ensureSegment_spec driveId parent raw w :
  noEdgeSlash parent →
  ensureSegment driveId parent raw w =
    let segment := JS.trim raw in
    if JS.truthy segment then
      let a := folderAddress driveId (joinPath parent segment) in
      if bool_decide (a ∈ items w)
      then (Ok (joinPath parent segment), record (GET a) w)
      else (Ok (joinPath parent segment),
            addItem a
              (record (POST (childrenEndpoint driveId parent)
                         (FolderBody segment "replace"))
                 (record (GET a) w)))
    else (Ok parent, w).
Proof.
  intros Hp. unfold ensureSegment. cbn zeta.
  destruct (JS.truthy (JS.trim raw)) eqn:Hs; cbn [negb]; [|done].
  fold (joinPath parent (JS.trim raw)).
  fold (folderAddress driveId (joinPath parent (JS.trim raw))).
  unfold bind, tryCatch, sgraph_get, sgraph_post.
  change (items (record ?c w)) with (items w).
  destruct (bool_decide _) eqn:Hin; [done|].
  by rewrite childAddress_endpoint.
Qed.

Lemma length_append (a b : string) :
  String.length (a +:+ b) = (String.length a + String.length b)%nat.
Proof. by rewrite <- !length_chars, chars_app, length_app. Qed.

(** Every path visited below [parent] extends it. *)
Lemma folderPaths_extend raws : ∀ parent p,
  p ∈ folderPaths parent raws →
  ∃ ext, JS.truthy ext = true ∧ p = parent +:+ ext.
Proof.
  induction raws as [|raw raws IH]; intros parent p Hp; cbn in Hp.
  - by apply elem_of_nil in Hp.
  - destruct (JS.truthy (JS.trim raw)) eqn:Hs; cbn [negb] in Hp; [|by apply IH].
    fold (joinPath parent (JS.trim raw)) in Hp.
    assert (∃ e, JS.truthy e = true ∧ joinPath parent (JS.trim raw) = parent +:+ e)
      as (e & He & Hj).
    { unfold joinPath. destruct (JS.truthy parent) eqn:E.
      - by exists ("/" +:+ JS.trim raw).
      - exists (JS.trim raw). by rewrite (falsy_empty _ E). }
    apply elem_of_cons in Hp as [->|Hp]; [by exists e|].
    apply IH in Hp as (ext & Hext & ->). exists (e +:+ ext). split.
    + apply truthy_chars. rewrite chars_app. apply truthy_chars in He.
      by destruct (JS.chars e).
    + by rewrite Hj, append_assoc.
Qed.

Lemma folderAddress_fresh driveId parent raws p :
  p ∈ folderPaths parent raws →
  folderAddress driveId p ≠ folderAddress driveId parent.
Proof.
  intros (ext & Hext & ->)%folderPaths_extend. unfold folderAddress.
  rewrite encodeURI_app. intros H. apply (f_equal String.length) in H.
  rewrite !length_append in H.
  apply encodeURI_truthy in Hext. destruct (JS.encodeURI ext); [done|].
  cbn in H. lia.
Qed.

Lemma filter_ext_in {A} (P Q : A → Prop) `{!∀ x, Decision (P x)}
    `{!∀ x, Decision (Q x)} (l : list A) :
  (∀ x, x ∈ l → P x ↔ Q x) → filter P l = filter Q l.
Proof.
  induction l as [|x l IH]; intros Hext; [done|].
  rewrite !filter_cons.
  rewrite IH by (intros y Hy; apply Hext; by right).
  destruct (decide (P x)) as [HP|HP], (decide (Q x)) as [HQ|HQ]; try done;
    exfalso; specialize (Hext x (list_elem_of_here _ _)); tauto.
Qed.

(** The segment loop: it reads every folder address once, in order,
    creates exactly the ones that are missing, and leaves all of them in
    the drive. *)
Lemma ensureSegments_spec driveId raws : ∀ parent w,
  noEdgeSlash parent →
  Forall (fun raw => noEdgeSlash (JS.trim raw)) raws →
  let addrs := map (folderAddress driveId) (folderPaths parent raws) in
  ∃ r w' t,
    ensureSegments driveId parent raws w = (Ok r, w') ∧
    calls w' = calls w ++ t ∧
    session w' = session w ∧
    items w' = items w ∪ list_to_set addrs ∧
    reads t = addrs ∧
    map createdAddress (createCalls t) =
      map Some (filter (fun a => a ∉ items w) addrs) ∧
    onlyFolderCalls t.
Proof.
  induction raws as [|raw raws IH]; intros parent w Hp Hraws addrs.
  - exists parent, w, []. subst addrs. cbn.
    rewrite app_nil_r. repeat split; try done; [|constructor].
    by rewrite (right_id_L ∅ (∪)).
  - apply Forall_cons in Hraws as [Hraw Hraws].
    cbn [ensureSegments]. unfold bind at 1.
    rewrite ensureSegment_spec by done. cbn zeta.
    subst addrs. cbn [folderPaths].
    destruct (JS.truthy (JS.trim raw)) eqn:Hs; cbn [negb].
    + fold (joinPath parent (JS.trim raw)).
      set (cur := joinPath parent (JS.trim raw)).
      set (a := folderAddress driveId cur).
      assert (noEdgeSlash cur) as Hcur by (by apply joinPath_noEdgeSlash).
      assert (a ∉ map (folderAddress driveId) (folderPaths cur raws)) as Hfresh.
      { intros (p & Hpa & Hin)%list_elem_of_fmap.
        by apply (folderAddress_fresh driveId cur raws p). }
      destruct (bool_decide (a ∈ items w)) eqn:Hin.
      * apply bool_decide_eq_true in Hin.
        destruct (IH cur (record (GET a) w) Hcur Hraws)
          as (r & w' & t & Hrun & Hcalls & Hsess & Hitems & Hreads & Hcreates & Honly).
        exists r, w', (GET a :: t). rewrite Hrun.
        cbn [map]. rewrite filter_cons, decide_False by (by intros ?).
        split; [done|]. split; [by rewrite Hcalls; cbn; rewrite <- app_assoc|].
        split; [done|].
        split.
        { rewrite Hitems.
          change (items (record (GET a) w)) with (items w).
          cbn [map list_to_set]. fold a.
          rewrite (assoc_L (∪)), (comm_L (∪) (items w) {[ a ]}).
          rewrite (subseteq_union_1_L {[ a ]} (items w)); [done|].
          by apply singleton_subseteq_l. }
        change (reads (GET a :: t)) with (a :: reads t).
        change (createCalls (GET a :: t)) with (createCalls t).
        split; [by rewrite Hreads|]. split; [done|].
        by constructor.
      * apply bool_decide_eq_false in Hin.
        set (w1 := addItem a _).
        destruct (IH cur w1 Hcur Hraws)
          as (r & w' & t & Hrun & Hcalls & Hsess & Hitems & Hreads & Hcreates & Honly).
        exists r, w',
          (GET a :: POST (childrenEndpoint driveId parent)
                      (FolderBody (JS.trim raw) "replace") :: t).
        rewrite Hrun.
        cbn [map]. rewrite filter_cons, decide_True by done.
        split; [done|].
        split; [by rewrite Hcalls; cbn; rewrite <- !app_assoc|].
        split; [done|].
        split.
        { rewrite Hitems. subst w1.
          change (items (addItem a ?v)) with ({[ a ]} ∪ items w).
          cbn [map list_to_set]. fold a.
          by rewrite (assoc_L (∪) (items w)), (comm_L (∪) (items w) {[ a ]}). }
        change (reads (GET a :: POST ?e ?b :: t)) with (a :: reads t).
        change (createCalls (GET a :: POST ?e (FolderBody ?n ?c) :: t))
          with ((e, n) :: createCalls t).
        split; [by rewrite Hreads|].
        split; [|by repeat constructor].
        cbn [map]. unfold createdAddress at 1. cbn [fst snd].
        rewrite childAddress_endpoint by done. fold cur a. f_equal.
        rewrite Hcreates. f_equal. apply filter_ext_in.
        intros x Hx. subst w1.
        change (items (addItem a ?v)) with ({[ a ]} ∪ items w).
        rewrite not_elem_of_union, not_elem_of_singleton.
        split; [tauto|]. intros Hxw. split; [|done]. by intros ->.
    + destruct (IH parent w Hp Hraws)
        as (r & w' & t & Hrun & Hrest).
      exists r, w', t. by rewrite Hrun.
Qed.

End Provisioning.

Lemma only_reads t :
  onlyFolderCalls t → createCalls t = [] → t = map GET (reads t).
Proof.
  induction t as [|c t IH]; intros Honly Hnone; [done|].
  apply Forall_cons in Honly as [Hc Honly].
  destruct c as [p|p [n cb|f]| | | |]; try done.
  change (reads (GET p :: t)) with (p :: reads t). cbn [map].
  f_equal. by apply IH.
Qed.

(** C1: [ensureFolder] is idempotent.  A call reads each folder of
    [basePath/YYYY/MM] once and creates exactly those that were missing
    before it, one create call each; a second call with the same
    arguments on the drive the first one left only reads, every read
    succeeds, and no create call is made; both return the same
    [YYYY/MM], whose month has two digits. *)
Theorem ensureFolder_idempotent (rewrapNetworkError : Error → string → Error)
    (rm : Remote) (driveId baseFolderPath : string) (stamp : Date) (w : World) :
  let addrs := folderAddresses driveId baseFolderPath stamp in
  let suffix :=
    JS.ofZ (getFullYear stamp) +:+ "/" +:+
    JS.padStart2 (JS.ofN (getMonth stamp + 1)) in
  ∃ w1 w2 t1 t2,
    ensureFolder rewrapNetworkError rm driveId baseFolderPath stamp w = (Ok suffix, w1) ∧
    calls w1 = calls w ++ t1 ∧
    ensureFolder rewrapNetworkError rm driveId baseFolderPath stamp w1 = (Ok suffix, w2) ∧
    calls w2 = calls w1 ++ t2 ∧
    reads t1 = addrs ∧
    map createdAddress (createCalls t1) =
      map Some (filter (fun a => a ∉ items w) addrs) ∧
    t2 = map GET addrs ∧
    createCalls t2 = [] ∧
    Forall (fun a => a ∈ items w1) addrs ∧
    (getMonth stamp ≤ 11 →
     digitsN 2 (JS.padStart2 (JS.ofN (getMonth stamp + 1))) = true).
Proof.
  intros addrs suffix.
  assert (Forall (fun raw => noEdgeSlash (JS.trim raw))
            (folderSegments baseFolderPath stamp)) as Hraws.
  { apply Forall_forall. intros raw Hraw.
    by apply split_segment_noEdgeSlash in Hraw. }
  destruct (ensureSegments_spec rewrapNetworkError rm driveId _ "" w
              noEdgeSlash_empty Hraws)
    as (r1 & w1 & t1 & Hrun1 & Hcalls1 & _ & Hitems1 & Hreads1 & Hcreates1 & _).
  destruct (ensureSegments_spec rewrapNetworkError rm driveId _ "" w1
              noEdgeSlash_empty Hraws)
    as (r2 & w2 & t2 & Hrun2 & Hcalls2 & _ & _ & Hreads2 & Hcreates2 & Honly2).
  change (map (folderAddress driveId)
            (folderPaths "" (folderSegments baseFolderPath stamp)))
    with addrs in Hitems1, Hreads1, Hcreates1, Hreads2, Hcreates2.
  assert (Forall (fun a => a ∈ items w1) addrs) as Hall.
  { apply Forall_forall. intros a Ha. rewrite Hitems1.
    apply elem_of_union. right. by apply elem_of_list_to_set. }
  assert (filter (fun a => a ∉ items w1) addrs = []) as Hnone.
  { clear -Hall. induction addrs as [|a l IH]; [done|].
    apply Forall_cons in Hall as [Ha Hl].
    rewrite filter_cons, decide_False by (by intros ?). by apply IH. }
  rewrite Hnone in Hcreates2. apply fmap_nil_inv in Hcreates2.
  exists w1, w2, t1, t2.
  unfold ensureFolder, bind. fold (folderSegments baseFolderPath stamp).
  rewrite Hrun1, Hrun2.
  repeat split; try done.
  - rewrite <- Hreads2. by apply only_reads.
  - intros Hm. apply pad2_digits. lia.
Qed.

Lemma ensureFolder_idempotent_witness :
  digitsN 2 (JS.padStart2 (JS.ofN (getMonth demoStamp + 1))) = true.
Proof.
  destruct (ensureFolder_idempotent keepError (demoRemote [] 0) "b!drive"
              "VillageReconPhotos" demoStamp emptyWorld)
    as (w1 & w2 & t1 & t2 & H).
  apply H. vm_compute. discriminate.
Defined.

(** * Chunked upload *)

Section Chunks.

Variable rewrapNetworkError : Error -> string -> Error.
Variable rm : Remote.

Abbreviation chunkError := (chunkError rewrapNetworkError).
Abbreviation replyTo := (replyTo rm).

Lemma chunkSize_val : chunkSize = 5242880.
Proof. reflexivity. Qed.

Lemma chunkStart_succ i : chunkStart (S i) = chunkStart i + chunkSize.
Proof. unfold chunkStart. rewrite chunkSize_val. lia. Qed.

Lemma chunkCount_spec size i : (i < chunkCount size)%nat ↔ chunkStart i < size.
Proof.
  unfold chunkCount, chunkStart. rewrite chunkSize_val. split; intros H.
  - destruct (N.lt_ge_cases (N.of_nat i * 5242880) size) as [|Hge]; [done|].
    exfalso.
    assert ((size + 5242880 - 1) / 5242880 < N.of_nat i + 1).
    { apply N.Div0.div_lt_upper_bound. lia. }
    lia.
  - assert (N.of_nat i + 1 ≤ (size + 5242880 - 1) / 5242880).
    { apply N.div_le_lower_bound; lia. }
    lia.
Qed.

Lemma fetchPut_spec url cl cr s e w :
  ∃ w', fetchPut rm url cl cr s e w = (chunkReply rm s, w') ∧
        calls w' = calls w ++ [FETCH_PUT url cl cr s e].
Proof.
  unfold fetchPut.
  destruct (chunkReply rm s) as [res|err]; [|by eexists].
  destruct (session _); [|by eexists].
  destruct (_ || _); by eexists.
Qed.

Lemma uploadChunks_done fuel url size start w :
  size ≤ start → uploadChunks rewrapNetworkError rm fuel url size start w = (Ok (), w).
Proof.
  intros H. destruct fuel; cbn [uploadChunks];
    by rewrite (proj2 (N.ltb_ge start size) H).
Qed.

(** The chunk loop from chunk [i] on: it sends chunks [i .. i+k-1], each
    but the last after the one before it was accepted, and stops either
    past the end of the file or at the first chunk that is refused. *)
Lemma uploadChunks_spec url size fuel : ∀ i w,
  chunkStart i < size →
  size ≤ chunkStart i + N.of_nat fuel * chunkSize →
  ∃ r w' k,
    uploadChunks rewrapNetworkError rm fuel url size (chunkStart i) w = (r, w') ∧
    calls w' = calls w ++ map (chunkCall url size) (seq i (S k)) ∧
    chunkStart (i + k) < size ∧
    (∀ j, (i ≤ j < i + k)%nat → acceptedReply (replyTo j) = true) ∧
    ((acceptedReply (replyTo (i + k)) = true ∧
      size ≤ chunkStart (S (i + k)) ∧ r = Ok ()) ∨
     (acceptedReply (replyTo (i + k)) = false ∧
      r = Throw (chunkError (replyTo (i + k))))).
Proof.
  induction fuel as [|fuel IH]; intros i w Hlt Hfuel; [lia|].
  cbn [uploadChunks]. rewrite (proj2 (N.ltb_lt _ _) Hlt).
  fold (chunkEnd size i).
  destruct (fetchPut_spec url
              (JS.ofN (chunkEnd size i - chunkStart i))
              (contentRange (chunkStart i) (chunkEnd size i) size)
              (chunkStart i) (chunkEnd size i) w) as (w1 & -> & Hcalls1).
  fold (replyTo i). fold (chunkCall url size i) in Hcalls1.
  assert (∀ r, (acceptedReply (replyTo i) = false ∧ r = Throw (chunkError (replyTo i))) →
    ∃ k, calls w1 = calls w ++ map (chunkCall url size) (seq i (S k)) ∧
      chunkStart (i + k) < size ∧
      (∀ j, (i ≤ j < i + k)%nat → acceptedReply (replyTo j) = true) ∧
      ((acceptedReply (replyTo (i + k)) = true ∧
        size ≤ chunkStart (S (i + k)) ∧ r = Ok ()) ∨
       (acceptedReply (replyTo (i + k)) = false ∧
        r = Throw (chunkError (replyTo (i + k)))))) as Hstop.
  { intros r Hr. exists 0%nat. rewrite Nat.add_0_r.
    split; [done|]. split; [done|]. split; [lia|]. by right. }
  destruct (replyTo i) as [res|err] eqn:Hreply.
  - destruct (accepted res) eqn:Hacc; cbn [negb].
    + destruct (N.lt_ge_cases (chunkStart i + chunkSize) size) as [Hmore|Hlast].
      * assert (chunkEnd size i = chunkStart (S i)) as ->
          by (unfold chunkEnd; rewrite chunkStart_succ; lia).
        destruct (IH (S i) w1) as (r & w' & k & Hrun & Hcalls & Hk & Hprev & Hout).
        { rewrite chunkStart_succ. lia. }
        { rewrite chunkStart_succ. lia. }
        exists r, w', (S k). rewrite Hrun.
        replace (i + S k)%nat with (S i + k)%nat by lia.
        split; [done|]. split.
        { rewrite Hcalls, Hcalls1, <- app_assoc. reflexivity. }
        split; [done|]. split; [|done].
        intros j Hj. destruct (decide (j = i)) as [->|Hne].
        -- rewrite Hreply. exact Hacc.
        -- apply Hprev. lia.
      * assert (chunkEnd size i = size) as -> by (unfold chunkEnd; lia).
        rewrite uploadChunks_done by lia.
        exists (Ok ()), w1, 0%nat. rewrite Nat.add_0_r, Hreply.
        split; [done|]. split; [done|]. split; [done|]. split; [lia|].
        left. rewrite chunkStart_succ. done.
    + destruct (Hstop (Throw (chunkFailed res))) as (k & Hk); [done|].
      by exists (Throw (chunkFailed res)), w1, k.
  - destruct (Hstop (Throw (rewrapNetworkError err "UploadSession PUT chunk")))
      as (k & Hk); [done|].
    by exists (Throw (rewrapNetworkError err "UploadSession PUT chunk")), w1, k.
Qed.

End Chunks.

Section Upload.

Variable rewrapNetworkError : Error -> string -> Error.
Variable rm : Remote.

Abbreviation ensureFolder := (ensureFolder rewrapNetworkError rm).
Abbreviation uploadOne := (uploadOne rewrapNetworkError rm).

Lemma ensureFolder_runs driveId baseFolderPath stamp w :
  ∃ w1 t1,
    ensureFolder driveId baseFolderPath stamp w =
      (Ok (JS.ofZ (getFullYear stamp) +:+ "/" +:+
           JS.padStart2 (JS.ofN (getMonth stamp + 1))), w1) ∧
    calls w1 = calls w ++ t1 ∧ onlyFolderCalls t1.
Proof.
  assert (Forall (fun raw => noEdgeSlash (JS.trim raw))
            (folderSegments baseFolderPath stamp)) as Hraws.
  { apply Forall_forall. intros raw Hraw.
    by apply split_segment_noEdgeSlash in Hraw. }
  destruct (ensureSegments_spec rewrapNetworkError rm driveId _ "" w
              noEdgeSlash_empty Hraws)
    as (r1 & w1 & t1 & Hrun1 & Hcalls1 & _ & _ & _ & _ & Honly).
  exists w1, t1. unfold ensureFolder, bind.
  fold (folderSegments baseFolderPath stamp). by rewrite Hrun1.
Qed.

Lemma uploadOne_unfold driveId baseFolderPath file villageValue w :
  uploadOne driveId baseFolderPath file villageValue w =
    let stamp := now rm (length (calls w)) in
    match ensureFolder driveId baseFolderPath stamp w with
    | (Ok pathSub, w1) =>
        let target :=
          stripLeadingSlashes
            (trimSlashes baseFolderPath +:+ "/" +:+ pathSub +:+ "/" +:+
             buildTargetFileName file villageValue stamp) in
        if File.size file <=? 3999999 then
          sgraph_putContent rewrapNetworkError rm
            ("/drives/" +:+ driveId +:+ "/root:/" +:+ JS.encodeURI target +:+ ":/content")
            file w1
        else
          match sgraph_createUploadSession rewrapNetworkError rm
                  ("/drives/" +:+ driveId +:+ "/root:/" +:+ JS.encodeURI target +:+
                   ":/createUploadSession") "rename" w1 with
          | (Ok uploadUrl, w2) =>
              match uploadChunks rewrapNetworkError rm
                      (S (N.to_nat (File.size file / chunkSize)))
                      uploadUrl (File.size file) 0 w2 with
              | (Ok _, w3) =>
                  sgraph_get rewrapNetworkError rm
                    ("/drives/" +:+ driveId +:+ "/root:/" +:+ JS.encodeURI target) w3
              | (Throw e, w3) => (Throw e, w3)
              | (OutOfFuel, w3) => (OutOfFuel, w3)
              end
          | (Throw e, w2) => (Throw e, w2)
          | (OutOfFuel, w2) => (OutOfFuel, w2)
          end
    | (Throw e, w1) => (Throw e, w1)
    | (OutOfFuel, w1) => (OutOfFuel, w1)
    end.
Proof.
  unfold uploadOne, bind, newDate. cbn zeta.
  destruct (ensureFolder _ _ _ _) as [[pathSub|e|] w1]; [|done..].
  destruct (File.size file <=? 3999999); [done|].
  destruct (sgraph_createUploadSession _ _ _ _ _) as [[u|e|] w2]; done.
Qed.

Lemma childPath_assoc driveId target suffix :
  "/drives/" +:+ driveId +:+ "/root:/" +:+ JS.encodeURI target +:+ suffix =
  folderAddress driveId target +:+ suffix.
Proof. unfold folderAddress. by rewrite !append_assoc. Qed.

(** Files up to the threshold: one direct content write. *)
Lemma uploadOne_small driveId baseFolderPath file villageValue w :
  File.size file ≤ 3999999 →
  let stamp := now rm (length (calls w)) in
  let target := uploadTarget baseFolderPath stamp file villageValue in
  ∃ w1 t1 r w',
    calls w1 = calls w ++ t1 ∧ onlyFolderCalls t1 ∧
    uploadOne driveId baseFolderPath file villageValue w = (r, w') ∧
    calls w' = calls w1 ++
      [PUT_CONTENT
         ("/drives/" +:+ driveId +:+ "/root:/" +:+ JS.encodeURI target +:+ ":/content")
         file].
Proof.
  intros Hsize stamp target.
  destruct (ensureFolder_runs driveId baseFolderPath stamp w)
    as (w1 & t1 & Hrun & Hcalls & Honly).
  rewrite uploadOne_unfold. cbn zeta. fold stamp. rewrite Hrun.
  rewrite (proj2 (N.leb_le _ _) Hsize).
  fold (uploadTarget baseFolderPath stamp file villageValue). fold target.
  unfold sgraph_putContent.
  exists w1, t1.
  destruct (stripSuffix _ _); eexists _, _; (split; [done|]); (split; [done|]);
    (split; [reflexivity|]); reflexivity.
Qed.

(** Larger files: an upload session, then the chunks in order up to the
    end of the file or the first refused chunk, then (after the last
    chunk) the read of the final item. *)
Lemma uploadOne_chunked driveId baseFolderPath file villageValue w :
  3999999 < File.size file →
  let stamp := now rm (length (calls w)) in
  let target := uploadTarget baseFolderPath stamp file villageValue in
  let size := File.size file in
  let url := uploadUrlOf rm (folderAddress driveId target) in
  ∃ w1 t1 r w' k tail,
    calls w1 = calls w ++ t1 ∧ onlyFolderCalls t1 ∧
    uploadOne driveId baseFolderPath file villageValue w = (r, w') ∧
    calls w' = calls w1 ++
      CREATE_UPLOAD_SESSION
        ("/drives/" +:+ driveId +:+ "/root:/" +:+ JS.encodeURI target +:+
         ":/createUploadSession") "rename" ::
      map (chunkCall url size) (seq 0 (S k)) ++ tail ∧
    chunkStart k < size ∧
    (∀ j, (j < k)%nat → acceptedReply (replyTo rm j) = true) ∧
    ((acceptedReply (replyTo rm k) = true ∧ size ≤ chunkStart (S k) ∧
      r ≠ OutOfFuel ∧ tail = [GET (folderAddress driveId target)]) ∨
     (acceptedReply (replyTo rm k) = false ∧
      r = Throw (chunkError rewrapNetworkError (replyTo rm k)) ∧ tail = [])).
Proof.
  intros Hsize stamp target size url.
  destruct (ensureFolder_runs driveId baseFolderPath stamp w)
    as (w1 & t1 & Hrun & Hcalls & Honly).
  rewrite uploadOne_unfold. cbn zeta. fold stamp. rewrite Hrun.
  rewrite (proj2 (N.leb_gt _ _) Hsize).
  fold (uploadTarget baseFolderPath stamp file villageValue). fold target.
  fold size.
  unfold sgraph_createUploadSession.
  assert (stripSuffix ":/createUploadSession"
            ("/drives/" +:+ driveId +:+ "/root:/" +:+ JS.encodeURI target +:+
             ":/createUploadSession") = Some (folderAddress driveId target)) as ->
    by (rewrite childPath_assoc; apply stripSuffix_app).
  fold url.
  set (w2 := {| items := _; session := _; calls := _ |}).
  destruct (uploadChunks_spec rewrapNetworkError rm url size
              (S (N.to_nat (size / chunkSize))) 0 w2)
    as (r & w3 & k & Hchunks & Hcalls3 & Hk & Hprev & Hout).
  { unfold chunkStart. cbn. lia. }
  { unfold chunkStart. rewrite chunkSize_val.
    pose proof (N.Div0.div_mod size 5242880).
    pose proof (N.mod_lt size 5242880). lia. }
  change (chunkStart 0) with 0 in Hchunks. rewrite Hchunks.
  exists w1, t1.
  destruct Hout as [(Hacc & Hend & ->)|(Hacc & ->)].
  - unfold sgraph_get.
    assert (calls w3 ++ [GET (folderAddress driveId target)] =
            calls w1 ++
              CREATE_UPLOAD_SESSION
                ("/drives/" +:+ driveId +:+ "/root:/" +:+ JS.encodeURI target +:+
                 ":/createUploadSession") "rename" ::
              map (chunkCall url size) (seq 0 (S k)) ++
              [GET (folderAddress driveId target)]) as Htrace.
    { rewrite Hcalls3. subst w2. cbn [calls record].
      by rewrite <- !app_assoc. }
    destruct (bool_decide _); eexists _, _, k, _;
      (split; [done|]); (split; [done|]); (split; [reflexivity|]);
      (split; [exact Htrace|]); (split; [done|]);
      (split; [intros j Hj; apply Hprev; lia|]);
      left; repeat split; done.
  - eexists _, _, k, []. split; [done|]. split; [done|].
    split; [reflexivity|]. split.
    { rewrite Hcalls3. subst w2. cbn [calls record].
      by rewrite <- !app_assoc, app_nil_r. }
    split; [done|]. split; [intros j Hj; apply Hprev; lia|].
    by right.
Qed.

End Upload.

Section Traces.

Lemma puts_app t1 t2 : puts (t1 ++ t2) = puts t1 ++ puts t2.
Proof. apply filter_app. Qed.

Lemma puts_folder t : onlyFolderCalls t → puts t = [].
Proof.
  induction t as [|c t IH]; intros H; [done|].
  apply Forall_cons in H as [Hc H]. unfold puts. rewrite filter_cons.
  destruct c as [p|p [n cb|f]| | | |]; try done; by apply IH.
Qed.

Lemma puts_chunks url size l :
  puts (map (chunkCall url size) l) = map (chunkCall url size) l.
Proof.
  induction l as [|i l IH]; [done|].
  cbn [map]. unfold puts. rewrite filter_cons. cbn. f_equal. apply IH.
Qed.

Lemma chunkStart_mono i j : (i ≤ j)%nat → chunkStart i ≤ chunkStart j.
Proof. unfold chunkStart. rewrite chunkSize_val. lia. Qed.

End Traces.

(** C8: a file of 3,999,999 bytes goes up in one direct content write and
    nothing else after the folders are provisioned; a file of 4,000,000
    bytes opens an upload session and is sent in chunks, with no direct
    content write. *)
Theorem threshold_boundary (rewrapNetworkError : Error → string → Error)
    (rm : Remote) (driveId baseFolderPath : string) (name : option string)
    (villageValue : string) (w : World) :
  let stamp := now rm (length (calls w)) in
  let small := {| File.name := name; File.size := 3999999 |} in
  let large := {| File.name := name; File.size := 4000000 |} in
  (∃ w1 t1 r w',
     calls w1 = calls w ++ t1 ∧ onlyFolderCalls t1 ∧
     uploadOne rewrapNetworkError rm driveId baseFolderPath small villageValue w
       = (r, w') ∧
     calls w' = calls w1 ++
       [PUT_CONTENT
          ("/drives/" +:+ driveId +:+ "/root:/" +:+
           JS.encodeURI (uploadTarget baseFolderPath stamp small villageValue) +:+
           ":/content") small]) ∧
  (∃ w1 t1 r w' rest,
     calls w1 = calls w ++ t1 ∧ onlyFolderCalls t1 ∧
     uploadOne rewrapNetworkError rm driveId baseFolderPath large villageValue w
       = (r, w') ∧
     calls w' = calls w1 ++
       CREATE_UPLOAD_SESSION
         ("/drives/" +:+ driveId +:+ "/root:/" +:+
          JS.encodeURI (uploadTarget baseFolderPath stamp large villageValue) +:+
          ":/createUploadSession") "rename" :: rest ∧
     puts rest ≠ [] ∧
     Forall (fun c => isPutContent c = false) rest).
Proof.
  intros stamp small large. split.
  - apply uploadOne_small. cbn. lia.
  - destruct (uploadOne_chunked rewrapNetworkError rm driveId baseFolderPath
                large villageValue w)
      as (w1 & t1 & r & w' & k & tail & Hc1 & Honly & Hrun & Hcalls & _ & _ & Hout);
      [cbn; lia|].
    exists w1, t1, r, w', (map (chunkCall
      (uploadUrlOf rm (folderAddress driveId
         (uploadTarget baseFolderPath stamp large villageValue)))
      (File.size large)) (seq 0 (S k)) ++ tail).
    split; [done|]. split; [done|]. split; [done|]. split; [exact Hcalls|].
    split.
    + rewrite puts_app, puts_chunks. done.
    + apply Forall_app. split.
      * apply Forall_forall. by intros c (i & -> & _)%list_elem_of_fmap.
      * destruct Hout as [(_ & _ & _ & ->)|(_ & _ & ->)]; by repeat constructor.
Qed.

(** C2: a file above the small-file threshold is sent in
    [ceil(size / chunkSize)] chunk transfers when every chunk is
    accepted, with [chunkSize] = 5 * 1024 * 1024; the [i]-th transfer
    carries the bytes from [i * chunkSize] up to
    [min((i + 1) * chunkSize, size)], with the header
    [Content-Range: bytes start-(end-1)/size] and the number of bytes as
    [Content-Length]; the ranges start at 0, follow one another without
    gap or overlap and end at [size]; and a chunk is only sent after all
    chunks before it were accepted. *)
Theorem chunked_upload_partition (rewrapNetworkError : Error → string → Error)
    (rm : Remote) (driveId baseFolderPath : string) (file : File.t)
    (villageValue : string) (w : World) :
  3999999 < File.size file →
  let size := File.size file in
  let n := chunkCount size in
  let url :=
    uploadUrlOf rm
      (folderAddress driveId
         (uploadTarget baseFolderPath (now rm (length (calls w))) file villageValue)) in
  chunkSize = 5 * 1024 * 1024 ∧
  (0 < n)%nat ∧ chunkStart 0 = 0 ∧ chunkEnd size (n - 1) = size ∧
  (∀ i, (i < n)%nat →
        chunkStart i < chunkEnd size i ∧
        chunkEnd size i - chunkStart i ≤ chunkSize) ∧
  (∀ i, (S i < n)%nat → chunkEnd size i = chunkStart (S i)) ∧
  ∃ r w' t k,
    uploadOne rewrapNetworkError rm driveId baseFolderPath file villageValue w
      = (r, w') ∧
    r ≠ OutOfFuel ∧
    calls w' = calls w ++ t ∧
    puts t =
      map (fun i =>
             FETCH_PUT url
               (JS.ofN (chunkEnd size i - chunkStart i))
               ("bytes " +:+ JS.ofN (chunkStart i) +:+ "-" +:+
                JS.ofN (chunkEnd size i - 1) +:+ "/" +:+ JS.ofN size)
               (chunkStart i) (chunkEnd size i))
          (seq 0 k) ∧
    (k ≤ n)%nat ∧
    (∀ j, (S j < k)%nat → acceptedReply (replyTo rm j) = true) ∧
    ((∀ i, (i < n)%nat → acceptedReply (replyTo rm i) = true) → k = n).
Proof.
  intros Hsize size n url.
  assert (∀ i, (i < n)%nat ↔ chunkStart i < size) as Hn
    by (intros i; apply chunkCount_spec).
  assert (0 < n)%nat as Hpos by (apply Hn; unfold chunkStart; cbn; lia).
  split; [reflexivity|].
  split; [done|]. split; [done|].
  split.
  { assert (chunkStart (n - 1) < size) by (apply Hn; lia).
    assert (¬ chunkStart (S (n - 1)) < size)
      by (rewrite <- Hn; lia).
    rewrite chunkStart_succ in *. unfold chunkEnd. lia. }
  split.
  { intros i Hi. apply Hn in Hi. unfold chunkEnd. rewrite chunkSize_val. lia. }
  split.
  { intros i Hi. apply Hn in Hi. rewrite chunkStart_succ in *.
    unfold chunkEnd. lia. }
  destruct (uploadOne_chunked rewrapNetworkError rm driveId baseFolderPath
              file villageValue w Hsize)
    as (w1 & t1 & r & w' & k & tail & Hc1 & Honly & Hrun & Hcalls & Hk & Hprev & Hout).
  fold size url in Hcalls, Hk, Hout.
  exists r, w', (t1 ++ CREATE_UPLOAD_SESSION
      ("/drives/" +:+ driveId +:+ "/root:/" +:+
       JS.encodeURI (uploadTarget baseFolderPath (now rm (length (calls w)))
                       file villageValue) +:+ ":/createUploadSession") "rename" ::
      map (chunkCall url size) (seq 0 (S k)) ++ tail), (S k).
  split; [done|].
  split; [by destruct Hout as [(_ & _ & ? & _)|(_ & -> & _)]|].
  split; [by rewrite Hcalls, Hc1, <- app_assoc|].
  split.
  { change (fun i => FETCH_PUT url _ _ _ _) with (chunkCall url size).
    rewrite puts_app, (puts_folder t1 Honly).
    change (puts (CREATE_UPLOAD_SESSION ?p ?c :: ?l)) with (puts l).
    rewrite puts_app, puts_chunks.
    destruct Hout as [(_ & _ & _ & ->)|(_ & _ & ->)]; by rewrite ?app_nil_r. }
  split; [apply Hn in Hk; lia|].
  split; [intros j Hj; apply Hprev; lia|].
  intros Hall. destruct Hout as [(_ & Hend & _)|(Hrefused & _)].
  - apply Hn in Hk. assert (¬ (S k < n)%nat) by (rewrite Hn; lia). lia.
  - apply Hn in Hk. rewrite Hall in Hrefused by done. discriminate.
Qed.

Lemma chunked_upload_partition_witness :
  ∃ r w' t,
    uploadOne keepError (demoRemote [] 12000000) "b!drive" "VillageReconPhotos"
      {| File.name := Some "hall.jpg"; File.size := 12000000 |} "Hillsborough"
      emptyWorld = (r, w') ∧
    calls w' = calls emptyWorld ++ t ∧
    let url :=
      "https://upload.example/drives/b!drive/root:/VillageReconPhotos/2024/01/20240105130759_Hillsborough_hall.jpg" in
    puts t =
      [FETCH_PUT url "5242880" "bytes 0-5242879/12000000" 0 5242880;
       FETCH_PUT url "5242880" "bytes 5242880-10485759/12000000" 5242880 10485760;
       FETCH_PUT url "1514240" "bytes 10485760-11999999/12000000" 10485760 12000000].
Proof.
  destruct (chunked_upload_partition keepError (demoRemote [] 12000000)
              "b!drive" "VillageReconPhotos"
              {| File.name := Some "hall.jpg"; File.size := 12000000 |}
              "Hillsborough" emptyWorld)
    as (_ & _ & _ & _ & _ & _ & r & w' & t & k & Hrun & _ & Hcalls & Hputs & _ & _ & Hall).
  { vm_compute. reflexivity. }
  exists r, w', t. split; [exact Hrun|]. split; [exact Hcalls|].
  cbv zeta. rewrite Hputs, Hall.
  - vm_compute. reflexivity.
  - intros i _. unfold replyTo, demoRemote, acceptedReply. cbn [chunkReply].
    by destruct (_ <? _).
Defined.

(** C6, as stated, fails: a response with status 204 is not one of 200,
    201, 202, yet its [ok] flag is set, the test lets it pass and the
    loop goes on to send the remaining chunks. *)
Lemma status_204_is_accepted :
  let res := {| status := 204; statusText := "No Content"; text := None |} in
  (status res ∉ [200; 201; 202]) ∧
  accepted res = true ∧
  length (puts (calls (snd
    (uploadOne keepError (fixedStatusRemote 204) "b!drive" "VillageReconPhotos"
       {| File.name := Some "hall.jpg"; File.size := 12000000 |} "Hillsborough"
       emptyWorld)))) = 3%nat.
Proof.
  split; [|split].
  - intros H. repeat (apply elem_of_cons in H as [H|H]; [discriminate|]).
    by apply elem_of_nil in H.
  - reflexivity.
  - vm_compute. reflexivity.
Qed.

(** C6, amended: a chunk response is accepted exactly when its status
    lies in 200..299 (its [ok] flag; 200, 201 and 202 are among them).  A
    response with any other status aborts the upload with an error whose
    message carries the status, the status text and the response body,
    and the refused chunk is the last one sent; after an accepted chunk
    that is not the last, the next chunk is sent. *)
Theorem chunk_response_acceptance (rewrapNetworkError : Error → string → Error)
    (rm : Remote) (driveId baseFolderPath : string) (file : File.t)
    (villageValue : string) (w : World) (j : nat) (res : Response) :
  3999999 < File.size file →
  chunkStart j < File.size file →
  (∀ i, (i < j)%nat → acceptedReply (replyTo rm i) = true) →
  replyTo rm j = Responded res →
  let size := File.size file in
  let url :=
    uploadUrlOf rm
      (folderAddress driveId
         (uploadTarget baseFolderPath (now rm (length (calls w))) file villageValue)) in
  (accepted res = true ↔ 200 ≤ status res ≤ 299) ∧
  (accepted res = false →
   ∃ w' t,
     uploadOne rewrapNetworkError rm driveId baseFolderPath file villageValue w
       = (Throw (chunkFailed res), w') ∧
     calls w' = calls w ++ t ∧
     puts t = map (chunkCall url size) (seq 0 (S j)) ∧
     message (chunkFailed res) =
       "Upload chunk failed: HTTP " +:+ JS.ofN (status res) +:+ " " +:+
       statusText res +:+ " " +:+ toStr (text res) "") ∧
  (accepted res = true → chunkStart (S j) < size →
   ∃ r w' t k,
     uploadOne rewrapNetworkError rm driveId baseFolderPath file villageValue w
       = (r, w') ∧
     calls w' = calls w ++ t ∧
     puts t = map (chunkCall url size) (seq 0 k) ∧ (S j < k)%nat).
Proof.
  intros Hsize Hj Hbefore Hreply size url.
  destruct (uploadOne_chunked rewrapNetworkError rm driveId baseFolderPath
              file villageValue w Hsize)
    as (w1 & t1 & r & w' & k & tail & Hc1 & Honly & Hrun & Hcalls & Hk & Hprev & Hout).
  fold size url in Hcalls, Hk, Hout.
  assert (puts (t1 ++ CREATE_UPLOAD_SESSION
      ("/drives/" +:+ driveId +:+ "/root:/" +:+
       JS.encodeURI (uploadTarget baseFolderPath (now rm (length (calls w)))
                       file villageValue) +:+ ":/createUploadSession") "rename" ::
      map (chunkCall url size) (seq 0 (S k)) ++ tail) =
    map (chunkCall url size) (seq 0 (S k))) as Hputs.
  { rewrite puts_app, (puts_folder t1 Honly).
    change (puts (CREATE_UPLOAD_SESSION ?p ?c :: ?l)) with (puts l).
    rewrite puts_app, puts_chunks.
    destruct Hout as [(_ & _ & _ & ->)|(_ & _ & ->)]; by rewrite ?app_nil_r. }
  assert (calls w' = calls w ++ t1 ++ CREATE_UPLOAD_SESSION
      ("/drives/" +:+ driveId +:+ "/root:/" +:+
       JS.encodeURI (uploadTarget baseFolderPath (now rm (length (calls w)))
                       file villageValue) +:+ ":/createUploadSession") "rename" ::
      map (chunkCall url size) (seq 0 (S k)) ++ tail) as Htrace
    by (by rewrite Hcalls, Hc1, <- app_assoc).
  split; [|split].
  - unfold accepted, ok.
    destruct (decide (200 ≤ status res ≤ 299)) as [Hin|Hout'].
    + rewrite (proj2 (N.leb_le _ _) (proj1 Hin)), (proj2 (N.leb_le _ _) (proj2 Hin)).
      done.
    + split; [|done]. intros Hacc. exfalso. apply Hout'.
      destruct (200 <=? status res) eqn:E1, (status res <=? 299) eqn:E2;
        cbn in Hacc; try (apply N.leb_le in E1, E2; lia);
        apply negb_true_iff, negb_false_iff, bool_decide_eq_true in Hacc;
        repeat (apply elem_of_cons in Hacc as [->|Hacc]; [lia|]);
        by apply elem_of_nil in Hacc.
  - intros Hacc.
    assert (acceptedReply (replyTo rm j) = false) as Hbad by (by rewrite Hreply).
    assert (k = j) as ->.
    { destruct (Nat.lt_trichotomy k j) as [Hlt|[->|Hgt]]; [|done|].
      - destruct Hout as [(_ & Hend & _)|(Hrefused & _)].
        + pose proof (chunkStart_mono (S k) j). lia.
        + rewrite Hbefore in Hrefused by done. discriminate.
      - rewrite Hprev in Hbad by done. discriminate. }
    destruct Hout as [(Hok & _)|(_ & -> & _)]; [congruence|].
    rewrite Hreply in Hrun. cbn [chunkError] in Hrun.
    exists w'. eexists. split; [exact Hrun|]. split; [exact Htrace|].
    split; [exact Hputs | reflexivity].
  - intros Hacc Hnext.
    assert (acceptedReply (replyTo rm j) = true) as Hgood by (by rewrite Hreply).
    exists r, w'. eexists. exists (S k).
    split; [exact Hrun|]. split; [exact Htrace|].
    split; [exact Hputs|].
    destruct (Nat.lt_trichotomy k j) as [Hlt|[->|Hgt]]; [| |lia].
    + destruct Hout as [(_ & Hend & _)|(Hrefused & _)].
      * pose proof (chunkStart_mono (S k) j). lia.
      * rewrite Hbefore in Hrefused by done. discriminate.
    + destruct Hout as [(_ & Hend & _)|(Hrefused & _)]; [lia | congruence].
Qed.

Lemma chunk_response_acceptance_witness :
  ∃ w',
    uploadOne keepError (fixedStatusRemote 503) "b!drive" "VillageReconPhotos"
      {| File.name := Some "hall.jpg"; File.size := 12000000 |} "Hillsborough"
      emptyWorld =
    (Throw {| message := "Upload chunk failed: HTTP 503  body" |}, w').
Proof.
  destruct (chunk_response_acceptance keepError (fixedStatusRemote 503)
              "b!drive" "VillageReconPhotos"
              {| File.name := Some "hall.jpg"; File.size := 12000000 |}
              "Hillsborough" emptyWorld 0
              {| status := 503; statusText := ""; text := Some "body" |})
    as (_ & Hrefused & _).
  - vm_compute. reflexivity.
  - vm_compute. reflexivity.
  - intros i Hi. lia.
  - reflexivity.
  - destruct Hrefused as (w' & t & Hrun & _); [reflexivity|].
    exists w'. exact Hrun.
Defined.

(** * The record payload *)

Section Payload.

(** Every entry of the alias index is the internal name of a listed
    column. *)
Lemma index_values cols k v :
  byLower (getColumns cols) !! k = Some v →
  ∃ c, c ∈ cols ∧ Col.name c = Some v.
Proof.
  induction cols as [|c cols IH].
  { change (byLower (getColumns [])) with (∅ : gmap string string).
    by rewrite lookup_empty. }
  rewrite getColumns_cons, lookup_union_Some_raw.
  intros [H|[_ H]].
  - exists c. split; [left|]. by apply single_column_value in H as [? _].
  - destruct (IH H) as (c' & Hin & Hname). exists c'. split; [by right|done].
Qed.

Lemma chooseField_truthy byLower metaByName candidates rw n :
  chooseField byLower metaByName candidates rw = Some n → JS.truthy n = true.
Proof.
  induction candidates as [|cand rest IH]; [done|].
  rewrite chooseField_cons.
  destruct (usable byLower metaByName rw cand) as [h|] eqn:Hu; [|done].
  intros [= ->]. by apply usable_spec in Hu as (_ & Ht & _).
Qed.

(** With candidates that name no inherited member, a result is an own
    entry of the index. *)
Lemma chooseField_value byLower metaByName candidates rw n :
  Forall (fun cand => inherits (JS.toLowerCase cand) = false) candidates →
  chooseField byLower metaByName candidates rw = Some n →
  ∃ k, byLower !! k = Some n.
Proof.
  induction candidates as [|cand rest IH]; [done|].
  intros [Hcand Hrest]%Forall_cons. rewrite chooseField_cons.
  destruct (usable byLower metaByName rw cand) as [h|] eqn:Hu; [|by apply IH].
  intros [= ->]. apply usable_spec in Hu as (Hl & _ & _).
  exists (JS.toLowerCase cand). unfold lookupAlias in Hl.
  by rewrite readProp_own in Hl.
Qed.

Lemma orNull_chooseField byLower metaByName candidates rw :
  orNull (chooseField byLower metaByName candidates rw) =
    chooseField byLower metaByName candidates rw.
Proof.
  destruct (chooseField _ _ _ _) as [n|] eqn:E; [|done].
  apply chooseField_truthy in E. cbn. by rewrite E.
Qed.

Lemma dom_optional (v : option string) (x : string) (m : gmap string string) :
  dom (match v with Some n => <[n := x]> m | None => m end) = optKey v ∪ dom m.
Proof.
  destruct v as [n|]; cbn.
  - apply dom_insert_L.
  - by rewrite (left_id_L ∅ (∪)).
Qed.

End Payload.

(** The candidates [submit] passes name no inherited member. *)
Ltac own_candidates := repeat (constructor; [reflexivity|]); constructor.

(** C7, as stated, fails: when no listed column resolves for the title,
    [submit] falls back to the literal key "Title" and writes the title
    under it, although the listing has no column of that name. *)
Lemma title_fallback_not_confirmed :
  let cols := [textColumn "PhotoUrl" "Photo URL" false false] in
  let form := {| title := "Roof leak"; village := "Hillsborough"; notes := "";
                 capturedOn := "2024-01-05T13:07";
                 files := [{| File.name := Some "hall.jpg"; File.size := 1024 |}] |} in
  chooseField (byLower (getColumns cols)) (metaByName (getColumns cols))
    ["Title"] true = None ∧
  (∀ c, c ∈ cols → Col.name c ≠ Some "Title") ∧
  ∃ w' fields,
    submit keepError (fun v _ => v) (demoRemote cols 0) form
      "site" "list" "b!drive" emptyWorld = (Ok (), w') ∧
    last (calls w') = Some (POST "/sites/site/lists/list/items" (FieldsBody fields)) ∧
    fields !! "Title" = Some "Roof leak".
Proof.
  split; [vm_compute; reflexivity|]. split.
  - intros c Hc. apply list_elem_of_singleton in Hc as ->. discriminate.
  - eexists _, _. split; [vm_compute; reflexivity|].
    split; [vm_compute; reflexivity|]. vm_compute. reflexivity.
Qed.

(** C7, amended: the record [submit] creates has exactly these keys: the
    resolved title column, or the literal "Title" when none resolved; the
    resolved village, notes and captured-on columns, each only when it
    resolved; and the resolved photo column.  Every key other than the
    literal "Title" is the internal name of a column of the introspected
    listing. *)
Theorem submit_payload_keys (rewrapNetworkError : Error → string → Error)
    (formatDateTimeForSharePoint : string → string → string) (rm : Remote)
    (form : Form) (siteId listId driveId : string) (w w' : World) :
  submit rewrapNetworkError formatDateTimeForSharePoint rm form
    siteId listId driveId w = (Ok (), w') →
  let cols :=
    columnsOf rm ("/sites/" +:+ siteId +:+ "/lists/" +:+ listId +:+ "/columns") in
  let choose candidates :=
    chooseField (byLower (getColumns cols)) (metaByName (getColumns cols))
      candidates true in
  ∃ fields,
    last (calls w') =
      Some (POST ("/sites/" +:+ siteId +:+ "/lists/" +:+ listId +:+ "/items")
              (FieldsBody fields)) ∧
    dom fields =
      optKey (choose ["PhotoUrl"; "PhotoUrL"; "Photo URL"; "Photo_Url"]) ∪
      (optKey (choose ["CapturedOn"; "Captured On"; "Captured_On"]) ∪
       (optKey (choose ["Notes"; "Note"; "Description"]) ∪
        (optKey (choose ["Village"]) ∪
         {[ orDefault (choose ["Title"]) "Title" ]}))) ∧
    is_Some (choose ["PhotoUrl"; "PhotoUrL"; "Photo URL"; "Photo_Url"]) ∧
    (∀ k, k ∈ dom fields →
          k = "Title" ∨ ∃ c, c ∈ cols ∧ Col.name c = Some k).
Proof.
  intros Hrun cols choose.
  unfold submit, bind, sgraph_getColumns in Hrun. cbv beta zeta in Hrun.
  destruct (listError rm _) as [e|]; [discriminate|].
  fold cols in Hrun. rewrite !orNull_chooseField in Hrun.
  fold (choose ["Village"]) (choose ["Title"])
       (choose ["Notes"; "Note"; "Description"])
       (choose ["CapturedOn"; "Captured On"; "Captured_On"])
       (choose ["PhotoUrl"; "PhotoUrL"; "Photo URL"; "Photo_Url"]) in Hrun.
  destruct (choose ["PhotoUrl"; "PhotoUrL"; "Photo URL"; "Photo_Url"])
    as [photo|] eqn:Hphoto; [|discriminate].
  destruct (uploadAll _ _ _ _ _ _) as [[uploaded|e|] w2]; [|discriminate..].
  unfold createListItem, sgraph_post in Hrun.
  destruct (listError rm _) as [e|]; [discriminate|].
  injection Hrun as <-.
  eexists. split; [apply last_snoc|].
  assert (∀ cands n,
            Forall (fun cand => inherits (JS.toLowerCase cand) = false) cands →
            choose cands = Some n → ∃ c, c ∈ cols ∧ Col.name c = Some n)
    as Hconfirmed.
  { intros cands n Hown Hn. apply chooseField_value in Hn as (k & Hk); [|done].
    by apply index_values in Hk. }
  split; [|split; [by eexists|]].
  - rewrite dom_insert_L, !dom_optional, dom_insert_L, dom_empty_L.
    by rewrite (right_id_L ∅ (∪)).
  - intros k.
    rewrite dom_insert_L, !dom_optional, dom_insert_L, dom_empty_L.
    rewrite (right_id_L ∅ (∪)), !elem_of_union, !elem_of_singleton.
    intros [-> | [Hk | [Hk | [Hk | ->]]]].
    + right. eapply Hconfirmed; [|exact Hphoto]. own_candidates.
    + destruct (choose ["CapturedOn"; "Captured On"; "Captured_On"]) as [n|] eqn:E;
        cbn [optKey] in Hk; [|by apply not_elem_of_empty in Hk].
      apply elem_of_singleton in Hk as ->. right.
      eapply Hconfirmed; [|exact E]. own_candidates.
    + destruct (choose ["Notes"; "Note"; "Description"]) as [n|] eqn:E;
        cbn [optKey] in Hk; [|by apply not_elem_of_empty in Hk].
      apply elem_of_singleton in Hk as ->. right.
      eapply Hconfirmed; [|exact E]. own_candidates.
    + destruct (choose ["Village"]) as [n|] eqn:E;
        cbn [optKey] in Hk; [|by apply not_elem_of_empty in Hk].
      apply elem_of_singleton in Hk as ->. right.
      eapply Hconfirmed; [|exact E]. own_candidates.
    + destruct (choose ["Title"]) as [n|] eqn:E; [|by left].
      right. cbn [orDefault]. unfold JS.orElse.
      rewrite (chooseField_truthy _ _ _ _ _ E).
      eapply Hconfirmed; [|exact E]. own_candidates.
Qed.

Lemma submit_payload_keys_witness :
  ∃ fields,
    last (calls (snd (submit keepError (fun v _ => v) (demoRemote demoColumns 0)
                        demoForm "site" "list" "b!drive" emptyWorld))) =
      Some (POST "/sites/site/lists/list/items" (FieldsBody fields)) ∧
    dom fields = {[ "PhotoUrl" ]} ∪ (∅ ∪ (∅ ∪ ({[ "Village" ]} ∪ {[ "Title" ]}))).
Proof.
  destruct (submit_payload_keys keepError (fun v _ => v) (demoRemote demoColumns 0)
              demoForm "site" "list" "b!drive" emptyWorld
              (snd (submit keepError (fun v _ => v) (demoRemote demoColumns 0)
                      demoForm "site" "list" "b!drive" emptyWorld)))
    as (fields & Hlast & Hdom & _ & _).
  - vm_compute. reflexivity.
  - exists fields. split; [exact Hlast|]. rewrite Hdom.
    vm_compute. reflexivity.
Defined.

(** * Further properties *)

(** ** Utilities *)

Section StripEnds.

Lemma dropWhile_split p l :
  ∃ a, l = a ++ JS.dropWhile p l ∧ Forall (fun c => p c = true) a.
Proof.
  induction l as [|c l (a & Hl & Ha)]; [by exists []|].
  cbn. destruct (p c) eqn:Hc.
  - exists (c :: a). split; [by rewrite Hl at 1 | by constructor].
  - by exists [].
Qed.

Lemma dropWhileEnd_split p l :
  ∃ b, l = JS.dropWhileEnd p l ++ b ∧ Forall (fun c => p c = true) b.
Proof.
  unfold JS.dropWhileEnd.
  destruct (dropWhile_split p (rev l)) as (a & Hl & Ha).
  exists (rev a). split.
  - apply (f_equal (@rev ascii)) in Hl.
    by rewrite rev_involutive, rev_app_distr in Hl.
  - apply Forall_forall. intros c Hc%list_elem_of_In%in_rev%list_elem_of_In.
    by eapply Forall_forall in Ha.
Qed.

Lemma dropWhileEnd_last p l c :
  last (JS.dropWhileEnd p l) = Some c → p c = false.
Proof.
  unfold JS.dropWhileEnd.
  destruct (JS.dropWhile p (rev l)) as [|x k] eqn:E; [done|].
  cbn [rev]. rewrite last_snoc. intros [= <-].
  by apply dropWhile_head in E.
Qed.

(** [stripEnds] cuts a run of the class off each end and nothing else. *)
Lemma stripEnds_split p l :
  ∃ a b, l = a ++ JS.stripEnds p l ++ b ∧
         Forall (fun c => p c = true) a ∧ Forall (fun c => p c = true) b.
Proof.
  destruct (dropWhile_split p l) as (a & Hl & Ha).
  destruct (dropWhileEnd_split p (JS.dropWhile p l)) as (b & Hb & Hfb).
  exists a, b. unfold JS.stripEnds. by rewrite <- Hb.
Qed.

Lemma stripEnds_edges p l :
  (∀ c, head (JS.stripEnds p l) = Some c → p c = false) ∧
  (∀ c, last (JS.stripEnds p l) = Some c → p c = false).
Proof.
  split; intros c Hc.
  - destruct (JS.stripEnds p l) as [|x k] eqn:E; [done|].
    injection Hc as <-. by apply stripEnds_head in E.
  - by apply dropWhileEnd_last in Hc.
Qed.

End StripEnds.

(** [trimSlashes] removes the slashes at the two ends and nothing else:
    its result has no slash at either end, the input is the result
    between two runs of slashes, and trimming twice changes nothing. *)
Theorem trimSlashes_spec (s : string) :
  noEdgeSlash (trimSlashes s) ∧
  trimSlashes (trimSlashes s) = trimSlashes s ∧
  ∃ a b, JS.chars s = a ++ JS.chars (trimSlashes s) ++ b ∧
         allChar "/" a ∧ allChar "/" b.
Proof.
  assert (noEdgeSlash (trimSlashes s)) as Hedge.
  { unfold noEdgeSlash, trimSlashes. rewrite chars_onChars.
    destruct (stripEnds_edges (JS.isChar "/") (JS.chars s)) as [Hh Hl].
    split; intros H; [apply Hh in H | apply Hl in H]; by vm_compute in H. }
  split; [done|]. split; [by apply trimSlashes_id|].
  destruct (stripEnds_split (JS.isChar "/") (JS.chars s)) as (a & b & Hs & Ha & Hb).
  exists a, b. unfold trimSlashes at 1. rewrite chars_onChars.
  split; [done|].
  split; (eapply Forall_impl; [eassumption|]); intros c Hc; by apply isChar_eq.
Qed.

(** [normalizeRedirectUri] returns the empty string for a missing or empty
    value and otherwise the value itself or the value with one slash
    added, whichever ends in a slash; applying it again changes nothing. *)
Theorem normalizeRedirectUri_spec (v : option string) :
  let s := toStr v "" in
  let r := normalizeRedirectUri v in
  (r = "" ↔ s = "") ∧
  (r = "" ∨ endsWithSlash r = true) ∧
  (r = s ∨ (endsWithSlash s = false ∧ r = s +:+ "/")) ∧
  normalizeRedirectUri (Some r) = r.
Proof.
  intros s r. subst r. unfold normalizeRedirectUri. fold s.
  assert (∀ t, endsWithSlash (t +:+ "/") = true) as Hadd.
  { intros t. unfold endsWithSlash. rewrite chars_app.
    change (JS.chars "/") with ["/"%char]. by rewrite last_snoc. }
  destruct (JS.truthy s) eqn:Hs; cbn [negb].
  - destruct (endsWithSlash s) eqn:He.
    + split; [|split; [by right|split; [by left|]]].
      * split; [done|]. intros ->. done.
      * cbn [toStr]. by rewrite Hs, He.
    + split; [|split; [right; apply Hadd|split; [by right|]]].
      * split; [|by intros ->].
        intros H. apply (f_equal JS.chars) in H. rewrite chars_app in H.
        by apply app_eq_nil in H as [_ H].
      * cbn [toStr].
        assert (JS.truthy (s +:+ "/") = true) as ->.
        { apply truthy_chars. rewrite chars_app. by destruct (JS.chars s). }
        by rewrite Hadd.
  - apply falsy_empty in Hs. rewrite Hs.
    split; [done|]. split; [by left|]. split; [by left|done].
Qed.

Section Guid.

Lemma hexRun_spec n : ∀ l l',
  hexRun n l = Some l' ↔ ∃ h, hexGroup n h ∧ l = h ++ l'.
Proof.
  induction n as [|n IH]; intros l l'; cbn [hexRun].
  - split.
    + intros [= ->]. exists []. by repeat split.
    + intros (h & [Hlen _] & ->). by destruct h.
  - destruct l as [|c l].
    + split; [done|]. intros (h & [Hlen _] & Hl). by destruct h.
    + destruct (isHex c) eqn:Hc.
      * rewrite IH. split.
        -- intros (h & [Hlen Hh] & ->). exists (c :: h).
           repeat split; [by cbn; rewrite Hlen | by constructor].
        -- intros (h & [Hlen Hh] & Hl). destruct h as [|x h]; [done|].
           injection Hl as <- ->. apply Forall_cons in Hh as [_ Hh].
           exists h. repeat split; [by injection Hlen | done].
      * split; [done|]. intros (h & [Hlen Hh] & Hl).
        destruct h as [|x h]; [done|]. injection Hl as <- _.
        apply Forall_cons in Hh as [Hx _]. congruence.
Qed.

Lemma optChar_split x l : ∃ o, optionalChar x o ∧ l = o ++ optChar x l.
Proof.
  destruct l as [|c l]; [exists []; by split; [left|]|].
  cbn. destruct (JS.isChar x c) eqn:Hc.
  - apply isChar_eq in Hc as ->. exists [x]. by split; [right|].
  - exists []. by split; [left|].
Qed.

(** Before a hexadecimal digit an optional literal that is not one is
    either taken or absent. *)
Lemma optChar_skip x o h rest :
  isHex x = false → optionalChar x o → Forall (fun c => isHex c = true) h →
  h ≠ [] → optChar x (o ++ h ++ rest) = h ++ rest.
Proof.
  intros Hx [-> | ->] Hh Hne.
  - destruct h as [|c h]; [done|]. cbn.
    apply Forall_cons in Hh as [Hc _].
    destruct (JS.isChar x c) eqn:E; [|done].
    apply isChar_eq in E as ->. congruence.
  - cbn. assert (JS.isChar x x = true) as -> by by apply isChar_eq. done.
Qed.

Lemma hexGroup_nonempty n h : hexGroup (S n) h → h ≠ [].
Proof. intros [Hlen _] ->. done. Qed.

End Guid.

(** [isGuid] accepts exactly the strings of the shape
    [{]8 hex[-]4 hex[-]4 hex[-]4 hex[-]12 hex[}], where every brace and
    every hyphen may be left out independently of the others. *)
Theorem isGuid_shape (s : string) : isGuid s = true ↔ guidShape s.
Proof.
  unfold isGuid, guidShape. split.
  - destruct (optChar_split "{" (JS.chars s)) as (b1 & Hb1 & Hs).
    destruct (hexRun 8 _) as [l1|] eqn:E1; [|done].
    apply hexRun_spec in E1 as (h1 & Hh1 & E1).
    destruct (optChar_split "-" l1) as (d1 & Hd1 & Hl1).
    destruct (hexRun 4 (optChar "-" l1)) as [l2|] eqn:E2; [|done].
    apply hexRun_spec in E2 as (h2 & Hh2 & E2).
    destruct (optChar_split "-" l2) as (d2 & Hd2 & Hl2).
    destruct (hexRun 4 (optChar "-" l2)) as [l3|] eqn:E3; [|done].
    apply hexRun_spec in E3 as (h3 & Hh3 & E3).
    destruct (optChar_split "-" l3) as (d3 & Hd3 & Hl3).
    destruct (hexRun 4 (optChar "-" l3)) as [l4|] eqn:E4; [|done].
    apply hexRun_spec in E4 as (h4 & Hh4 & E4).
    destruct (optChar_split "-" l4) as (d4 & Hd4 & Hl4).
    destruct (hexRun 12 (optChar "-" l4)) as [l5|] eqn:E5; [|done].
    apply hexRun_spec in E5 as (h5 & Hh5 & E5).
    destruct (optChar_split "}" l5) as (b2 & Hb2 & Hl5).
    destruct (optChar "}" l5) eqn:E6; [|done]. intros _.
    exists b1, h1, d1, h2, d2, h3, d3, h4, d4, h5, b2.
    split; [|repeat (split; [assumption|]); assumption].
    rewrite Hs, E1, Hl1, E2, Hl2, E3, Hl3, E4, Hl4, E5, Hl5.
    by rewrite !app_nil_r.
  - intros (b1 & h1 & d1 & h2 & d2 & h3 & d3 & h4 & d4 & h5 & b2 & Hs &
            Hb1 & Hh1 & Hd1 & Hh2 & Hd2 & Hh3 & Hd3 & Hh4 & Hd4 & Hh5 & Hb2).
    rewrite Hs.
    rewrite (optChar_skip "{" b1 h1) by
      first [reflexivity | assumption | exact (proj2 Hh1)
            | exact (hexGroup_nonempty _ _ Hh1)].
    rewrite (proj2 (hexRun_spec 8 _ _)) by (exists h1; by split).
    rewrite (optChar_skip "-" d1 h2) by
      first [reflexivity | assumption | exact (proj2 Hh2)
            | exact (hexGroup_nonempty _ _ Hh2)].
    rewrite (proj2 (hexRun_spec 4 _ _)) by (exists h2; by split).
    rewrite (optChar_skip "-" d2 h3) by
      first [reflexivity | assumption | exact (proj2 Hh3)
            | exact (hexGroup_nonempty _ _ Hh3)].
    rewrite (proj2 (hexRun_spec 4 _ _)) by (exists h3; by split).
    rewrite (optChar_skip "-" d3 h4) by
      first [reflexivity | assumption | exact (proj2 Hh4)
            | exact (hexGroup_nonempty _ _ Hh4)].
    rewrite (proj2 (hexRun_spec 4 _ _)) by (exists h4; by split).
    rewrite (optChar_skip "-" d4 h5) by
      first [reflexivity | assumption | exact (proj2 Hh5)
            | exact (hexGroup_nonempty _ _ Hh5)].
    rewrite (proj2 (hexRun_spec 12 _ _)) by (exists h5; by split).
    by destruct Hb2 as [-> | ->].
Qed.


(** ** Resource resolver *)

Section Searching.

Lemma isPrefixL_spec p l : isPrefixL p l = true ↔ ∃ b, l = p ++ b.
Proof.
  revert l. induction p as [|x p IH]; intros l; cbn.
  - split; [by exists l | done].
  - destruct l as [|c l].
    + split; [done | by intros (b & ?)].
    + rewrite andb_true_iff, bool_decide_eq_true, IH. split.
      * intros [-> (b & ->)]. by exists b.
      * intros (b & [= -> ->]). split; [done | by exists b].
Qed.

(** [includes] finds exactly the contiguous occurrences. *)
Lemma includesL_spec p l : includesL p l = true ↔ ∃ a b, l = a ++ p ++ b.
Proof.
  induction l as [|c l IH]; cbn [includesL]; rewrite orb_true_iff, isPrefixL_spec.
  - split.
    + intros [(b & H)|H]; [|done]. by exists [], b.
    + intros (a & b & H). left. destruct a; [by exists b|done].
  - rewrite IH. split.
    + intros [(b & H)|(a & b & ->)]; [by exists [], b | by exists (c :: a), b].
    + intros (a & b & H). destruct a as [|x a].
      * left. by exists b.
      * right. injection H as -> ->. by exists a, b.
Qed.

Lemma find_firstWith {A} (f : A → bool) (l : list A) (d : A) :
  find f l = Some d ↔ firstWith f l d.
Proof.
  unfold firstWith. induction l as [|x l IH]; cbn [find].
  - split; [done|]. intros (pre & post & H & _). by destruct pre.
  - destruct (f x) eqn:Hx.
    + split.
      * intros [= ->]. exists [], l. by repeat split.
      * intros (pre & post & H & Hpre & Hd). destruct pre as [|y pre].
        -- by injection H as ->.
        -- injection H as -> _. apply Forall_cons in Hpre as [Hy _]. congruence.
    + rewrite IH. split.
      * intros (pre & post & -> & Hpre & Hd). exists (x :: pre), post.
        repeat split; [by constructor | done].
      * intros (pre & post & H & Hpre & Hd). destruct pre as [|y pre].
        -- injection H as -> _. congruence.
        -- injection H as -> ->. apply Forall_cons in Hpre as [_ Hpre].
           by exists pre, post.
Qed.

Lemma find_none_Forall {A} (f : A → bool) (l : list A) :
  find f l = None ↔ Forall (fun x => f x = false) l.
Proof.
  induction l as [|x l IH]; cbn [find]; [by split; [constructor|]|].
  destruct (f x) eqn:Hx.
  - split; [done|]. intros [? _]%Forall_cons. congruence.
  - rewrite IH. split; [by constructor | by intros [_ ?]%Forall_cons].
Qed.

Lemma firstWith_elem {A} (f : A → bool) (l : list A) (d : A) :
  firstWith f l d → d ∈ l.
Proof. intros (pre & post & -> & _). apply elem_of_app. right. left. Qed.

End Searching.

Section Quotes.

Lemma doubleQuotes_chars s :
  JS.chars (doubleQuotes s) =
    flat_map (fun c => if JS.isChar "'" c then [c; c] else [c]) (JS.chars s).
Proof. apply chars_onChars. Qed.

Lemma doubleQuotesL_inj (a b : list ascii) :
  flat_map (fun c => if JS.isChar "'" c then [c; c] else [c]) a =
  flat_map (fun c => if JS.isChar "'" c then [c; c] else [c]) b → a = b.
Proof.
  revert b. induction a as [|x a IH]; intros [|y b]; cbn [flat_map].
  - done.
  - by destruct (JS.isChar "'" y).
  - by destruct (JS.isChar "'" x).
  - destruct (JS.isChar "'" x) eqn:Hx, (JS.isChar "'" y) eqn:Hy; cbn.
    + intros [= -> H]. f_equal. by apply IH.
    + intros [= -> H]. f_equal. congruence.
    + intros [= -> H]. congruence.
    + intros [= -> H]. f_equal. by apply IH.
Qed.

Lemma doubleQuotesL_paired (a : list ascii) :
  quotesPaired (flat_map (fun c => if JS.isChar "'" c then [c; c] else [c]) a).
Proof.
  induction a as [|x a IH]; cbn [flat_map]; [constructor|].
  destruct (JS.isChar "'" x) eqn:Hx; cbn.
  - apply isChar_eq in Hx as ->. by constructor.
  - constructor; [|done]. intros ->. by vm_compute in Hx.
Qed.

End Quotes.

(** [resolveListId] returns an identifier-shaped input as it is, without
    any call.  For a display name it makes exactly one read, of the lists
    filtered by that name, and returns the identifier of the first list
    found or fails with "not found"; in the filter the single quotes of
    the name are doubled, so they come in pairs, and two different names
    never give the same request. *)
Theorem resolveListId_spec (rewrapNetworkError : Error → string → Error)
    (dir : Directory) (siteId idOrName : string) (w : World) :
  (isGuid idOrName = true →
   resolveListId rewrapNetworkError dir siteId idOrName w = (Ok idOrName, w)) ∧
  (isGuid idOrName = false →
   resolveListId rewrapNetworkError dir siteId idOrName w =
     (match listsReply dir (listsPath siteId idOrName) with
      | Ok (found :: _) => Ok (SpList.id found)
      | Ok [] => Throw {| message := "List '" +:+ idOrName +:+ "' not found in site." |}
      | Throw e => Throw (rewrapNetworkError e (listsPath siteId idOrName))
      | OutOfFuel => OutOfFuel
      end,
      record (GET (listsPath siteId idOrName)) w)) ∧
  quotesPaired (JS.chars (doubleQuotes idOrName)) ∧
  (∀ other, listsPath siteId other = listsPath siteId idOrName → other = idOrName).
Proof.
  split; [|split; [|split]].
  - intros Hg. unfold resolveListId. by rewrite Hg.
  - intros Hg. unfold resolveListId. rewrite Hg.
    fold (listsPath siteId idOrName).
    unfold bind, sgraph_read.
    destruct (listsReply dir (listsPath siteId idOrName)) as [[|found lists]|e|]; done.
  - rewrite doubleQuotes_chars. apply doubleQuotesL_paired.
  - intros other H. unfold listsPath in H.
    apply (f_equal JS.chars) in H. rewrite !chars_app in H.
    do 3 apply app_inv_head in H. apply app_inv_tail in H.
    rewrite !doubleQuotes_chars in H.
    apply chars_inj. by apply doubleQuotesL_inj.
Qed.

(** [resolveDriveId] reads the drive listing exactly once, also for an
    identifier-shaped input, and fails when that read fails.  Otherwise
    an identifier-shaped input is returned as it is; a name resolves to
    the first drive of that name (compared in lower case), before any
    document library listed earlier; without such a drive to the first
    document library; and without either the call fails. *)
Theorem resolveDriveId_spec (rewrapNetworkError : Error → string → Error)
    (decodeURIComponent : string → Result string) (dir : Directory)
    (siteId idOrName : string) (w : World) :
  ∃ r,
    resolveDriveId rewrapNetworkError decodeURIComponent dir siteId idOrName w =
      (r, record (GET (drivesPath siteId)) w) ∧
    (∀ e, drivesReply dir (drivesPath siteId) = Throw e →
          r = Throw (rewrapNetworkError e (drivesPath siteId))) ∧
    (∀ drives, drivesReply dir (drivesPath siteId) = Ok drives →
       (isGuid idOrName = true → r = Ok idOrName) ∧
       (∀ decoded, isGuid idOrName = false → decodeURIComponent idOrName = Ok decoded →
          (∀ d, firstWith (driveNamed (JS.toLowerCase decoded)) drives d →
                r = Ok (Drive.id d)) ∧
          (Forall (fun d => driveNamed (JS.toLowerCase decoded) d = false) drives →
           (∀ d, firstWith isDocumentLibrary drives d → r = Ok (Drive.id d)) ∧
           (Forall (fun d => isDocumentLibrary d = false) drives →
            ∃ e, r = Throw e)))).
Proof.
  destruct (resolveDriveId rewrapNetworkError decodeURIComponent dir siteId idOrName w)
    as [r w'] eqn:Hrun.
  exists r. unfold resolveDriveId, bind, sgraph_read in Hrun.
  fold (drivesPath siteId) in Hrun. set (path := drivesPath siteId) in *.
  destruct (drivesReply dir path) as [drives|e|] eqn:Hreply.
  - assert (w' = record (GET path) w ∧
            (isGuid idOrName = true → r = Ok idOrName) ∧
            (∀ decoded, isGuid idOrName = false →
               decodeURIComponent idOrName = Ok decoded →
               r = match find (driveNamed (JS.toLowerCase decoded)) drives with
                   | Some found => Ok (Drive.id found)
                   | None =>
                       match find isDocumentLibrary drives with
                       | Some found => Ok (Drive.id found)
                       | None =>
                           Throw {| message :=
                             "Drive '" +:+ idOrName +:+ "' not found. Available: " +:+
                             String.concat ", "
                               (map (fun d => toStr (Drive.name d) "") drives) |}
                       end
                   end)) as (Hw & Hguid & Hname).
    { destruct (isGuid idOrName).
      - injection Hrun as <- <-. by repeat split.
      - destruct (decodeURIComponent idOrName) as [decoded|e|];
          [|injection Hrun as <- <-; by repeat split..].
        destruct (find (driveNamed _) drives) as [found|] eqn:Hnamed;
          [injection Hrun as <- <-; repeat split; try done;
           intros ? _ [= <-]; by rewrite Hnamed|].
        destruct (find isDocumentLibrary drives) as [found|] eqn:Hlib;
          injection Hrun as <- <-; repeat split; try done;
          intros ? _ [= <-]; by rewrite Hnamed. }
    split; [by rewrite Hw|]. split; [done|].
    intros ? [= <-]. split; [done|].
    intros decoded Hg Hdec. specialize (Hname decoded Hg Hdec). split.
    + intros d Hd%find_firstWith. by rewrite Hd in Hname.
    + intros Hnone%find_none_Forall. rewrite Hnone in Hname. split.
      * intros d Hd%find_firstWith. by rewrite Hd in Hname.
      * intros Hnolib%find_none_Forall. rewrite Hnolib in Hname. by eexists.
  - injection Hrun as <- <-. split; [done|]. split; [by intros ? [= <-]|done].
  - injection Hrun as <- <-. by repeat split.
Qed.


Section Discovery.

Variable rewrapNetworkError : Error → string → Error.
Variable dir : Directory.
Variable cfg : Config.

Lemma find_elem {A} (f : A → bool) (l : list A) (d : A) : find f l = Some d → d ∈ l.
Proof. intros H%find_firstWith. by eapply firstWith_elem. Qed.

(** The search step of [getSiteId], whatever error led to it. *)
Lemma discover_spec (w : World) :
  ∃ r,
    (let searchTerm :=
       JS.orElse (JS.orElse (lastSegment cfg) (spSitePath cfg)) (spSiteHostname cfg) in
     let! candidates :=
       sgraph_read rewrapNetworkError (searchReply dir)
         ("/sites?search=" +:+ encodeURIComponent searchTerm) in
     match candidates with
     | [] =>
         throw {| message :=
           "Could not discover site. Verify spSiteHostname ('" +:+ spSiteHostname cfg +:+
           "') and spSitePath ('" +:+ spSitePath cfg +:+ "')." |}
     | first :: _ =>
         let pathLower := JS.toLowerCase (spSitePath cfg) in
         let hostLower := JS.toLowerCase (spSiteHostname cfg) in
         let chosen :=
           match find (siteMatchesBoth pathLower hostLower) candidates with
           | Some s => s
           | None =>
               match find (siteMatchesPath pathLower) candidates with
               | Some s => s
               | None => first
               end
           end in
         ret (Site.id chosen)
     end) w = (r, record (GET (searchSitePath cfg)) w) ∧
    siteDiscovered rewrapNetworkError dir cfg r.
Proof.
  cbv zeta. unfold bind, sgraph_read, siteDiscovered. fold (searchSitePath cfg).
  destruct (searchReply dir (searchSitePath cfg)) as [[|first rest]|e|].
  - eexists. split; [reflexivity|]. split; [done|]. split; [by eexists | done].
  - set (cands := first :: rest).
    set (both := siteMatchesBoth _ _). set (onPath := siteMatchesPath _).
    eexists. split; [reflexivity|]. split; [done|]. split; [done|].
    intros ? ? [= <- <-]. fold cands. eexists. split; [reflexivity|].
    destruct (find both cands) as [s|] eqn:Hboth.
    + split; [by eapply find_elem|]. split.
      * intros s' Hs'%find_firstWith. congruence.
      * intros Hnone%find_none_Forall. congruence.
    + destruct (find onPath cands) as [s|] eqn:Hpath.
      * split; [by eapply find_elem|]. split.
        -- intros s' Hs'%find_firstWith. congruence.
        -- intros _. split.
           ++ intros s' Hs'%find_firstWith. congruence.
           ++ intros Hnone%find_none_Forall. congruence.
      * split; [left|]. split.
        -- intros s' Hs'%find_firstWith. congruence.
        -- intros _. split; [|done].
           intros s' Hs'%find_firstWith. congruence.
  - eexists. split; [reflexivity|]. split; [by intros ? [= <-]|]. by split.
  - eexists. split; [reflexivity|]. by repeat split.
Qed.

End Discovery.

(** [getSiteId] only reads.  With a host and a path configured and the
    direct lookup answered, it returns that site after this one read.
    When the direct lookup fails, or the host or the path is empty (then
    the direct lookup is not even made), it searches once and picks among
    the candidates: a candidate matching path and host before one
    matching the path only, and that before the first candidate; the
    site returned is always one of the candidates, and an empty or failed
    search is an error. *)
Theorem getSiteId_spec (rewrapNetworkError : Error → string → Error)
    (dir : Directory) (cfg : Config) (w : World) :
  ∃ r w',
    getSiteId rewrapNetworkError dir cfg w = (r, w') ∧
    items w' = items w ∧
    (∀ site, JS.truthy (spSiteHostname cfg) = true → JS.truthy (spSitePath cfg) = true →
       siteReply dir (directSitePath cfg) = Ok site →
       r = Ok (Site.id site) ∧ calls w' = calls w ++ [GET (directSitePath cfg)]) ∧
    (∀ e, JS.truthy (spSiteHostname cfg) = true → JS.truthy (spSitePath cfg) = true →
       siteReply dir (directSitePath cfg) = Throw e →
       calls w' = calls w ++ [GET (directSitePath cfg); GET (searchSitePath cfg)] ∧
       siteDiscovered rewrapNetworkError dir cfg r) ∧
    (JS.truthy (spSiteHostname cfg) = false ∨ JS.truthy (spSitePath cfg) = false →
       calls w' = calls w ++ [GET (searchSitePath cfg)] ∧
       siteDiscovered rewrapNetworkError dir cfg r).
Proof.
  unfold getSiteId. cbv zeta. fold (directSitePath cfg). unfold tryCatch.
  destruct (JS.truthy (spSiteHostname cfg)) eqn:Hhost;
    [destruct (JS.truthy (spSitePath cfg)) eqn:Hpath|]; cbn [negb orb].
  - unfold bind at 1, sgraph_read at 1.
    destruct (siteReply dir (directSitePath cfg)) as [site|e|] eqn:Hdirect.
    + eexists _, _. split; [reflexivity|]. split; [done|]. split.
      * by intros ? _ _ [= <-].
      * split; [done|]. by intros [|].
    + destruct (discover_spec rewrapNetworkError dir cfg
                  (record (GET (directSitePath cfg)) w)) as (r & Hrun & Hr).
      cbv zeta in Hrun. rewrite Hrun. eexists _, _. split; [reflexivity|].
      split; [done|]. split; [done|]. split.
      * intros ? _ _ _. split; [|done]. cbn. by rewrite <- app_assoc.
      * by intros [|].
    + eexists _, _. split; [reflexivity|]. split; [done|]. split; [done|].
      split; [done|]. by intros [|].
  - unfold throw at 1.
    destruct (discover_spec rewrapNetworkError dir cfg w) as (r & Hrun & Hr).
    cbv zeta in Hrun. rewrite Hrun. eexists _, _. split; [reflexivity|].
    split; [done|]. split; [done|]. split; [done|]. by intros _.
  - unfold throw at 1.
    destruct (discover_spec rewrapNetworkError dir cfg w) as (r & Hrun & Hr).
    cbv zeta in Hrun. rewrite Hrun. eexists _, _. split; [reflexivity|].
    split; [done|]. split; [done|]. split; [done|]. by intros _.
Qed.


(** ** Network errors *)

(** [rewrapNetworkError] tests the message of the error, or its name
    when the message is empty.  It rewraps exactly the errors whose text
    contains, in any letter case, one of "Failed to fetch",
    "NetworkError", "TypeError", "Load failed" and "ERR_NETWORK"; any
    other error is returned as it is.  A rewrapped error is a plain
    [Error] whose message quotes the original text and then names the
    endpoint. *)
Theorem rewrapNetworkError_spec (host path : string) (origin : option string)
    (separator : string) (err : Net.Thrown) (contextPath : string) :
  Net.text err =
    (if JS.truthy (Net.message err) then Net.message err else Net.name err) ∧
  (Net.isNetwork (Net.text err) = true ↔
   ∃ marker before after,
     marker ∈ ["Failed to fetch"; "NetworkError"; "TypeError"; "Load failed";
               "ERR_NETWORK"] ∧
     JS.chars (JS.toLowerCase (Net.text err)) =
       before ++ JS.chars (JS.toLowerCase marker) ++ after) ∧
  (Net.isNetwork (Net.text err) = false →
   Net.rewrapNetworkError host path origin separator err contextPath = err) ∧
  (Net.isNetwork (Net.text err) = true →
   Net.name (Net.rewrapNetworkError host path origin separator err contextPath) =
     "Error" ∧
   ∃ hints,
     Net.message (Net.rewrapNetworkError host path origin separator err contextPath) =
       "Network/CORS issue when calling Graph. Original: " +:+ Net.text err +:+
       separator +:+ "Endpoint: " +:+ contextPath +:+ separator +:+ hints).
Proof.
  split; [|split; [|split]].
  - unfold Net.text, Net.toString.
    destruct (JS.truthy (Net.message err)) eqn:Hm; [done|]. cbn [negb].
    destruct (JS.truthy (Net.name err)) eqn:Hn; cbn [negb]; [done|].
    by rewrite (falsy_empty _ Hm), (falsy_empty _ Hn).
  - unfold Net.isNetwork. rewrite existsb_exists. split.
    + intros (m & Hm & Hinc). apply includesL_spec in Hinc as (a & b & Hab).
      exists m, a, b. split; [by apply list_elem_of_In | done].
    + intros (m & a & b & Hm & Hab). exists m. split; [by apply list_elem_of_In|].
      apply includesL_spec. by exists a, b.
  - intros Hn. unfold Net.rewrapNetworkError. by rewrite Hn.
  - intros Hn. unfold Net.rewrapNetworkError. rewrite Hn.
    cbn [negb String.concat Net.message Net.name]. split; [done|]. eexists.
    rewrite !append_assoc. reflexivity.
Qed.

(** ** File picker *)

Section Keys.

Lemma split_at_first {A} (c : A) (x y r r' : list A) :
  c ∉ x → c ∉ y → x ++ c :: r = y ++ c :: r' → x = y ∧ r = r'.
Proof.
  revert y. induction x as [|a x IH]; intros [|b y] Hx Hy H.
  - by injection H as ->.
  - injection H as -> _. exfalso. apply Hy. left.
  - injection H as -> _. exfalso. apply Hx. left.
  - injection H as -> H. apply not_elem_of_cons in Hx as [_ Hx].
    apply not_elem_of_cons in Hy as [_ Hy].
    destruct (IH y Hx Hy H) as [-> ->]. done.
Qed.

(** The last separator of a text whose tail has no colon is found from
    the right. *)
Lemma split_at_last (a b x y : list ascii) :
  ":"%char ∉ x → ":"%char ∉ y →
  a ++ JS.chars "::" ++ x = b ++ JS.chars "::" ++ y → a = b ∧ x = y.
Proof.
  intros Hx Hy H. apply (f_equal (@rev ascii)) in H.
  rewrite !rev_app_distr in H. cbn in H. rewrite <- !app_assoc in H. cbn in H.
  apply split_at_first in H as [Hxy H];
    [|by rewrite list_elem_of_In, <- in_rev, <- list_elem_of_In..].
  injection H as H. split; by apply rev_inj.
Qed.

Lemma uint_no_colon d : ":"%char ∉ JS.chars (NilEmpty.string_of_uint d).
Proof.
  induction d; cbn; [apply not_elem_of_nil|..];
    (apply not_elem_of_cons; split; [discriminate | assumption]).
Qed.

Lemma ofN_no_colon n : ":"%char ∉ JS.chars (JS.ofN n).
Proof.
  unfold JS.ofN, NilZero.string_of_uint. destruct (N.to_uint n) eqn:E;
    try (rewrite <- E; apply uint_no_colon).
  cbn. apply not_elem_of_cons. split; [discriminate | apply not_elem_of_nil].
Qed.

Lemma ofZ_no_colon z : ":"%char ∉ JS.chars (JS.ofZ z).
Proof.
  assert (∀ d, ":"%char ∉ JS.chars (NilZero.string_of_uint d)) as Hu.
  { intros d. unfold NilZero.string_of_uint. destruct d eqn:E;
      try (rewrite <- E; apply uint_no_colon).
    cbn. apply not_elem_of_cons. split; [discriminate | apply not_elem_of_nil]. }
  unfold JS.ofZ, NilZero.string_of_int. destruct (Z.to_int z); [apply Hu|].
  cbn. apply not_elem_of_cons. split; [discriminate | apply Hu].
Qed.

Lemma to_uint_nonnil n : N.to_uint n ≠ Decimal.Nil.
Proof. destruct n; [discriminate | apply DecimalPos.Unsigned.to_uint_nonnil]. Qed.

Lemma ofN_inj n m : JS.ofN n = JS.ofN m → n = m.
Proof.
  unfold JS.ofN. intros H. apply DecimalN.Unsigned.to_uint_inj.
  pose proof (NilZero.usu _ (to_uint_nonnil n)) as Hn.
  pose proof (NilZero.usu _ (to_uint_nonnil m)) as Hm.
  rewrite H in Hn. congruence.
Qed.

Lemma ofZ_inj a b : JS.ofZ a = JS.ofZ b → a = b.
Proof.
  assert (∀ z, Z.to_int z ≠ Decimal.Pos Decimal.Nil ∧
               Z.to_int z ≠ Decimal.Neg Decimal.Nil) as Hnn.
  { intros [|p|p]; cbn; split; try discriminate;
      intros [= H]; by apply DecimalPos.Unsigned.to_uint_nonnil in H. }
  unfold JS.ofZ. intros H. apply DecimalZ.to_int_inj.
  pose proof (NilZero.isi _ (proj1 (Hnn a)) (proj2 (Hnn a))) as Ha.
  pose proof (NilZero.isi _ (proj1 (Hnn b)) (proj2 (Hnn b))) as Hb.
  rewrite H in Ha. congruence.
Qed.

End Keys.

Lemma fileKey_injective_aux (f g : Picked.t) : fileKey f = fileKey g → f = g.
Proof.
  unfold fileKey. intros H. apply (f_equal JS.chars) in H.
  rewrite !chars_app in H.
  rewrite !(app_assoc (JS.chars (Picked.name _))) in H.
  rewrite !(app_assoc _ (JS.chars (JS.ofN _))) in H.
  apply split_at_last in H as [H Hz]; [|apply ofZ_no_colon..].
  rewrite <- !app_assoc in H.
  apply split_at_last in H as [Hn Hs]; [|apply ofN_no_colon..].
  apply chars_inj in Hn, Hs, Hz. apply ofN_inj in Hs. apply ofZ_inj in Hz.
  destruct f, g. cbn in *. by subst.
Qed.

(** Two picked files have the same key exactly when they agree in name,
    size and modification stamp, whatever the name contains (also for a
    name with the separator or digits in it). *)
Theorem fileKey_injective (f g : Picked.t) : fileKey f = fileKey g ↔ f = g.
Proof. split; [apply fileKey_injective_aux | by intros ->]. Qed.

Section Picker.

Context {FileObject : Type} (attributes : FileObject → Picked.t).

Abbreviation key := (fun file => fileKey (attributes file)).

Lemma appendNew_sublist K picked : sublist (appendNew attributes K picked) picked.
Proof.
  revert K. induction picked as [|f rest IH]; intros K; cbn; [done|].
  case_bool_decide.
  - by apply sublist_cons.
  - by apply sublist_skip.
Qed.

Lemma appendNew_fresh K picked f :
  f ∈ appendNew attributes K picked → key f ∉ K.
Proof.
  revert K. induction picked as [|x rest IH]; intros K; cbn; [by intros ?%elem_of_nil|].
  case_bool_decide as Hk.
  - apply IH.
  - intros [->|Hin]%elem_of_cons; [done|].
    apply IH in Hin. by apply not_elem_of_union in Hin as [_ ?].
Qed.

Lemma appendNew_NoDup K picked : NoDup (map key (appendNew attributes K picked)).
Proof.
  revert K. induction picked as [|x rest IH]; intros K; cbn; [constructor|].
  case_bool_decide as Hk; [apply IH|].
  cbn. constructor; [|apply IH].
  intros (f & Hf & Hin)%list_elem_of_fmap.
  apply appendNew_fresh in Hin. apply Hin. rewrite <- Hf.
  apply elem_of_union. left. by apply elem_of_singleton.
Qed.

Lemma appendNew_covers K picked f :
  f ∈ picked → key f ∈ K ∨ key f ∈ map key (appendNew attributes K picked).
Proof.
  revert K. induction picked as [|x rest IH]; intros K; [by intros ?%elem_of_nil|].
  cbn. intros [->|Hin]%elem_of_cons.
  - case_bool_decide as Hk; [by left|]. right. cbn. left.
  - case_bool_decide as Hk; [by apply IH|].
    destruct (IH ({[key x]} ∪ K) Hin) as [[Hx%elem_of_singleton|HK]%elem_of_union|Hr].
    + right. cbn. rewrite Hx. left.
    + by left.
    + right. cbn. by right.
Qed.

(** The first picked file with a key not seen so far is taken. *)
Lemma appendNew_first K pre f post :
  key f ∉ K → key f ∉ map key pre →
  f ∈ appendNew attributes K (pre ++ f :: post).
Proof.
  revert K. induction pre as [|x pre IH]; intros K HK Hpre; cbn.
  - rewrite bool_decide_eq_false_2 by done. left.
  - apply not_elem_of_cons in Hpre as [Hx Hpre]. case_bool_decide as Hk.
    + by apply IH.
    + right. apply IH; [|done]. apply not_elem_of_union. split; [|done].
      intros ?%elem_of_singleton. by apply Hx.
Qed.

Lemma appendNew_known K picked :
  (∀ f, f ∈ picked → key f ∈ K) → appendNew attributes K picked = [].
Proof.
  induction picked as [|x rest IH]; intros H; cbn; [done|].
  rewrite bool_decide_eq_true_2 by (apply H; left).
  apply IH. intros f Hf. apply H. by right.
Qed.

End Picker.

(** [onFilesChanged] keeps the files already chosen, in their order, and
    appends picked files in the order picked.  A picked file is appended
    when its key (name, size and stamp) is neither the key of a chosen
    file nor that of a file picked before it; a file with such a key is
    skipped, also when it is a different file.  So the appended files
    have keys different from one another and from the chosen ones, the
    keys of the new list are those of the chosen and of the picked
    files, a list without repeated key stays without one, and picking
    the same files a second time changes nothing. *)
Theorem onFilesChanged_spec {FileObject : Type} (attributes : FileObject → Picked.t)
    (prev picked : list FileObject) :
  (∃ added,
     onFilesChanged attributes prev picked = prev ++ added ∧
     sublist added picked ∧
     NoDup (map (fun f => fileKey (attributes f)) added) ∧
     (∀ f, f ∈ added →
           fileKey (attributes f) ∉ map (fun f => fileKey (attributes f)) prev) ∧
     (∀ pre f post, picked = pre ++ f :: post →
        fileKey (attributes f) ∉ map (fun f => fileKey (attributes f)) prev →
        fileKey (attributes f) ∉ map (fun f => fileKey (attributes f)) pre →
        f ∈ added)) ∧
  (∀ k, k ∈ map (fun f => fileKey (attributes f))
              (onFilesChanged attributes prev picked) ↔
        k ∈ map (fun f => fileKey (attributes f)) prev ∨
        k ∈ map (fun f => fileKey (attributes f)) picked) ∧
  (NoDup (map (fun f => fileKey (attributes f)) prev) →
   NoDup (map (fun f => fileKey (attributes f))
            (onFilesChanged attributes prev picked))) ∧
  onFilesChanged attributes (onFilesChanged attributes prev picked) picked =
    onFilesChanged attributes prev picked.
Proof.
  set (key := fun f => fileKey (attributes f)).
  set (K := list_to_set (map key prev) : gset string).
  assert (onFilesChanged attributes prev picked =
          prev ++ appendNew attributes K picked) as Hnext.
  { unfold onFilesChanged. destruct picked; [by rewrite app_nil_r | done]. }
  assert (∀ k, k ∈ K ↔ k ∈ map key prev) as HK
    by (intros k; apply elem_of_list_to_set).
  assert (∀ k, k ∈ map key (onFilesChanged attributes prev picked) ↔
               k ∈ map key prev ∨ k ∈ map key picked) as Hkeys.
  { intros k. rewrite Hnext, map_app, elem_of_app. split.
    - intros [?|(f & -> & Hin)%list_elem_of_fmap]; [by left|]. right.
      apply list_elem_of_fmap. exists f. split; [done|].
      by eapply elem_of_sublist; [|apply appendNew_sublist].
    - intros [?|(f & -> & Hin)%list_elem_of_fmap]; [by left|].
      destruct (appendNew_covers attributes K picked f Hin) as [Hk|Hk].
      + left. by apply HK.
      + by right. }
  split; [|split; [done|split]].
  - exists (appendNew attributes K picked). split; [done|].
    split; [apply appendNew_sublist|]. split; [apply appendNew_NoDup|]. split.
    + intros f Hin Hk. by apply (appendNew_fresh attributes K picked f), HK.
    + intros pre f post -> Hprev Hpre. apply appendNew_first; [|done].
      intros Hk. by apply Hprev, HK.
  - intros Hnd. rewrite Hnext, map_app. apply NoDup_app. split; [done|]. split.
    + intros k Hk (f & -> & Hin)%list_elem_of_fmap.
      by apply (appendNew_fresh attributes K picked f), HK.
    + apply appendNew_NoDup.
  - unfold onFilesChanged at 1. destruct picked as [|x rest]; [done|].
    rewrite appendNew_known; [by rewrite app_nil_r|].
    intros f Hf. apply elem_of_list_to_set, Hkeys. right.
    apply list_elem_of_fmap. by exists f.
Qed.

(** ** Path helper *)

Lemma trimSlashes_empty_iff (s : string) :
  JS.truthy (trimSlashes s) = false ↔ allChar "/" (JS.chars s).
Proof.
  destruct (stripEnds_split (JS.isChar "/") (JS.chars s)) as (a & b & Hs & Ha & Hb).
  assert (JS.chars (trimSlashes s) = JS.stripEnds (JS.isChar "/") (JS.chars s)) as Hc
    by apply chars_onChars.
  split.
  - intros H%falsy_empty. rewrite H in Hc. cbn in Hc. rewrite <- Hc in Hs.
    rewrite Hs. cbn. apply Forall_app. split;
      (eapply Forall_impl; [eassumption|]); intros c Hx; by apply isChar_eq.
  - intros Hall. apply not_true_iff_false. intros Ht%truthy_chars.
    rewrite Hc in Ht.
    destruct (JS.stripEnds (JS.isChar "/") (JS.chars s)) as [|c k] eqn:E; [done|].
    pose proof (stripEnds_head _ _ _ _ E) as Hhead.
    assert (c ∈ JS.chars s) as Hin by (rewrite Hs; set_solver).
    unfold allChar in Hall. rewrite Forall_forall in Hall.
    apply Hall in Hin as ->. by vm_compute in Hhead.
Qed.

(** [childrenEndpoint] addresses the children of the drive root exactly
    when the parent path is empty or made of slashes only, and otherwise
    the children of the folder at the path without the slashes at its
    ends; slashes already trimmed make no difference. *)
Theorem childrenEndpoint_spec (driveId parentPath : string) :
  (allChar "/" (JS.chars parentPath) →
   childrenEndpoint driveId parentPath = "/drives/" +:+ driveId +:+ "/root/children") ∧
  (¬ allChar "/" (JS.chars parentPath) →
   childrenEndpoint driveId parentPath =
     folderAddress driveId (trimSlashes parentPath) +:+ ":/children" ∧
   JS.truthy (JS.encodeURI (trimSlashes parentPath)) = true) ∧
  childrenEndpoint driveId (trimSlashes parentPath) =
    childrenEndpoint driveId parentPath.
Proof.
  split; [|split].
  - intros H%trimSlashes_empty_iff. unfold childrenEndpoint. by rewrite H.
  - intros H. unfold childrenEndpoint.
    destruct (JS.truthy (trimSlashes parentPath)) eqn:E.
    + split; [by rewrite childPath_assoc | by apply encodeURI_truthy].
    + by apply trimSlashes_empty_iff in E.
  - unfold childrenEndpoint. rewrite trimSlashes_id; [done|].
    unfold noEdgeSlash, trimSlashes. rewrite chars_onChars.
    destruct (stripEnds_edges (JS.isChar "/") (JS.chars parentPath)) as [Hh Hl].
    split; intros H; [apply Hh in H | apply Hl in H]; by vm_compute in H.
Qed.

(** ** Schema introspector *)

Section Normal.

Lemma lowerChar_space c : JS.isSpace (JS.lowerChar c) = JS.isSpace c.
Proof. destruct c as [[] [] [] [] [] [] [] []]; vm_compute; reflexivity. Qed.

Lemma lowerChar_idem c : JS.lowerChar (JS.lowerChar c) = JS.lowerChar c.
Proof. destruct c as [[] [] [] [] [] [] [] []]; vm_compute; reflexivity. Qed.

Lemma dropWhile_map p (f : ascii → ascii) l :
  (∀ c, p (f c) = p c) → JS.dropWhile p (map f l) = map f (JS.dropWhile p l).
Proof.
  intros Hf. induction l as [|c l IH]; [done|].
  cbn. rewrite Hf. by destruct (p c).
Qed.

Lemma stripEnds_map p (f : ascii → ascii) l :
  (∀ c, p (f c) = p c) → JS.stripEnds p (map f l) = map f (JS.stripEnds p l).
Proof.
  intros Hf. unfold JS.stripEnds, JS.dropWhileEnd.
  by rewrite dropWhile_map, <- map_rev, dropWhile_map, map_rev.
Qed.

Lemma stripEnds_fixed p l :
  (∀ c, head l = Some c → p c = false) → (∀ c, last l = Some c → p c = false) →
  JS.stripEnds p l = l.
Proof.
  intros Hh Hl. unfold JS.stripEnds, JS.dropWhileEnd.
  assert (∀ k, (∀ c, head k = Some c → p c = false) → JS.dropWhile p k = k) as Hd.
  { intros [|c k] Hk; [done|]. apply dropWhile_id. by apply Hk. }
  rewrite (Hd l Hh), Hd; [apply rev_involutive|].
  destruct l as [|c l _] using rev_ind; [done|].
  rewrite rev_app_distr. cbn. intros ? [= <-]. apply Hl. by rewrite last_snoc.
Qed.

Lemma stripEnds_idem p l : JS.stripEnds p (JS.stripEnds p l) = JS.stripEnds p l.
Proof. apply stripEnds_fixed; apply stripEnds_edges. Qed.

Lemma trim_idem s : JS.trim (JS.trim s) = JS.trim s.
Proof.
  apply chars_inj. unfold JS.trim. by rewrite !chars_onChars, stripEnds_idem.
Qed.

Lemma chars_normalize s :
  JS.chars (normalize s) = map JS.lowerChar (JS.stripEnds JS.isSpace (JS.chars s)).
Proof.
  unfold normalize, JS.toLowerCase, JS.trim. by rewrite !chars_onChars.
Qed.

Lemma normalize_idem s : normalize (normalize s) = normalize s.
Proof.
  apply chars_inj. rewrite !chars_normalize.
  rewrite stripEnds_map by apply lowerChar_space.
  rewrite stripEnds_idem, map_map.
  apply map_ext. intros c. apply lowerChar_idem.
Qed.

(** A key in normal form is the lower case of a trimmed text only. *)
Lemma normal_lower_trimmed cand :
  normalize (JS.toLowerCase cand) = JS.toLowerCase cand → JS.trim cand = cand.
Proof.
  intros H. apply (f_equal JS.chars) in H.
  rewrite chars_normalize in H. unfold JS.toLowerCase in H.
  rewrite chars_onChars in H.
  rewrite stripEnds_map in H by apply lowerChar_space.
  rewrite map_map in H.
  apply (f_equal (@length ascii)) in H. rewrite !length_map in H.
  apply chars_inj. unfold JS.trim. rewrite chars_onChars.
  destruct (stripEnds_split JS.isSpace (JS.chars cand)) as (a & b & Hs & _).
  rewrite Hs in H at 2. rewrite !length_app in H.
  destruct a; [|cbn in H; lia]. destruct b; [|cbn in H; lia].
  cbn in Hs. by rewrite app_nil_r in Hs.
Qed.

End Normal.


Section Reads.

Lemma toLowerCase_idem s : JS.toLowerCase (JS.toLowerCase s) = JS.toLowerCase s.
Proof.
  apply chars_inj. unfold JS.toLowerCase. rewrite !chars_onChars, map_map.
  apply map_ext. intros c. apply lowerChar_idem.
Qed.

(** A lower-cased text that names an inherited member is in normal form:
    only [constructor] and [__proto__] are in lower case. *)
Lemma member_lower_normal cand v :
  Proto.member (JS.toLowerCase cand) = Some v →
  normalize (JS.toLowerCase cand) = JS.toLowerCase cand.
Proof.
  unfold Proto.member.
  case_bool_decide as H1; [intros _; by rewrite H1|].
  case_bool_decide as H2; [intros _; by rewrite H2|].
  case_bool_decide as H3; [|done]. intros _. exfalso.
  pose proof (toLowerCase_idem cand) as Hidem.
  unfold Proto.functions in H3.
  repeat (apply elem_of_cons in H3 as [H3|H3];
          [rewrite H3 in Hidem; vm_compute in Hidem; discriminate|]).
  by apply elem_of_nil in H3.
Qed.

End Reads.

(** What the index read of [chooseField] yields for a candidate is
    either the member a plain object inherits under the lower-case form
    of the candidate (no column is ever registered under such a key), or
    the non-empty internal name of a listed column, of which one alias
    form has that lower-case form as its normal form (trimmed, lower
    case). *)
Theorem getColumns_index_sound (cols : list Col.t) (cand v : string) :
  lookupAlias (byLower (getColumns cols)) cand = Some v →
  (Proto.member (JS.toLowerCase cand) = Some v ∧
   byLower (getColumns cols) !! JS.toLowerCase cand = None) ∨
  (Proto.member (JS.toLowerCase cand) = None ∧
   (∃ c form, c ∈ cols ∧ Col.name c = Some v ∧ form ∈ aliasForms c ∧
              JS.toLowerCase cand = normalize form) ∧
   JS.truthy v = true ∧ v ∈ columnNames cols).
Proof.
  unfold lookupAlias, readProp.
  destruct (byLower (getColumns cols) !! JS.toLowerCase cand) as [own|] eqn:E.
  - intros [= ->]. right.
    apply index_origin in E as (c & form & Hin & Hn & Hv & Hf & Hk & Hkt & Hown).
    split; [unfold inherits in Hown; by destruct (Proto.member _)|].
    split; [by exists c, form|]. split; [done|].
    unfold columnNames. apply elem_of_list_to_set, list_elem_of_filter.
    split; [done|]. apply list_elem_of_fmap. exists c. by rewrite Hn.
  - intros H. by left.
Qed.

Lemma getColumns_index_sound_witness :
  lookupAlias (byLower (getColumns demoColumns)) "Photo URL" = Some "PhotoUrl" ∧
  ((Proto.member "photo url" = Some "PhotoUrl" ∧
    byLower (getColumns demoColumns) !! "photo url" = None) ∨
   (Proto.member "photo url" = None ∧
    (∃ c form, c ∈ demoColumns ∧ Col.name c = Some "PhotoUrl" ∧
               form ∈ aliasForms c ∧ "photo url" = normalize form) ∧
    JS.truthy "PhotoUrl" = true ∧ "PhotoUrl" ∈ columnNames demoColumns)).
Proof.
  split; [vm_compute; reflexivity|].
  apply (getColumns_index_sound demoColumns "Photo URL" "PhotoUrl").
  vm_compute. reflexivity.
Defined.

(** The index is read by the lower case of a candidate, without trimming
    it, while its keys are trimmed: a candidate with white space at
    either end is never found, whatever the listing. *)
Theorem untrimmed_candidate_not_found (cols : list Col.t) (cand : string) :
  JS.trim cand ≠ cand → lookupAlias (byLower (getColumns cols)) cand = None.
Proof.
  intros Hne. unfold lookupAlias, readProp.
  destruct (byLower (getColumns cols) !! JS.toLowerCase cand) as [v|] eqn:E.
  - apply index_origin in E as (c & form & _ & _ & _ & _ & Hk & _).
    exfalso. apply Hne, normal_lower_trimmed. rewrite Hk. apply normalize_idem.
  - destruct (Proto.member (JS.toLowerCase cand)) as [v|] eqn:Ev; [|done].
    exfalso. by apply Hne, normal_lower_trimmed, (member_lower_normal cand v).
Qed.

Lemma untrimmed_candidate_not_found_witness :
  JS.trim "Village " ≠ "Village " ∧
  lookupAlias (byLower (getColumns demoColumns)) "Village " = None.
Proof.
  assert (JS.trim "Village " ≠ "Village ") as H by (vm_compute; discriminate).
  split; [exact H|].
  exact (untrimmed_candidate_not_found demoColumns "Village " H).
Defined.

(** ** Field selector, both modes *)

Section Modes.

Variable byLower : gmap string string.
Variable metaByName : gmap string Meta.

Lemma chooseField_app a b rw :
  chooseField byLower metaByName (a ++ b) rw =
    match chooseField byLower metaByName a rw with
    | Some hit => Some hit
    | None => chooseField byLower metaByName b rw
    end.
Proof.
  induction a as [|cand a IH]; [done|].
  cbn [app]. rewrite !chooseField_cons.
  by destruct (usable byLower metaByName rw cand).
Qed.

Lemma usable_relax cand hit :
  usable byLower metaByName true cand = Some hit →
  usable byLower metaByName false cand = Some hit.
Proof.
  unfold usable. cbn [chooseField].
  destruct (lookupAlias byLower cand) as [h|]; [|done].
  destruct (negb (JS.truthy h)); [done|]. cbn [andb].
  destruct (readOnly _); [done|]. done.
Qed.

Lemma usable_same cand :
  (∀ n m, metaByName !! n = Some m → readOnly m = false) →
  usable byLower metaByName true cand = usable byLower metaByName false cand.
Proof.
  intros Hw. unfold usable. cbn [chooseField].
  destruct (lookupAlias byLower cand) as [h|]; [|done].
  destruct (negb (JS.truthy h)); [done|]. cbn [andb].
  destruct (metaByName !! h) as [m|] eqn:Hm; simpl.
  - by rewrite (Hw h m Hm).
  - done.
Qed.

End Modes.

(** [chooseField] in either mode: the candidates are tried in order, so a
    list of candidates followed by another gives the result of the first
    list when there is one, and that of the second otherwise; a result is
    a non-empty index entry of one of the candidates and is not hidden.
    What is found when a writable column is required is also found, or
    an earlier candidate is, when it is not; and without read-only
    columns the two modes agree. *)
Theorem chooseField_modes (byLower : gmap string string)
    (metaByName : gmap string Meta) (a b : list string) (rw : bool) :
  chooseField byLower metaByName (a ++ b) rw =
    match chooseField byLower metaByName a rw with
    | Some hit => Some hit
    | None => chooseField byLower metaByName b rw
    end ∧
  (∀ hit, chooseField byLower metaByName a rw = Some hit →
     JS.truthy hit = true ∧
     hidden (default defaultMeta (metaByName !! hit)) = false ∧
     ∃ cand, cand ∈ a ∧ lookupAlias byLower cand = Some hit) ∧
  (is_Some (chooseField byLower metaByName a true) →
   is_Some (chooseField byLower metaByName a false)) ∧
  ((∀ n m, metaByName !! n = Some m → readOnly m = false) →
   chooseField byLower metaByName a true = chooseField byLower metaByName a false).
Proof.
  split; [apply chooseField_app|]. split; [|split].
  - induction a as [|cand a IH]; [done|].
    intros hit. rewrite chooseField_cons.
    destruct (usable byLower metaByName rw cand) as [h|] eqn:Hu.
    + intros [= ->]. destruct (usable_spec _ _ _ _ _ Hu) as (Hl & Ht & Hm).
      split; [done|]. split.
      * destruct (metaByName !! hit) as [m|] eqn:E; [|done].
        by destruct (Hm m eq_refl).
      * exists cand. split; [left | done].
    + intros H. destruct (IH hit H) as (Ht & Hh & cand' & Hin & Hl).
      split; [done|]. split; [done|]. exists cand'. split; [by right | done].
  - induction a as [|cand a IH]; [done|].
    rewrite !chooseField_cons.
    destruct (usable byLower metaByName true cand) as [h|] eqn:Hu.
    + by rewrite (usable_relax _ _ _ _ Hu).
    + intros H. destruct (usable byLower metaByName false cand); [done | by apply IH].
  - intros Hw. induction a as [|cand a IH]; [done|].
    rewrite !chooseField_cons, (usable_same _ _ _ Hw), IH. done.
Qed.


(** ** First registration and writable selection, apart from inherited keys *)

(** For a key that names no member inherited from [Object.prototype]:
    when no column listed before [c1] registers the key, the index maps
    it to the internal name of [c1], whatever columns follow, and a
    candidate with that lower-case form resolves to it. *)
Theorem first_registration_wins (pre post : list Col.t) (c1 : Col.t)
    (k n1 : string) :
  Proto.member k = None →
  (∀ c n, c ∈ pre → ¬ registers c k n) →
  registers c1 k n1 →
  byLower (getColumns (pre ++ [c1])) !! k = Some n1 ∧
  byLower (getColumns (pre ++ c1 :: post)) !! k = Some n1 ∧
  (∀ cand, JS.toLowerCase cand = k →
           lookupAlias (byLower (getColumns (pre ++ c1 :: post))) cand = Some n1).
Proof.
  intros Hmember Hpre Hc.
  assert (inherits k = false) as Hown by (unfold inherits; by rewrite Hmember).
  assert (∀ c', c' ∈ pre → byLower (getColumns [c']) !! k = None) as Hnone.
  { intros c' Hin. apply single_column_none; [done|]. intros n. by apply Hpre. }
  assert (byLower (getColumns [c1]) !! k = Some n1) as Hsingle
    by by apply single_column_iff.
  split; [by apply first_owner|]. split; [by apply first_owner|].
  intros cand <-. unfold lookupAlias. rewrite readProp_own by done.
  by apply first_owner.
Qed.

Lemma first_registration_wins_witness :
  byLower (getColumns
    ([textColumn "Notes" "Remarks" false false] ++
     textColumn "Village" "Village" false false ::
     [textColumn "Village0" "village" true false;
      textColumn "Site" " VILLAGE " false false])) !! "village" = Some "Village".
Proof.
  destruct (first_registration_wins
              [textColumn "Notes" "Remarks" false false]
              [textColumn "Village0" "village" true false;
               textColumn "Site" " VILLAGE " false false]
              (textColumn "Village" "Village" false false) "village" "Village"
              eq_refl) as (_ & Hwins & _); [| |exact Hwins].
  - intros c n Hc (_ & _ & _ & form & Hform & Hk).
    apply list_elem_of_singleton in Hc as ->.
    apply list_elem_of_In in Hform. vm_compute in Hform.
    repeat (destruct Hform as [<-|Hform]; [vm_compute in Hk; discriminate|]).
    done.
  - split; [done|]. split; [done|]. split; [done|].
    exists "Village". split; [|done]. apply list_elem_of_In. vm_compute. tauto.
Defined.

(** With candidates whose lower-case forms name no inherited member and
    [requireWritable] set, a result of [chooseField] is an own entry of
    the index whose metadata, when present, is neither read-only nor
    hidden, and it is the entry of the first candidate, in the given
    order, that is usable. *)
Theorem chooseField_writable (byLower : gmap string string)
    (metaByName : gmap string Meta) (candidates : list string) (hit : string) :
  Forall (fun cand => Proto.member (JS.toLowerCase cand) = None) candidates →
  chooseField byLower metaByName candidates true = Some hit →
  (∀ m, metaByName !! hit = Some m → readOnly m = false ∧ hidden m = false) ∧
  ∃ pre cand post,
    candidates = pre ++ cand :: post ∧
    (∀ c, c ∈ pre → usable byLower metaByName true c = None) ∧
    usable byLower metaByName true cand = Some hit ∧
    byLower !! JS.toLowerCase cand = Some hit.
Proof.
  induction candidates as [|cand rest IH]; [done|].
  intros [Hcand Hrest]%Forall_cons. rewrite chooseField_cons.
  destruct (usable byLower metaByName true cand) as [h|] eqn:Hu.
  - intros [= ->]. pose proof (usable_spec _ _ _ _ _ Hu) as (Hl & _ & Hm).
    split.
    + intros m Hmm. destruct (Hm m Hmm) as [? Hro]. split; auto.
    + exists [], cand, rest. split; [done|]. split.
      * intros c Hc. by apply elem_of_nil in Hc.
      * split; [done|]. unfold lookupAlias in Hl.
        rewrite readProp_own in Hl; [done|]. unfold inherits. by rewrite Hcand.
  - intros H. destruct (IH Hrest H) as (Hm & pre & c & post & -> & Hpre & Hc & Hl).
    split; [done|].
    exists (cand :: pre), c, post. repeat split; auto.
    intros c' Hc'. apply elem_of_cons in Hc' as [->|Hc']; auto.
Qed.

Lemma chooseField_writable_witness :
  chooseField (byLower selectorColumns) (metaByName selectorColumns)
    ["Notes"; "Note"; "Description"] true = Some "Description" ∧
  ∃ pre cand post,
    ["Notes"; "Note"; "Description"] = pre ++ cand :: post ∧
    (∀ c, c ∈ pre →
          usable (byLower selectorColumns) (metaByName selectorColumns) true c = None) ∧
    usable (byLower selectorColumns) (metaByName selectorColumns) true cand =
      Some "Description" ∧
    byLower selectorColumns !! JS.toLowerCase cand = Some "Description".
Proof.
  split; [vm_compute; reflexivity|].
  apply (chooseField_writable (byLower selectorColumns) (metaByName selectorColumns)
           ["Notes"; "Note"; "Description"] "Description").
  - repeat (constructor; [reflexivity|]). constructor.
  - vm_compute. reflexivity.
Defined.

(** ** Submission: what is called, and when *)

Section Outcome.

Variable rewrapNetworkError : Error → string → Error.
Variable formatDateTimeForSharePoint : string → string → string.
Variable rm : Remote.

Lemma recordCalls_app t1 t2 : recordCalls (t1 ++ t2) = recordCalls t1 ++ recordCalls t2.
Proof. apply omap_app. Qed.

Lemma recordCalls_folder t : onlyFolderCalls t → recordCalls t = [].
Proof.
  induction 1 as [|c t Hc _ IH]; [done|].
  cbn. destruct c as [| ? [] | | | |]; done.
Qed.

Lemma recordCalls_chunks url size l : recordCalls (map (chunkCall url size) l) = [].
Proof. induction l as [|i l IH]; [done|]. exact IH. Qed.

(** An upload ends, with an item or an error, and creates no record. *)
Lemma uploadOne_trace driveId baseFolderPath file villageValue w :
  ∃ r w' t,
    uploadOne rewrapNetworkError rm driveId baseFolderPath file villageValue w
      = (r, w') ∧
    calls w' = calls w ++ t ∧ recordCalls t = [] ∧ r ≠ OutOfFuel.
Proof.
  destruct (N.le_gt_cases (File.size file) 3999999) as [Hsmall|Hlarge].
  - destruct (ensureFolder_runs rewrapNetworkError rm driveId baseFolderPath
                (now rm (length (calls w))) w) as (w1 & t1 & Hrun & Hcalls & Honly).
    rewrite uploadOne_unfold. cbn zeta. rewrite Hrun.
    rewrite (proj2 (N.leb_le _ _) Hsmall). unfold sgraph_putContent.
    destruct (stripSuffix _ _); eexists _, _, _; (split; [reflexivity|]);
      cbn [calls record addItem]; rewrite Hcalls, <- app_assoc;
      (split; [reflexivity|]);
      rewrite recordCalls_app, (recordCalls_folder _ Honly); done.
  - destruct (uploadOne_chunked rewrapNetworkError rm driveId baseFolderPath file
                villageValue w Hlarge)
      as (w1 & t1 & r & w' & k & tail & Hcalls & Honly & Hrun & Htrace & _ & _ & Hend).
    exists r, w', (t1 ++ CREATE_UPLOAD_SESSION
                     ("/drives/" +:+ driveId +:+ "/root:/" +:+
                      JS.encodeURI (uploadTarget baseFolderPath
                                      (now rm (length (calls w))) file villageValue) +:+
                      ":/createUploadSession") "rename" ::
                   map (chunkCall
                          (uploadUrlOf rm
                             (folderAddress driveId
                                (uploadTarget baseFolderPath
                                   (now rm (length (calls w))) file villageValue)))
                          (File.size file)) (seq 0 (S k)) ++ tail).
    split; [done|]. split; [by rewrite Htrace, Hcalls, <- app_assoc|].
    rewrite recordCalls_app, (recordCalls_folder _ Honly).
    change (recordCalls (?c :: ?l)) with (recordCalls l).
    rewrite recordCalls_app, recordCalls_chunks.
    destruct Hend as [(_ & _ & Hr & ->)|(_ & -> & ->)]; done.
Qed.

(** The uploads of a submission, one file after the other, up to the
    first that fails. *)
Lemma uploadAll_trace driveId files village w :
  ∃ r w' t,
    uploadAll rewrapNetworkError rm driveId files village w = (r, w') ∧
    calls w' = calls w ++ t ∧ recordCalls t = [] ∧ r ≠ OutOfFuel ∧
    (∀ uploaded, r = Ok uploaded → length uploaded = length files).
Proof.
  revert w. induction files as [|f files IH]; intros w.
  - exists (Ok []), w, []. cbn. rewrite app_nil_r.
    repeat split; try done. by intros ? [= <-].
  - cbn [uploadAll]. unfold bind at 1.
    destruct (uploadOne_trace driveId libraryFolderPath f (JS.orElse village "") w)
      as (r1 & w1 & t1 & Hrun1 & Hcalls1 & Hrec1 & Hfuel1).
    rewrite Hrun1. destruct r1 as [driveItem|e|]; [| |done].
    2: { exists (Throw e), w1, t1. by repeat split. }
    unfold bind at 1.
    destruct (IH w1) as (r2 & w2 & t2 & Hrun2 & Hcalls2 & Hrec2 & Hfuel2 & Hlen).
    rewrite Hrun2. exists (match r2 with
                           | Ok rest => Ok (driveItem :: rest)
                           | Throw e => Throw e
                           | OutOfFuel => OutOfFuel
                           end), w2, (t1 ++ t2).
    split; [by destruct r2|].
    split; [by rewrite Hcalls2, Hcalls1, <- app_assoc|].
    split; [by rewrite recordCalls_app, Hrec1, Hrec2|].
    split; [by destruct r2|].
    intros uploaded Hu. destruct r2 as [rest| |]; [|done..].
    injection Hu as <-. cbn. by rewrite (Hlen rest eq_refl).
Qed.


(** The part of the handler from the column read on: it ends with
    success or an error; a failed column read or a missing photo column
    ends it at once; a record call is made at most once, as the last
    call, and the run succeeds exactly when that call is made and
    answered. *)
Lemma submit_trace form siteId listId driveId w :
  ∃ r w' t,
    submit rewrapNetworkError formatDateTimeForSharePoint rm form
      siteId listId driveId w = (r, w') ∧
    calls w' = calls w ++ GET (columnsPath siteId listId) :: t ∧
    r ≠ OutOfFuel ∧
    (∀ e, listError rm (columnsPath siteId listId) = Some e →
          r = Throw (rewrapNetworkError e (columnsPath siteId listId)) ∧ t = []) ∧
    (listError rm (columnsPath siteId listId) = None →
     photoColumn (columnsOf rm (columnsPath siteId listId)) = None →
     r = Throw {| message := missingPhotoColumn |} ∧ t = []) ∧
    ((recordCalls t = [] ∧ r ≠ Ok tt) ∨
     ∃ t0 fields,
       t = t0 ++ [POST (itemsPath siteId listId) (FieldsBody fields)] ∧
       recordCalls t0 = [] ∧
       r = match listError rm (itemsPath siteId listId) with
           | Some e => Throw (rewrapNetworkError e (itemsPath siteId listId))
           | None => Ok tt
           end).
Proof.
  unfold submit, bind at 1, sgraph_getColumns. cbv beta zeta.
  fold (columnsPath siteId listId).
  destruct (listError rm (columnsPath siteId listId)) as [e|] eqn:Hcols.
  { eexists _, _, []. split; [reflexivity|]. split; [done|]. split; [done|].
    split; [by intros ? [= <-]|]. split; [done|]. by left. }
  rewrite !orNull_chooseField.
  fold (photoColumn (columnsOf rm (columnsPath siteId listId))).
  destruct (photoColumn (columnsOf rm (columnsPath siteId listId))) as [photo|].
  - unfold bind at 1.
    destruct (uploadAll_trace driveId (files form) (village form)
                (record (GET (columnsPath siteId listId)) w))
      as (r & w1 & t & Hrun & Hcalls & Hrec & Hfuel & _).
    rewrite Hrun. destruct r as [uploaded|e|]; [|clear Hfuel|done].
    + unfold bind, createListItem, sgraph_post. fold (itemsPath siteId listId).
      destruct (listError rm (itemsPath siteId listId)) as [e|] eqn:Hitems;
        eexists _, _, (t ++ [_]); (split; [reflexivity|]);
        cbn [calls record]; rewrite Hcalls; cbn [calls record];
        rewrite <- !app_assoc; (split; [reflexivity|]); (split; [done|]);
        (split; [done|]); (split; [done|]); right;
        eexists t, _; (split; [reflexivity|]); done.
    + exists (Throw e), w1, t. split; [done|].
      rewrite Hcalls. cbn [calls record]. rewrite <- app_assoc.
      split; [done|]. split; [done|]. split; [done|]. split; [done|]. by left.
  - exists (Throw {| message := missingPhotoColumn |}),
      (record (GET (columnsPath siteId listId)) w), [].
    split; [done|]. split; [done|]. split; [done|]. split; [done|].
    split; [done|]. by left.
Qed.

End Outcome.

Section HandlerRuns.

Variable rewrapNetworkError : Error → string → Error.
Variable formatDateTimeForSharePoint : string → string → string.
Variable decodeURIComponent : string → Result string.
Variable rm : Remote.
Variable dir : Directory.
Variable cfg : Config.
Variable probeError : string → option Error.

Lemma quiet_ret {A} (a : A) : quiet (ret a).
Proof. intros w. exists (Ok a), w, []. by rewrite app_nil_r. Qed.

Lemma quiet_throw {A} e : quiet (@throw A e).
Proof. intros w. exists (Throw e), w, []. by rewrite app_nil_r. Qed.

Lemma quiet_read {A} (reply : string → Result A) path :
  quiet (sgraph_read rewrapNetworkError reply path).
Proof.
  intros w. unfold sgraph_read.
  destruct (reply path); eexists _, _, [GET path]; by repeat split.
Qed.

Lemma quiet_bind {A B} (c : M A) (k : A → M B) :
  quiet c → (∀ a, quiet (k a)) → quiet (bind c k).
Proof.
  intros Hc Hk w. unfold bind.
  destruct (Hc w) as (r & w1 & t1 & -> & Hcalls1 & Hrec1).
  destruct r as [a|e|]; [|by eexists _, _, t1..].
  destruct (Hk a w1) as (r2 & w2 & t2 & -> & Hcalls2 & Hrec2).
  exists r2, w2, (t1 ++ t2). split; [done|].
  split; [by rewrite Hcalls2, Hcalls1, <- app_assoc|].
  by rewrite recordCalls_app, Hrec1, Hrec2.
Qed.

Lemma quiet_tryCatch {A} (c : M A) (h : Error → M A) :
  quiet c → (∀ e, quiet (h e)) → quiet (tryCatch c h).
Proof.
  intros Hc Hh w. unfold tryCatch.
  destruct (Hc w) as (r & w1 & t1 & -> & Hcalls1 & Hrec1).
  destruct r as [a|e|]; [by eexists _, _, t1| |by eexists _, _, t1].
  destruct (Hh e w1) as (r2 & w2 & t2 & -> & Hcalls2 & Hrec2).
  exists r2, w2, (t1 ++ t2). split; [done|].
  split; [by rewrite Hcalls2, Hcalls1, <- app_assoc|].
  by rewrite recordCalls_app, Hrec1, Hrec2.
Qed.

Lemma quiet_getSiteId : quiet (getSiteId rewrapNetworkError dir cfg).
Proof.
  unfold getSiteId. apply quiet_tryCatch.
  - destruct (negb _ || negb _); [apply quiet_throw|].
    apply quiet_bind; [apply quiet_read | intros; apply quiet_ret].
  - intros e. cbv zeta. apply quiet_bind; [apply quiet_read|].
    intros [|first rest]; [apply quiet_throw | apply quiet_ret].
Qed.

Lemma quiet_resolveListId siteId idOrName :
  quiet (resolveListId rewrapNetworkError dir siteId idOrName).
Proof.
  unfold resolveListId. destruct (isGuid idOrName); [apply quiet_ret|].
  cbv zeta. apply quiet_bind; [apply quiet_read|].
  intros [|found rest]; [apply quiet_throw | apply quiet_ret].
Qed.

Lemma quiet_resolveDriveId siteId idOrName :
  quiet (resolveDriveId rewrapNetworkError decodeURIComponent dir siteId idOrName).
Proof.
  unfold resolveDriveId. apply quiet_bind; [apply quiet_read|].
  intros drives. destruct (isGuid idOrName); [apply quiet_ret|].
  destruct (decodeURIComponent idOrName) as [decoded|e|].
  - cbv zeta. destruct (find _ drives); [apply quiet_ret|].
    destruct (find _ drives); [apply quiet_ret | apply quiet_throw].
  - apply quiet_throw.
  - intros w. exists OutOfFuel, w, []. by rewrite app_nil_r.
Qed.

Lemma quiet_orResolve known resolve : quiet resolve → quiet (orResolve known resolve).
Proof.
  intros H. unfold orResolve. destruct known as [id|]; [|done].
  destruct (JS.truthy id); [apply quiet_ret | done].
Qed.

(** A probe never throws; it makes its one request, unless the host
    name is empty. *)
Lemma probeGraphReachable_run w :
  ∃ ok, probeGraphReachable cfg probeError w =
          (Ok ok, record (FETCH_GET (graphMetaUrl cfg) "cors") w).
Proof.
  unfold probeGraphReachable, tryCatch, bind, probeFetch. cbn [toStr].
  fold (graphMetaUrl cfg).
  destruct (probeError (graphMetaUrl cfg)); by eexists.
Qed.

Lemma probeSharePointHost_run w :
  ∃ ok,
    probeSharePointHost probeError (spSiteHostname cfg) w =
      (Ok ok, {| items := items w; session := session w;
                 calls := calls w ++ tail (probeCalls cfg) |}).
Proof.
  unfold probeSharePointHost, probeCalls, tryCatch, bind, probeFetch, record.
  cbn [toStr tail].
  destruct (JS.truthy (spSiteHostname cfg)); cbn [negb].
  - destruct (probeError _); by eexists.
  - exists false. rewrite app_nil_r. by destruct w.
Qed.

Lemma recordCalls_probes : recordCalls (probeCalls cfg) = [].
Proof. unfold probeCalls. by destruct (JS.truthy (spSiteHostname cfg)). Qed.

Lemma tryCatch_bind_ok {A B} (c : M A) (k : A → M B) (h : Error → M B) w a w1 :
  c w = (Ok a, w1) → tryCatch (bind c k) h w = tryCatch (k a) h w1.
Proof. intros H. unfold tryCatch, bind. by rewrite H. Qed.

(** The handler past the probes: the resolution of the identifiers,
    the column read, the uploads and the record. *)
Lemma resolution_trace (page : Page) (form : Form) (w : World) :
  ∃ r w' t,
    tryCatch
      (resolveAndSubmit rewrapNetworkError formatDateTimeForSharePoint
         decodeURIComponent rm dir cfg page form)
      (fun e => ret (Failed e)) w = (r, w') ∧
    calls w' = calls w ++ t ∧
    (∀ e, r ≠ Throw e) ∧
    ((recordCalls t = [] ∧ r ≠ Ok Submitted) ∨
     ∃ t0 path fields,
       t = t0 ++ [POST path (FieldsBody fields)] ∧ recordCalls t0 = [] ∧
       (r = Ok Submitted ↔ listError rm path = None)) ∧
    (∀ site list drive,
       resolved page =
         {| Resolved.siteId := Some site; Resolved.listId := Some list;
            Resolved.driveId := Some drive |} →
       JS.truthy site = true → JS.truthy list = true → JS.truthy drive = true →
       ∃ rest, t = GET (columnsPath site list) :: rest).
Proof.
  unfold resolveAndSubmit.
  set (resolveSite := orResolve (Resolved.siteId (resolved page)) _).
  assert (quiet resolveSite) as Hsite
    by apply quiet_orResolve, quiet_getSiteId.
  unfold tryCatch, bind at 1.
  destruct (Hsite w) as (r1 & w1 & t1 & Hrun1 & Hcalls1 & Hrec1). rewrite Hrun1.
  assert (∀ site list drive,
            resolved page =
              {| Resolved.siteId := Some site; Resolved.listId := Some list;
                 Resolved.driveId := Some drive |} →
            JS.truthy site = true → r1 = Ok site ∧ w1 = w) as Hknown1.
  { intros site list drive Hres Hs. subst resolveSite. rewrite Hres in Hrun1.
    cbn in Hrun1. rewrite Hs in Hrun1. by injection Hrun1 as <- <-. }
  destruct r1 as [siteId|e|].
  2: { exists (Ok (Failed e)), w1, t1. repeat split; try done; [by left|].
       intros site list drive Hres Hs _ _.
       by destruct (Hknown1 site list drive Hres Hs). }
  2: { exists OutOfFuel, w1, t1. repeat split; try done; [by left|].
       intros site list drive Hres Hs _ _.
       by destruct (Hknown1 site list drive Hres Hs). }
  set (resolveList := orResolve (Resolved.listId (resolved page)) _).
  assert (quiet resolveList) as Hlist
    by apply quiet_orResolve, quiet_resolveListId.
  unfold bind at 1.
  destruct (Hlist w1) as (r2 & w2 & t2 & Hrun2 & Hcalls2 & Hrec2). rewrite Hrun2.
  assert (∀ site list drive,
            resolved page =
              {| Resolved.siteId := Some site; Resolved.listId := Some list;
                 Resolved.driveId := Some drive |} →
            JS.truthy list = true → r2 = Ok list ∧ w2 = w1) as Hknown2.
  { intros site list drive Hres Hl. subst resolveList. rewrite Hres in Hrun2.
    cbn in Hrun2. rewrite Hl in Hrun2. by injection Hrun2 as <- <-. }
  assert (calls w2 = calls w ++ (t1 ++ t2)) as Hcalls12
    by by rewrite Hcalls2, Hcalls1, <- app_assoc.
  assert (recordCalls (t1 ++ t2) = []) as Hrec12
    by by rewrite recordCalls_app, Hrec1, Hrec2.
  destruct r2 as [listId|e|].
  2: { exists (Ok (Failed e)), w2, (t1 ++ t2). repeat split; try done; [by left|].
       intros site list drive Hres _ Hl _.
       by destruct (Hknown2 site list drive Hres Hl). }
  2: { exists OutOfFuel, w2, (t1 ++ t2). repeat split; try done; [by left|].
       intros site list drive Hres _ Hl _.
       by destruct (Hknown2 site list drive Hres Hl). }
  set (resolveDrive := orResolve (Resolved.driveId (resolved page)) _).
  assert (quiet resolveDrive) as Hdrive
    by apply quiet_orResolve, quiet_resolveDriveId.
  unfold bind at 1.
  destruct (Hdrive w2) as (r3 & w3 & t3 & Hrun3 & Hcalls3 & Hrec3). rewrite Hrun3.
  assert (∀ site list drive,
            resolved page =
              {| Resolved.siteId := Some site; Resolved.listId := Some list;
                 Resolved.driveId := Some drive |} →
            JS.truthy drive = true → r3 = Ok drive ∧ w3 = w2) as Hknown3.
  { intros site list drive Hres Hd. subst resolveDrive. rewrite Hres in Hrun3.
    cbn in Hrun3. rewrite Hd in Hrun3. by injection Hrun3 as <- <-. }
  assert (calls w3 = calls w ++ (t1 ++ t2 ++ t3)) as Hcalls123
    by by rewrite Hcalls3, Hcalls12, <- !app_assoc.
  assert (recordCalls (t1 ++ t2 ++ t3) = []) as Hrec123
    by by rewrite !recordCalls_app, Hrec1, Hrec2, Hrec3.
  destruct r3 as [driveId|e|].
  2: { exists (Ok (Failed e)), w3, (t1 ++ t2 ++ t3).
       repeat split; try done; [by left|].
       intros site list drive Hres _ _ Hd.
       by destruct (Hknown3 site list drive Hres Hd). }
  2: { exists OutOfFuel, w3, (t1 ++ t2 ++ t3).
       repeat split; try done; [by left|].
       intros site list drive Hres _ _ Hd.
       by destruct (Hknown3 site list drive Hres Hd). }
  unfold bind.
  destruct (submit_trace rewrapNetworkError formatDateTimeForSharePoint rm form
              siteId listId driveId w3)
    as (r & w4 & t & Hrun & Hcalls & Hfuel & _ & _ & Hrecord).
  rewrite Hrun.
  assert (calls w4 =
          calls w ++ (t1 ++ t2 ++ t3) ++ GET (columnsPath siteId listId) :: t)
    as Hcalls4 by by rewrite Hcalls, Hcalls123, <- !app_assoc.
  assert (∀ site list drive,
            resolved page =
              {| Resolved.siteId := Some site; Resolved.listId := Some list;
                 Resolved.driveId := Some drive |} →
            JS.truthy site = true → JS.truthy list = true →
            JS.truthy drive = true →
            ∃ rest,
              (t1 ++ t2 ++ t3) ++ GET (columnsPath siteId listId) :: t =
                GET (columnsPath site list) :: rest) as Hfirst.
  { intros site list drive Hres Hs Hl Hd.
    destruct (Hknown1 _ _ _ Hres Hs) as [[= ->] ->].
    destruct (Hknown2 _ _ _ Hres Hl) as [[= ->] ->].
    destruct (Hknown3 _ _ _ Hres Hd) as [[= ->] ->].
    assert (t1 = []) as ->.
    { apply (f_equal (@length Call)) in Hcalls1.
      rewrite length_app in Hcalls1. destruct t1; [done | cbn in Hcalls1; lia]. }
    assert (t2 = []) as ->.
    { apply (f_equal (@length Call)) in Hcalls2.
      rewrite length_app in Hcalls2. destruct t2; [done | cbn in Hcalls2; lia]. }
    assert (t3 = []) as ->.
    { apply (f_equal (@length Call)) in Hcalls3.
      rewrite length_app in Hcalls3. destruct t3; [done | cbn in Hcalls3; lia]. }
    by eexists. }
  assert (recordCalls ((t1 ++ t2 ++ t3) ++ GET (columnsPath siteId listId) :: t) =
          recordCalls t) as Hrec4
    by by rewrite recordCalls_app, Hrec123.
  destruct Hrecord as [[Hnone Hnot]|(t0 & fields & -> & Hrec0 & Hr)].
  - destruct r as [[]|e|]; [done| |done].
    exists (Ok (Failed e)), w4, ((t1 ++ t2 ++ t3) ++ GET (columnsPath siteId listId) :: t).
    repeat split; try done; left; by rewrite Hrec4.
  - exists (match r with Ok _ => Ok Submitted | Throw e => Ok (Failed e)
                       | OutOfFuel => OutOfFuel end), w4,
      ((t1 ++ t2 ++ t3) ++ GET (columnsPath siteId listId) ::
       t0 ++ [POST (itemsPath siteId listId) (FieldsBody fields)]).
    split; [by destruct r as [[]| |]|]. split; [done|].
    split; [by destruct r as [[]| |]|]. split; [|done].
    right.
    exists ((t1 ++ t2 ++ t3) ++ GET (columnsPath siteId listId) :: t0),
      (itemsPath siteId listId), fields.
    split; [by rewrite <- !app_assoc|]. split.
    + by rewrite recordCalls_app, Hrec123.
    + rewrite Hr. by destruct (listError rm (itemsPath siteId listId)).
Qed.

End HandlerRuns.

(** The handler [submit] never lets an error escape.  Its guards come
    first and in this order: not signed in, no file selected,
    authentication not ready, configuration not accepted; each ends the
    handler without any request.  Past the guards the handler first
    issues the requests of the two probes, whose answers do not change
    what follows; with all three identifiers kept from an earlier run,
    the next request is the column read of that list.  At most one
    record call is made, as the very last request, and the handler
    reports success exactly when that call is made and answered without
    error. *)
Theorem submit_outcome (rewrapNetworkError : Error → string → Error)
    (formatDateTimeForSharePoint : string → string → string)
    (decodeURIComponent : string → Result string) (rm : Remote)
    (dir : Directory) (cfg : Config) (probeError : string → option Error)
    (page : Page) (form : Form) (w : World) :
  ∃ r w' t,
    submitHandler rewrapNetworkError formatDateTimeForSharePoint decodeURIComponent
      rm dir cfg probeError page form w = (r, w') ∧
    calls w' = calls w ++ t ∧
    (∀ e, r ≠ Throw e) ∧
    (account page = false → r = Ok (Alert "Please sign in first.") ∧ w' = w) ∧
    (account page = true → files form = [] →
     r = Ok (Alert "Select at least one photo.") ∧ w' = w) ∧
    (account page = true → files form ≠ [] → msalReady page = false →
     r = Ok (Alert "Auth is still initializing. Try again in a moment.") ∧ w' = w) ∧
    (account page = true → files form ≠ [] → msalReady page = true →
     configAccepted page = false → r = Ok Declined ∧ w' = w) ∧
    ((recordCalls t = [] ∧ r ≠ Ok Submitted) ∨
     ∃ t0 path fields,
       t = t0 ++ [POST path (FieldsBody fields)] ∧ recordCalls t0 = [] ∧
       (r = Ok Submitted ↔ listError rm path = None)) ∧
    (account page = true → files form ≠ [] → msalReady page = true →
     configAccepted page = true →
     ∃ rest,
       t = probeCalls cfg ++ rest ∧
       submitHandler rewrapNetworkError formatDateTimeForSharePoint
         decodeURIComponent rm dir cfg (fun _ => None) page form w = (r, w') ∧
       ∀ site list drive,
         resolved page =
           {| Resolved.siteId := Some site; Resolved.listId := Some list;
              Resolved.driveId := Some drive |} →
         JS.truthy site = true → JS.truthy list = true → JS.truthy drive = true →
         ∃ rest', rest = GET (columnsPath site list) :: rest').
Proof.
  set (w0 := {| items := items w; session := session w;
               calls := (calls w ++ [FETCH_GET (graphMetaUrl cfg) "cors"]) ++
                        tail (probeCalls cfg) |}).
  assert (∀ probes,
            account page = true → files form ≠ [] → msalReady page = true →
            configAccepted page = true →
            submitHandler rewrapNetworkError formatDateTimeForSharePoint
              decodeURIComponent rm dir cfg probes page form w =
            tryCatch
              (resolveAndSubmit rewrapNetworkError formatDateTimeForSharePoint
                 decodeURIComponent rm dir cfg page form)
              (fun e => ret (Failed e)) w0) as Hprobes.
  { intros probes Haccount Hfiles Hready Haccepted. unfold submitHandler.
    rewrite Haccount, Hready, Haccepted, bool_decide_eq_false_2 by done.
    cbn [negb].
    destruct (probeGraphReachable_run cfg probes w) as (g & Hg).
    rewrite (tryCatch_bind_ok _ _ _ _ _ _ Hg).
    destruct (probeSharePointHost_run cfg probes
                (record (FETCH_GET (graphMetaUrl cfg) "cors") w)) as (s & Hs).
    by rewrite (tryCatch_bind_ok _ _ _ _ _ _ Hs). }
  destruct (account page) eqn:Haccount;
    [|unfold submitHandler; rewrite Haccount; cbn [negb];
      exists (Ok (Alert "Please sign in first.")), w, []; rewrite app_nil_r;
      repeat split; try done; by left].
  destruct (decide (files form = [])) as [Hfiles|Hfiles];
    [unfold submitHandler; rewrite Haccount, bool_decide_eq_true_2 by done;
     cbn [negb];
     exists (Ok (Alert "Select at least one photo.")), w, []; rewrite app_nil_r;
     repeat split; try done; by left|].
  destruct (msalReady page) eqn:Hready;
    [|unfold submitHandler;
      rewrite Haccount, Hready, bool_decide_eq_false_2 by done; cbn [negb];
      exists (Ok (Alert "Auth is still initializing. Try again in a moment.")), w, [];
      rewrite app_nil_r; repeat split; try done; by left].
  destruct (configAccepted page) eqn:Haccepted;
    [|unfold submitHandler;
      rewrite Haccount, Hready, Haccepted, bool_decide_eq_false_2 by done;
      cbn [negb];
      exists (Ok Declined), w, []; rewrite app_nil_r;
      repeat split; try done; by left].
  destruct (resolution_trace rewrapNetworkError formatDateTimeForSharePoint
              decodeURIComponent rm dir cfg page form w0)
    as (r & w' & t & Hrun & Hcalls & Hthrow & Hrecord & Hfirst).
  assert (calls w0 = calls w ++ probeCalls cfg) as Hcalls0
    by (subst w0; cbn [calls]; by rewrite <- app_assoc).
  exists r, w', (probeCalls cfg ++ t).
  split; [by rewrite Hprobes|].
  split; [by rewrite Hcalls, Hcalls0, <- app_assoc|].
  split; [done|]. split; [done|]. split; [done|]. split; [done|]. split; [done|].
  split.
  - destruct Hrecord as [[Hnone Hnot]|(t0 & path & fields & -> & Hrec0 & Hr)].
    + left. by rewrite recordCalls_app, recordCalls_probes.
    + right. exists (probeCalls cfg ++ t0), path, fields.
      split; [by rewrite <- app_assoc|].
      split; [by rewrite recordCalls_app, recordCalls_probes | done].
  - intros _ _ _ _. exists t. split; [done|]. split; [by rewrite Hprobes | done].
Qed.




(** ** Name and path pieces *)

Section Pieces.

Lemma lastIndexOfGo_spec x l : ∀ i found,
  ((x ∉ l) ∧ JS.lastIndexOfGo x i found l = found) ∨
  (∃ pre post, l = pre ++ x :: post ∧ (x ∉ post) ∧
               JS.lastIndexOfGo x i found l = Some (i + length pre)%nat).
Proof.
  induction l as [|c l IH]; intros i found; cbn [JS.lastIndexOfGo].
  - left. split; [apply not_elem_of_nil | done].
  - destruct (IH (S i) (if JS.isChar x c then Some i else found))
      as [[Hno Hr]|(pre & post & -> & Hpost & Hr)].
    + destruct (JS.isChar x c) eqn:Hc.
      * apply isChar_eq in Hc as ->. right. exists [], l.
        split; [done|]. split; [done|]. rewrite Hr. f_equal. cbn. lia.
      * left. split; [|done]. apply not_elem_of_cons. split; [|done].
        intros ->. assert (JS.isChar c c = true) by by apply isChar_eq. congruence.
    + right. exists (c :: pre), post. split; [done|]. split; [done|].
      rewrite Hr. f_equal. cbn. lia.
Qed.

Lemma collapseGo_noRun p r : p r = true → ∀ l b,
  noRun p (JS.collapseGo p r b l) = true ∧
  (b = true → ∀ c, head (JS.collapseGo p r b l) = Some c → p c = false).
Proof.
  intros Hr. induction l as [|c l IH]; intros b; [by split|].
  cbn [JS.collapseGo]. destruct (p c) eqn:Hc.
  - destruct (IH true) as [Hn Hh]. destruct b.
    + split; [done|]. intros _. by apply Hh.
    + split; [|done]. cbn [noRun].
      destruct (JS.collapseGo p r true l) as [|d k] eqn:E; [done|].
      rewrite (Hh eq_refl d eq_refl), andb_false_r. done.
  - destruct (IH false) as [Hn _]. split.
    + cbn [noRun]. destruct (JS.collapseGo p r false l) as [|d k] eqn:E; [done|].
      by rewrite Hc.
    + intros _ ? [= <-]. done.
Qed.

Lemma collapseGo_id p r : (∀ c, p c = true → c = r) → ∀ l b,
  noRun p l = true → (b = true → ∀ c, head l = Some c → p c = false) →
  JS.collapseGo p r b l = l.
Proof.
  intros Hr. induction l as [|c l IH]; intros b Hn Hh; [done|].
  cbn [JS.collapseGo]. destruct (p c) eqn:Hc.
  - destruct b; [by rewrite (Hh eq_refl c eq_refl) in Hc|].
    pose proof (Hr c Hc) as ->. f_equal. apply IH.
    + destruct l as [|d k]; [done|]. cbn [noRun] in Hn.
      by apply andb_true_iff in Hn as [_ ?].
    + intros _ d Hd. destruct l as [|d' k]; [done|]. injection Hd as ->.
      cbn [noRun] in Hn. rewrite Hc in Hn. cbn in Hn.
      by destruct (p d).
  - f_equal. apply IH; [|done].
    destruct l as [|d k]; [done|]. cbn [noRun] in Hn.
    by apply andb_true_iff in Hn as [_ ?].
Qed.

Lemma collapseGo_others p r : p r = true → ∀ l b,
  filter (fun c => p c = false) (JS.collapseGo p r b l) = filter (fun c => p c = false) l.
Proof.
  intros Hr. induction l as [|c l IH]; intros b; [done|].
  cbn [JS.collapseGo]. destruct (p c) eqn:Hc.
  - rewrite (filter_cons_False _ c) by by rewrite Hc.
    destruct b; [apply IH|].
    rewrite filter_cons_False by by rewrite Hr. apply IH.
  - rewrite !filter_cons_True by done. f_equal. apply IH.
Qed.

End Pieces.

(** The name of a file is cut at its last dot: without a dot the base is
    the whole name and the extension is empty; with one, the name is the
    base, the dot and the extension, and the extension has no dot. *)
Theorem fileName_split (originalName : string) :
  (("."%char ∉ JS.chars originalName) ∧
   fileBase originalName = originalName ∧ fileExt originalName = "") ∨
  (("."%char ∈ JS.chars originalName) ∧
   originalName = fileBase originalName +:+ "." +:+ fileExt originalName ∧
   ("."%char ∉ JS.chars (fileExt originalName))).
Proof.
  unfold fileBase, fileExt, JS.lastIndexOf.
  destruct (lastIndexOfGo_spec "." (JS.chars originalName) 0 None)
    as [[Hno ->]|(pre & post & Hl & Hpost & ->)]; [by left|].
  right. cbn [Nat.add].
  assert (JS.sliceTo (length pre) originalName = JS.str pre) as ->.
  { unfold JS.sliceTo, JS.onChars. by rewrite Hl, take_app_length. }
  assert (JS.sliceFrom (length pre + 1) originalName = JS.str post) as ->.
  { unfold JS.sliceFrom, JS.onChars. rewrite Hl.
    rewrite (cons_middle _ pre post), app_assoc.
    replace (length pre + 1)%nat with (length (pre ++ ["."%char]))
      by (rewrite length_app; cbn; lia).
    by rewrite drop_app_length. }
  split; [rewrite Hl; apply elem_of_app; right; left|].
  split; [|by rewrite chars_str].
  apply chars_inj. by rewrite !chars_app, !chars_str.
Qed.

(** The rewrite of slash runs in [ensureFolder] leaves no two slashes
    side by side, keeps every other code unit in place, changes nothing
    in a path without a double slash, and so changes nothing when
    applied again. *)
Theorem collapseSlashes_spec (s : string) :
  noRun (JS.isChar "/") (JS.chars (collapseSlashes s)) = true ∧
  filter (fun c => JS.isChar "/" c = false) (JS.chars (collapseSlashes s)) =
    filter (fun c => JS.isChar "/" c = false) (JS.chars s) ∧
  (noRun (JS.isChar "/") (JS.chars s) = true → collapseSlashes s = s) ∧
  collapseSlashes (collapseSlashes s) = collapseSlashes s.
Proof.
  assert (JS.isChar "/" "/" = true) as Hr by reflexivity.
  assert (∀ c, JS.isChar "/" c = true → c = "/"%char) as Hr'
    by (intros c; apply isChar_eq).
  assert (∀ t, noRun (JS.isChar "/") (JS.chars t) = true → collapseSlashes t = t) as Hid.
  { intros t Ht. apply chars_inj. unfold collapseSlashes. rewrite chars_onChars.
    by apply collapseGo_id. }
  assert (noRun (JS.isChar "/") (JS.chars (collapseSlashes s)) = true) as Hn.
  { unfold collapseSlashes. rewrite chars_onChars. by apply collapseGo_noRun. }
  split; [done|]. split; [|split; [apply Hid | by apply Hid]].
  unfold collapseSlashes. rewrite chars_onChars. by apply collapseGo_others.
Qed.


(** ** The folder ensured and the folder uploaded to *)

Section Paths.

Lemma cleanName_plain s :
  JS.chars s ≠ [] → Forall (fun c => plainChar c = true) (JS.chars s) → cleanName s.
Proof.
  intros Hne Hall. split; [by apply truthy_chars|]. split.
  - intros Hin. rewrite Forall_forall in Hall. by apply Hall in Hin.
  - apply chars_inj. unfold JS.trim. rewrite chars_onChars.
    apply stripEnds_fixed; intros c Hc.
    + assert (c ∈ JS.chars s) as Hin by (destruct (JS.chars s); [done|]; injection Hc as ->; left).
      rewrite Forall_forall in Hall. apply Hall in Hin.
      unfold plainChar in Hin. apply andb_true_iff in Hin as [_ Hin].
      by apply negb_true_iff in Hin.
    + apply last_Some_elem_of in Hc.
      rewrite Forall_forall in Hall. apply Hall in Hc.
      unfold plainChar in Hc. apply andb_true_iff in Hc as [_ Hc].
      by apply negb_true_iff in Hc.
Qed.

Lemma uint_plain d :
  Forall (fun c => plainChar c = true) (JS.chars (NilEmpty.string_of_uint d)).
Proof. induction d; cbn; constructor; done. Qed.

Lemma uint_string_plain d :
  JS.chars (NilZero.string_of_uint d) ≠ [] ∧
  Forall (fun c => plainChar c = true) (JS.chars (NilZero.string_of_uint d)).
Proof.
  unfold NilZero.string_of_uint. destruct d eqn:E;
    try (rewrite <- E; split; [by rewrite E | apply uint_plain]).
  split; [done | by repeat constructor].
Qed.

Lemma yearName_clean stamp : cleanName (yearName stamp).
Proof.
  unfold yearName, JS.ofZ, NilZero.string_of_int.
  destruct (Z.to_int (getFullYear stamp)) as [d|d];
    destruct (uint_string_plain d) as [Hne Hall].
  - by apply cleanName_plain.
  - apply cleanName_plain; [done | by constructor].
Qed.

Lemma monthName_clean stamp : cleanName (monthName stamp).
Proof.
  unfold monthName, JS.ofN.
  destruct (uint_string_plain (N.to_uint (getMonth stamp + 1))) as [Hne Hall].
  unfold JS.padStart2.
  destruct (String.length _) as [|[|n]].
  - apply cleanName_plain; [done|]. rewrite chars_app.
    apply Forall_app. split; [by repeat constructor | done].
  - apply cleanName_plain; [done|]. rewrite chars_app.
    apply Forall_app. split; [by repeat constructor | done].
  - by apply cleanName_plain.
Qed.

Lemma pathOf_cons seg segs :
  segs ≠ [] → pathOf (seg :: segs) = seg +:+ "/" +:+ pathOf segs.
Proof. by destruct segs. Qed.

Lemma pathOf_app a b :
  a ≠ [] → b ≠ [] → pathOf (a ++ b) = pathOf a +:+ "/" +:+ pathOf b.
Proof.
  intros Ha Hb. induction a as [|x a IH]; [done|].
  destruct a as [|y a].
  - cbn [app]. by rewrite pathOf_cons.
  - cbn [app]. rewrite pathOf_cons by done. cbn [app] in IH. rewrite IH by done.
    rewrite (pathOf_cons x (y :: a)) by done. by rewrite !append_assoc.
Qed.

Lemma cleanName_head seg : cleanName seg → ∃ c k, JS.chars seg = c :: k ∧ c ≠ "/"%char.
Proof.
  intros (Ht & Hs & _). apply truthy_chars in Ht.
  destruct (JS.chars seg) as [|c k]; [done|]. exists c, k. split; [done|].
  intros ->. apply Hs. left.
Qed.

Lemma pathOf_chars seg segs :
  segs ≠ [] → JS.chars (pathOf (seg :: segs)) =
               JS.chars seg ++ "/"%char :: JS.chars (pathOf segs).
Proof. intros H. by rewrite pathOf_cons, !chars_app. Qed.

Lemma pathOf_truthy segs :
  segs ≠ [] → Forall cleanName segs → JS.truthy (pathOf segs) = true.
Proof.
  intros Hne Hall. destruct segs as [|seg segs]; [done|].
  apply Forall_cons in Hall as [(Ht & _) _]. destruct segs as [|y segs]; [done|].
  apply truthy_chars. rewrite pathOf_chars by done.
  apply truthy_chars in Ht. by destruct (JS.chars seg).
Qed.

Lemma pathOf_noEdgeSlash segs : Forall cleanName segs → noEdgeSlash (pathOf segs).
Proof.
  induction segs as [|seg segs IH]; intros Hall; [by split|].
  apply Forall_cons in Hall as [Hseg Hall].
  destruct segs as [|y segs].
  - cbn. destruct Hseg as (_ & Hs & _). split.
    + destruct (JS.chars seg) as [|c k] eqn:E; [done|]. cbn. intros [= ->].
      apply Hs. left.
    + intros Hl%last_Some_elem_of. done.
  - rewrite pathOf_cons by done. apply noEdgeSlash_join.
    + by destruct Hseg.
    + by apply pathOf_truthy.
    + destruct Hseg as (_ & Hs & _). split.
      * destruct (JS.chars seg) as [|c k] eqn:E; [done|]. cbn. intros [= ->].
        apply Hs. left.
      * intros Hl%last_Some_elem_of. done.
    + by apply IH.
Qed.

Lemma noRun_cons2 p a b r :
  noRun p (a :: b :: r) = negb (p a && p b) && noRun p (b :: r).
Proof. done. Qed.

Lemma noRun_free_app p a l :
  Forall (fun c => p c = false) a → a ≠ [] → noRun p (a ++ l) = noRun p l.
Proof.
  induction a as [|c a IH]; intros Hall Hne; [done|].
  apply Forall_cons in Hall as [Hc Hall]. destruct a as [|d a].
  - cbn [app]. destruct l as [|e l]; [done|]. cbn [noRun]. by rewrite Hc.
  - cbn [app noRun]. rewrite Hc. cbn [andb negb]. by apply IH.
Qed.

Lemma cleanName_free seg :
  cleanName seg → Forall (fun c => JS.isChar "/" c = false) (JS.chars seg) ∧
                  JS.chars seg ≠ [].
Proof.
  intros (Ht & Hs & _). split; [|by apply truthy_chars].
  apply Forall_forall. intros c Hc. apply not_true_iff_false.
  intros ->%isChar_eq. done.
Qed.

Lemma pathOf_noRun segs :
  Forall cleanName segs → noRun (JS.isChar "/") (JS.chars (pathOf segs)) = true.
Proof.
  induction segs as [|seg segs IH]; intros Hall; [done|].
  apply Forall_cons in Hall as [Hseg Hall].
  destruct (cleanName_free _ Hseg) as [Hfree Hne].
  destruct segs as [|y segs].
  - cbn [pathOf String.concat]. rewrite <- (app_nil_r (JS.chars seg)).
    by rewrite noRun_free_app.
  - rewrite pathOf_chars by done. rewrite noRun_free_app by done.
    specialize (IH Hall). apply Forall_cons in Hall as [Hy _].
    destruct (cleanName_head _ Hy) as (c & k & Hck & Hc).
    destruct (JS.chars (pathOf (y :: segs))) as [|d rest] eqn:E.
    + done.
    + rewrite noRun_cons2, IH.
      assert (d = c) as ->.
      { destruct segs; [cbn in E; congruence|].
        rewrite pathOf_chars in E by done. rewrite Hck in E. by injection E. }
      assert (JS.isChar "/" c = false) as ->
        by (apply not_true_iff_false; by intros ->%isChar_eq).
      by rewrite andb_false_r.
Qed.

Lemma splitGo_free_app sep a cur l :
  Forall (fun c => JS.isChar sep c = false) a →
  JS.splitGo sep cur (a ++ l) = JS.splitGo sep (rev a ++ cur) l.
Proof.
  revert cur. induction a as [|c a IH]; intros cur Hall; [done|].
  apply Forall_cons in Hall as [Hc Hall]. cbn [app JS.splitGo]. rewrite Hc.
  rewrite IH by done. cbn [rev]. by rewrite <- app_assoc.
Qed.

Lemma splitGo_pathOf segs : ∀ seg cur,
  Forall cleanName (seg :: segs) →
  JS.splitGo "/" cur (JS.chars (pathOf (seg :: segs))) =
    (rev cur ++ JS.chars seg) :: map JS.chars segs.
Proof.
  induction segs as [|y segs IH]; intros seg cur Hall;
    apply Forall_cons in Hall as [Hseg Hall];
    destruct (cleanName_free _ Hseg) as [Hfree _].
  - cbn [pathOf String.concat map].
    rewrite <- (app_nil_r (JS.chars seg)) at 1.
    rewrite splitGo_free_app by done. cbn. by rewrite rev_app_distr, rev_involutive.
  - rewrite pathOf_chars by done. rewrite splitGo_free_app by done.
    cbn [JS.splitGo]. change (JS.isChar "/" "/") with true. cbn match.
    rewrite IH by done. by rewrite rev_app_distr, rev_involutive.
Qed.

Lemma split_pathOf segs :
  segs ≠ [] → Forall cleanName segs → JS.split "/" (pathOf segs) = segs.
Proof.
  intros Hne Hall. destruct segs as [|seg segs]; [done|].
  unfold JS.split. rewrite splitGo_pathOf by done. cbn [rev app map].
  rewrite str_chars. f_equal. rewrite map_map.
  rewrite <- (map_id segs) at 2. apply map_ext. intros s. apply str_chars.
Qed.

Lemma joinPath_truthy_l parent x :
  JS.truthy parent = true → JS.truthy (parent +:+ "/" +:+ x) = true.
Proof.
  intros Hp. apply truthy_chars. rewrite chars_app. apply truthy_chars in Hp.
  by destruct (JS.chars parent).
Qed.

Lemma fold_joinPath segs : ∀ parent,
  JS.truthy parent = true → segs ≠ [] →
  fold_left joinPath segs parent = parent +:+ "/" +:+ pathOf segs.
Proof.
  induction segs as [|x segs IH]; intros parent Hp Hne; [done|].
  cbn [fold_left]. unfold joinPath at 2. rewrite Hp.
  destruct segs as [|y segs]; [done|].
  rewrite IH; [|by apply (joinPath_truthy_l parent x)|done].
  rewrite (pathOf_cons x) by done. by rewrite !append_assoc.
Qed.

Lemma folderPaths_clean x segs parent :
  cleanName x →
  folderPaths parent (x :: segs) =
    joinPath parent x :: folderPaths (joinPath parent x) segs.
Proof. intros (Ht & _ & Htrim). cbn [folderPaths]. by rewrite Htrim, Ht. Qed.

Lemma folderPaths_last segs : ∀ x parent,
  Forall cleanName (x :: segs) →
  last (folderPaths parent (x :: segs)) = Some (fold_left joinPath (x :: segs) parent).
Proof.
  induction segs as [|y segs IH]; intros x parent Hall;
    apply Forall_cons in Hall as [Hx Hall]; rewrite folderPaths_clean by done.
  - done.
  - rewrite last_cons, (IH y (joinPath parent x) Hall). done.
Qed.

End Paths.


Section Landing.

Lemma trimSlashes_lead s : trimSlashes ("/" +:+ s) = trimSlashes s.
Proof. done. Qed.

Lemma fold_joinPath_root segs :
  segs ≠ [] → Forall cleanName segs → fold_left joinPath segs "" = pathOf segs.
Proof.
  intros Hne Hall. destruct segs as [|x rest]; [done|].
  cbn [fold_left]. change (joinPath "" x) with x.
  destruct rest as [|y rest]; [done|].
  apply Forall_cons in Hall as [(Ht & _) _].
  by rewrite fold_joinPath.
Qed.

Lemma stripLeadingSlashes_id s :
  head (JS.chars s) ≠ Some "/"%char → stripLeadingSlashes s = s.
Proof.
  intros Hh. apply chars_inj. unfold stripLeadingSlashes. rewrite chars_onChars.
  destruct (JS.chars s) as [|c k]; [done|]. apply dropWhile_id.
  apply not_true_iff_false. intros ->%isChar_eq. by apply Hh.
Qed.

Lemma last_map {A B} (f : A → B) (l : list A) :
  last (map f l) = option_map f (last l).
Proof.
  induction l as [|a l IH]; [done|].
  destruct l as [|b l]; [done|]. exact IH.
Qed.

Lemma names_clean segs stamp :
  Forall cleanName segs →
  Forall cleanName (segs ++ [yearName stamp; monthName stamp]).
Proof.
  intros Hall. apply Forall_app. split; [done|].
  constructor; [apply yearName_clean|].
  constructor; [apply monthName_clean | constructor].
Qed.

Lemma combined_path segs stamp :
  Forall cleanName segs →
  trimSlashes (pathOf segs +:+ "/" +:+ yearName stamp +:+ "/" +:+ monthName stamp) =
    pathOf (segs ++ [yearName stamp; monthName stamp]).
Proof.
  intros Hall. destruct segs as [|x rest].
  - change (pathOf [] +:+ "/" +:+ ?s) with ("/" +:+ s).
    rewrite trimSlashes_lead.
    apply (trimSlashes_id (pathOf [yearName stamp; monthName stamp])).
    apply pathOf_noEdgeSlash, (names_clean [] stamp). constructor.
  - assert (pathOf ((x :: rest) ++ [yearName stamp; monthName stamp]) =
            pathOf (x :: rest) +:+ "/" +:+ yearName stamp +:+ "/" +:+ monthName stamp)
      as Heq by by rewrite pathOf_app.
    rewrite <- Heq. apply trimSlashes_id, pathOf_noEdgeSlash. by apply names_clean.
Qed.

End Landing.

Section Landed.

Variable segs : list string.
Variable stamp : Date.
Hypothesis Hall : Forall cleanName segs.

Let names := segs ++ [yearName stamp; monthName stamp].

Lemma folderSegments_pathOf : folderSegments (pathOf segs) stamp = names.
Proof.
  pose proof (names_clean segs stamp Hall) as Hnames. fold names in Hnames.
  assert (names ≠ []) as Hne by (subst names; by destruct segs).
  unfold folderSegments. fold (yearName stamp) (monthName stamp).
  rewrite combined_path by done. fold names.
  assert (collapseSlashes (pathOf names) = pathOf names) as ->.
  { apply chars_inj. unfold collapseSlashes. rewrite chars_onChars.
    apply collapseGo_id; [intros c; apply isChar_eq | by apply pathOf_noRun | done]. }
  by apply split_pathOf.
Qed.

Lemma folderAddresses_last driveId :
  last (folderAddresses driveId (pathOf segs) stamp) =
    Some (folderAddress driveId (pathOf names)).
Proof.
  pose proof (names_clean segs stamp Hall) as Hnames. fold names in Hnames.
  assert (names ≠ []) as Hne by (subst names; by destruct segs).
  unfold folderAddresses. rewrite folderSegments_pathOf.
  destruct names as [|x rest] eqn:E; [done|].
  rewrite last_map, folderPaths_last by done. cbn [option_map].
  by rewrite fold_joinPath_root.
Qed.

Lemma uploadTarget_pathOf file villageValue :
  uploadTarget (pathOf segs) stamp file villageValue =
    pathOf names +:+ "/" +:+ buildTargetFileName file villageValue stamp.
Proof.
  unfold uploadTarget. fold (yearName stamp) (monthName stamp).
  set (fileName := buildTargetFileName file villageValue stamp).
  destruct segs as [|x rest].
  - change (trimSlashes (pathOf [])) with "".
    change ("" +:+ "/" +:+ ?s) with ("/" +:+ s).
    change (stripLeadingSlashes ("/" +:+ ?s)) with (stripLeadingSlashes s).
    rewrite stripLeadingSlashes_id.
    + subst names. cbn [app].
      change (pathOf [yearName stamp; monthName stamp])
        with (yearName stamp +:+ "/" +:+ monthName stamp).
      by rewrite !append_assoc.
    + rewrite !chars_app.
      destruct (cleanName_head _ (yearName_clean stamp)) as (c & k & -> & Hc).
      cbn. congruence.
  - rewrite (trimSlashes_id (pathOf (x :: rest)))
      by by apply pathOf_noEdgeSlash.
    rewrite stripLeadingSlashes_id.
    + subst names. rewrite pathOf_app by done.
      change (pathOf [yearName stamp; monthName stamp])
        with (yearName stamp +:+ "/" +:+ monthName stamp).
      by rewrite !append_assoc.
    + rewrite chars_app.
      pose proof (pathOf_truthy (x :: rest) ltac:(done) Hall) as Ht.
      apply truthy_chars in Ht.
      destruct (pathOf_noEdgeSlash _ Hall) as [Hh _].
      destruct (JS.chars (pathOf (x :: rest))); [done|]. exact Hh.
Qed.

End Landed.

(** For a library folder given by clean folder names, [ensureFolder]
    walks exactly these names followed by the year and the month and
    returns [YYYY/MM]; the last folder it reads is the folder of that
    whole path, and this folder is in the drive when it returns.
    [uploadOne] runs [ensureFolder] with the time of the call and then
    addresses its first request, the content write of a file up to the
    threshold and the upload session of a larger one, to the file in
    this very folder, under the name [buildTargetFileName] gives it. *)
Theorem upload_into_ensured_folder (rewrapNetworkError : Error → string → Error)
    (rm : Remote) (driveId : string) (segs : list string) (file : File.t)
    (villageValue : string) (w : World) :
  Forall cleanName segs →
  let stamp := now rm (length (calls w)) in
  let names := segs ++ [yearName stamp; monthName stamp] in
  let target :=
    pathOf names +:+ "/" +:+ buildTargetFileName file villageValue stamp in
  folderSegments (pathOf segs) stamp = names ∧
  ∃ w1 t1 r w' t2,
    ensureFolder rewrapNetworkError rm driveId (pathOf segs) stamp w =
      (Ok (yearName stamp +:+ "/" +:+ monthName stamp), w1) ∧
    calls w1 = calls w ++ t1 ∧
    last (reads t1) = Some (folderAddress driveId (pathOf names)) ∧
    folderAddress driveId (pathOf names) ∈ items w1 ∧
    uploadOne rewrapNetworkError rm driveId (pathOf segs) file villageValue w =
      (r, w') ∧
    calls w' = calls w1 ++
      (if File.size file <=? 3999999
       then PUT_CONTENT
              ("/drives/" +:+ driveId +:+ "/root:/" +:+ JS.encodeURI target +:+
               ":/content") file
       else CREATE_UPLOAD_SESSION
              ("/drives/" +:+ driveId +:+ "/root:/" +:+ JS.encodeURI target +:+
               ":/createUploadSession") "rename") :: t2.
Proof.
  intros Hall stamp names target.
  split; [by apply folderSegments_pathOf|].
  assert (Forall (fun raw => noEdgeSlash (JS.trim raw))
            (folderSegments (pathOf segs) stamp)) as Hraws.
  { apply Forall_forall. intros raw Hraw.
    by apply split_segment_noEdgeSlash in Hraw. }
  destruct (ensureSegments_spec rewrapNetworkError rm driveId _ "" w
              noEdgeSlash_empty Hraws)
    as (r1 & w1 & t1 & Hrun1 & Hcalls1 & _ & Hitems & Hreads & _ & _).
  fold (folderAddresses driveId (pathOf segs) stamp) in Hitems, Hreads.
  pose proof (folderAddresses_last segs stamp Hall driveId) as Hlast.
  fold names in Hlast.
  assert (ensureFolder rewrapNetworkError rm driveId (pathOf segs) stamp w =
            (Ok (yearName stamp +:+ "/" +:+ monthName stamp), w1)) as Hrun.
  { unfold ensureFolder, bind.
    fold (folderSegments (pathOf segs) stamp). by rewrite Hrun1. }
  exists w1, t1.
  assert (∃ r w' t2,
            uploadOne rewrapNetworkError rm driveId (pathOf segs) file villageValue w =
              (r, w') ∧
            calls w' = calls w1 ++
              (if File.size file <=? 3999999
               then PUT_CONTENT
                      ("/drives/" +:+ driveId +:+ "/root:/" +:+ JS.encodeURI target +:+
                       ":/content") file
               else CREATE_UPLOAD_SESSION
                      ("/drives/" +:+ driveId +:+ "/root:/" +:+ JS.encodeURI target +:+
                       ":/createUploadSession") "rename") :: t2)
    as (r & w' & t2 & Hupload & Hcalls).
  { rewrite uploadOne_unfold. cbn zeta. fold stamp. rewrite Hrun.
    change (stripLeadingSlashes _)
      with (uploadTarget (pathOf segs) stamp file villageValue).
    rewrite (uploadTarget_pathOf segs stamp Hall). fold names target.
    destruct (File.size file <=? 3999999) eqn:Hsize.
    - unfold sgraph_putContent.
      destruct (stripSuffix _ _); by eexists _, _, [].
    - unfold sgraph_createUploadSession.
      destruct (stripSuffix _ _) as [a|]; [|by eexists _, _, []].
      set (w2 := {| items := _; session := _; calls := _ |}).
      apply N.leb_gt in Hsize.
      destruct (uploadChunks_spec rewrapNetworkError rm (uploadUrlOf rm a)
                  (File.size file)
                  (S (N.to_nat (File.size file / chunkSize))) 0 w2)
        as (r & w3 & k & Hchunks & Hcalls3 & _).
      { unfold chunkStart. cbn. lia. }
      { unfold chunkStart. rewrite chunkSize_val.
        pose proof (N.Div0.div_mod (File.size file) 5242880).
        pose proof (N.mod_lt (File.size file) 5242880). lia. }
      change (chunkStart 0) with 0 in Hchunks. rewrite Hchunks.
      assert (calls w2 = calls w1 ++
                [CREATE_UPLOAD_SESSION
                   ("/drives/" +:+ driveId +:+ "/root:/" +:+ JS.encodeURI target +:+
                    ":/createUploadSession") "rename"]) as Hcalls2 by done.
      destruct r as [[]|e|].
      + unfold sgraph_get.
        destruct (bool_decide _); eexists _, _, _; (split; [reflexivity|]);
          cbn [calls record]; rewrite Hcalls3, Hcalls2, <- !app_assoc;
          reflexivity.
      + eexists _, _, _. split; [reflexivity|].
        rewrite Hcalls3, Hcalls2, <- !app_assoc. reflexivity.
      + eexists _, _, _. split; [reflexivity|].
        rewrite Hcalls3, Hcalls2, <- !app_assoc. reflexivity. }
  exists r, w', t2.
  split; [done|]. split; [done|].
  split; [by rewrite Hreads|]. split; [|done].
  rewrite Hitems. apply elem_of_union_r, elem_of_list_to_set.
  apply last_Some in Hlast as [l' ->].
  apply elem_of_app. right. apply list_elem_of_here.
Qed.

Lemma upload_into_ensured_folder_witness :
  let file := {| File.name := Some "hall.jpg"; File.size := 1024 |} in
  ∃ w1 t1 r w' t2,
    ensureFolder keepError (demoRemote [] 0) "b!drive" libraryFolderPath demoStamp
      emptyWorld = (Ok "2024/01", w1) ∧
    calls w1 = t1 ∧
    last (reads t1) =
      Some (folderAddress "b!drive" "VillageReconPhotos/2024/01") ∧
    folderAddress "b!drive" "VillageReconPhotos/2024/01" ∈ items w1 ∧
    uploadOne keepError (demoRemote [] 0) "b!drive" libraryFolderPath file
      "Hillsborough" emptyWorld = (r, w') ∧
    calls w' = calls w1 ++
      PUT_CONTENT
        ("/drives/b!drive/root:/" +:+
         JS.encodeURI ("VillageReconPhotos/2024/01/" +:+
                       buildTargetFileName file "Hillsborough" demoStamp) +:+
         ":/content") file :: t2.
Proof.
  intros file.
  destruct (upload_into_ensured_folder keepError (demoRemote [] 0) "b!drive"
              [libraryFolderPath] file "Hillsborough" emptyWorld)
    as (_ & w1 & t1 & r & w' & t2 & Hrun & Hcalls & Hlast & Hin & Hupload & Hput).
  { constructor; [|constructor]. split; [reflexivity|]. split; [|reflexivity].
    intros H. vm_compute in H.
    repeat (apply elem_of_cons in H as [H|H]; [discriminate|]).
    by apply elem_of_nil in H. }
  exists w1, t1, r, w', t2.
  split; [exact Hrun|]. split; [exact Hcalls|]. split; [exact Hlast|].
  split; [exact Hin|]. split; [exact Hupload | exact Hput].
Defined.
